(** * OSC2MIDI bridge: a shallow embedding of [oscplease.py]

    The development follows the source file:

    - [Py]      the few Python built-ins the bridge relies on: decimal
                formatting of integers in f-strings, [int()], bounded
                deques, prefixes of strings;
    - [Mido]    the MIDI messages and files exchanged with mido;
    - [Codec]   the MIDI -> OSC mapping shared by [run_midi_input] and
                [_play_single_midi], the regular expression of the OSC
                address and the OSC -> MIDI mapping of
                [handle_osc_message];
    - [App]     the attributes of [OSCMIDIApp] and its methods;
    - [Session] the operations on the application in the order they take
                effect;
    - [Spec]    the vocabulary in which the properties are stated.

    The properties come after the definitions, one section per part of
    the bridge.

    Conventions.  Python integers are [Z].  Clock readings
    ([time.time()]) are exact rationals [Q].  The tempo in microseconds
    per beat is kept as the rational its value stands for: an integer
    when it comes from a file, the double that the true division of
    [change_tempo] returns otherwise, computed with the IEEE 754
    operations of the Standard Library; the delays that
    [mido.tick2second] derives from it are computed in exact arithmetic,
    and no property stated here depends on their rounding.  Strings are
    [string], read as sequences of code points below 256, among which
    the decimal digits of [\d] and of [int()] are the ASCII ones.
    [int()] is modelled without the limit CPython puts on the number of
    digits of a literal; the properties that the limit would break carry
    it as a hypothesis.  Log lines are kept as structured entries rather
    than text.  Threads are rendered by the order of the operations and
    by explicit steps of the player thread: what the player thread does
    while [skip_forward] waits for it is an explicit outcome of the
    join. *)

From Stdlib Require Import ZArith QArith Qabs Qround List String Ascii Bool.
From Stdlib Require Import Lia Lqa.
From Stdlib Require Import Permutation Sorted.
From Stdlib Require Import Floats.SpecFloat.
Import ListNotations.

Local Open Scope string_scope.
Local Open Scope Z_scope.

(* ================================================================== *)
(** * Python built-ins *)
(* ================================================================== *)

Module Py.

(** The exceptions that the modelled code can meet. *)
Inductive exn : Type :=
| IndexError
| ValueError
| TypeError
| OverflowError
| AttributeError
| ZeroDivisionError.

(** A computation that either returns or raises. *)
Inductive result (A : Type) : Type :=
| Ok (a : A)
| Raise (e : exn).
Arguments Ok {A} a.
Arguments Raise {A} e.

Definition bind {A B : Type} (c : result A) (k : A -> result B) : result B :=
  match c with
  | Ok a => k a
  | Raise e => Raise e
  end.

Declare Scope py_scope.
Delimit Scope py_scope with py.
Notation "x <- c ;; k" := (bind c (fun x => k))
  (at level 61, c at next level, right associativity) : py_scope.
Notation "c ;;; k" := (bind c (fun _ => k))
  (at level 61, right associativity) : py_scope.

(** ** Characters and decimal digits *)

Definition is_digit (c : ascii) : bool :=
  let n := nat_of_ascii c in (48 <=? n)%nat && (n <=? 57)%nat.

Definition digit_val (c : ascii) : Z := Z.of_nat (nat_of_ascii c) - 48.

Definition digit_chr (d : Z) : ascii := ascii_of_nat (Z.to_nat (48 + d)).

(** The white space [int()] skips before and after the literal.  The
    parser skips the six characters of C's [isspace] (tab to carriage
    return, and the space); before it runs, a string that is not pure
    ASCII has its Unicode white space above 127 turned into spaces, of
    which the code points below 256 hold two, NEL (133) and the
    no-break space (160).  The separators 28..31, which [str.strip]
    removes, are not skipped. *)
Definition is_space (c : ascii) : bool :=
  let n := nat_of_ascii c in
  ((9 <=? n)%nat && (n <=? 13)%nat) || (n =? 32)%nat
  || (n =? 133)%nat || (n =? 160)%nat.

Fixpoint all_digits (s : string) : bool :=
  match s with
  | EmptyString => true
  | String c s' => is_digit c && all_digits s'
  end.

(** The longest prefix of decimal digits, and what follows it: the
    greedy [\d+] (or [\d*]) of the regular expression engine. *)
Fixpoint span_digits (s : string) : string * string :=
  match s with
  | EmptyString => (EmptyString, EmptyString)
  | String c s' =>
      if is_digit c
      then let (d, r) := span_digits s' in (String c d, r)
      else (EmptyString, s)
  end.

(** A string that does not start with a digit. *)
Definition no_leading_digit (s : string) : Prop :=
  match s with
  | EmptyString => True
  | String c _ => is_digit c = false
  end.

(** [s.startswith(p)], returning what follows the prefix. *)
Fixpoint strip_prefix (p s : string) : option string :=
  match p with
  | EmptyString => Some s
  | String a p' =>
      match s with
      | EmptyString => None
      | String b s' => if Ascii.eqb a b then strip_prefix p' s' else None
      end
  end.

Definition startswith (s p : string) : bool :=
  match strip_prefix p s with Some _ => true | None => false end.

(** ** f-string formatting of an integer: [f"{n}"] *)

(** Digits of a non-negative number, most significant first.  The fuel
    bounds the number of digits after the first. *)
Fixpoint digits_of (fuel : nat) (n : Z) (acc : string) : string :=
  let acc' := String (digit_chr (n mod 10)) acc in
  match fuel with
  | O => acc'
  | S f => if n <? 10 then acc' else digits_of f (n / 10) acc'
  end.

Definition format_nonneg (n : Z) : string :=
  digits_of (Z.to_nat (Z.log2 n)) n EmptyString.

Definition format_int (n : Z) : string :=
  if n <? 0 then String "-" (format_nonneg (- n)) else format_nonneg n.

(** ** [int()] *)

(** Value of a string of digits read from the left. *)
Fixpoint digits_value (acc : Z) (s : string) : Z :=
  match s with
  | EmptyString => acc
  | String c s' => digits_value (10 * acc + digit_val c) s'
  end.

(** The digit part of an integer literal: digits, single underscores
    allowed between two digits. *)
Fixpoint int_body (acc : Z) (after_digit : bool) (s : string) : option Z :=
  match s with
  | EmptyString => if after_digit then Some acc else None
  | String c s' =>
      if is_digit c then int_body (10 * acc + digit_val c) true s'
      else if Ascii.eqb c "_" && after_digit then int_body acc false s'
      else None
  end.

Fixpoint lstrip (s : string) : string :=
  match s with
  | String c s' => if is_space c then lstrip s' else s
  | EmptyString => EmptyString
  end.

Fixpoint rstrip (s : string) : string :=
  match s with
  | EmptyString => EmptyString
  | String c s' =>
      match rstrip s' with
      | EmptyString => if is_space c then EmptyString else String c EmptyString
      | r => String c r
      end
  end.

(** [sys.int_max_str_digits], as CPython sets it: from version 3.11 on,
    [int()] raises [ValueError] on a literal of more decimal digits.
    [int_of_str] below reads a literal of any length; a property that
    the limit would break bounds the number of digits in a hypothesis. *)
Definition int_max_str_digits : nat := 4300.

(** [int(s)] for a string [s], base ten, the limit on the number of
    digits apart. *)
Definition int_of_str (s : string) : result Z :=
  let t := rstrip (lstrip s) in
  let r :=
    match t with
    | String "-" u => option_map Z.opp (int_body 0 false u)
    | String "+" u => int_body 0 false u
    | _ => int_body 0 false t
    end in
  match r with
  | Some z => Ok z
  | None => Raise ValueError
  end.

(** ** Floats

    A Python float is an IEEE 754 double.  The operations are those of
    the Standard Library's specification of binary floating point, at
    the precision and exponent range of doubles. *)
Definition prec : Z := 53.
Definition emax : Z := 1024.

(** An integer as a binary number of exponent 0, not rounded. *)
Definition float_exact (n : Z) : spec_float :=
  match n with
  | Z0 => S754_zero false
  | Zpos p => S754_finite false p 0
  | Zneg p => S754_finite true p 0
  end.

(** [float(n)]: the double nearest to the integer. *)
Definition float_of_int (n : Z) : spec_float :=
  binary_normalize prec emax n 0 false.

(** The rational number a finite float stands for. *)
Definition float_value (f : spec_float) : Q :=
  match f with
  | S754_finite s m e =>
      let v :=
        match e with
        | Zneg p => (Z.pos m # Pos.pow 2 p)%Q
        | _ => inject_Z (Z.pos m * 2 ^ e)
        end in
      if s then (- v)%Q else v
  | _ => 0%Q
  end.

(** [a / b] for two integers: the exact quotient rounded once, to the
    nearest double, ties to even. *)
Definition true_divide (a b : Z) : result spec_float :=
  if b =? 0 then Raise ZeroDivisionError
  else
    match SFdiv prec emax (float_exact a) (float_exact b) with
    | S754_infinity _ => Raise OverflowError
    | q => Ok q
    end.

(** [x / y] for two floats, [y] not zero. *)
Definition float_divide (x y : spec_float) : spec_float :=
  SFdiv prec emax x y.

(** [int(x)] for a float [x]: truncation towards zero. *)
Definition int_of_float (f : spec_float) : result Z :=
  match f with
  | S754_zero _ => Ok 0
  | S754_infinity _ => Raise OverflowError
  | S754_nan => Raise ValueError
  | S754_finite s m e =>
      let a := Z.shiftl (Z.pos m) e in
      Ok (if s then - a else a)
  end.

(** ** Sequences *)

(** [args[0]] *)
Definition item0 {A : Type} (l : list A) : result A :=
  match l with
  | x :: _ => Ok x
  | [] => Raise IndexError
  end.

(** [collections.deque(maxlen=n)]: the left end is the head of the list.
    Appending on the right of a full deque discards from the left. *)
Definition deque_append {A : Type} (maxlen : nat) (d : list A) (x : A) : list A :=
  let d' := (d ++ [x])%list in
  skipn (List.length d' - maxlen) d'.

End Py.

Import Py.

(* ================================================================== *)
(** * MIDI messages and files (mido) *)
(* ================================================================== *)

Module Mido.

(** The body of a message: its type and the attributes of that type.
    The five channel-voice types the bridge translates are spelled out,
    as is the tempo meta-message; every other type is [other]. *)
Inductive Body : Type :=
| note_on (channel note velocity : Z)
| note_off (channel note velocity : Z)
| control_change (channel control value : Z)
| aftertouch (channel value : Z)
| pitchwheel (channel pitch : Z)
| set_tempo (tempo : Z)
| other (type : string).

(** A message as found in a track or read from a port: [msg.time] is the
    delta time in ticks. *)
Record Message : Type := mkMessage { time : Z; body : Body }.

Record MidiFile : Type := mkMidiFile {
  ticks_per_beat : Z;
  tracks : list (list Message)
}.

(** Range checks made by the [Message] constructor. *)
Definition check_channel (c : Z) : result Z :=
  if (0 <=? c) && (c <=? 15) then Ok c else Raise ValueError.

Definition check_data_byte (v : Z) : result Z :=
  if (0 <=? v) && (v <=? 127) then Ok v else Raise ValueError.

Definition check_pitch (p : Z) : result Z :=
  if (-8192 <=? p) && (p <=? 8191) then Ok p else Raise ValueError.

Local Open Scope py_scope.

(** [Message('note_on', channel=c, note=n, velocity=v)], and so on. *)
Definition new_note_on (c n v : Z) : result Body :=
  c <- check_channel c ;; n <- check_data_byte n ;; v <- check_data_byte v ;;
  Ok (note_on c n v).

Definition new_note_off (c n v : Z) : result Body :=
  c <- check_channel c ;; n <- check_data_byte n ;; v <- check_data_byte v ;;
  Ok (note_off c n v).

Definition new_control_change (c k v : Z) : result Body :=
  c <- check_channel c ;; k <- check_data_byte k ;; v <- check_data_byte v ;;
  Ok (control_change c k v).

Definition new_aftertouch (c v : Z) : result Body :=
  c <- check_channel c ;; v <- check_data_byte v ;;
  Ok (aftertouch c v).

Definition new_pitchwheel (c p : Z) : result Body :=
  c <- check_channel c ;; p <- check_pitch p ;;
  Ok (pitchwheel c p).

Definition in_range (lo hi v : Z) : Prop := lo <= v <= hi.

(** What mido guarantees of every message object it hands out. *)
Definition well_formed (b : Body) : Prop :=
  match b with
  | note_on c n v | note_off c n v =>
      in_range 0 15 c /\ in_range 0 127 n /\ in_range 0 127 v
  | control_change c k v =>
      in_range 0 15 c /\ in_range 0 127 k /\ in_range 0 127 v
  | aftertouch c v => in_range 0 15 c /\ in_range 0 127 v
  | pitchwheel c p => in_range 0 15 c /\ in_range (-8192) 8191 p
  | set_tempo t => in_range 0 16777215 t
  | other _ => True
  end.

End Mido.

Import Mido.

(* ================================================================== *)
(** * The address codec *)
(* ================================================================== *)

Module Codec.

Local Open Scope py_scope.

(** An argument of an OSC message, as python-osc hands it to a handler.
    The integer, float, string, boolean and nil types are modelled. *)
Inductive OscArg : Type :=
| ArgInt (z : Z)
| ArgFloat (f : spec_float)
| ArgStr (s : string)
| ArgBool (b : bool)
| ArgNil.

(** [int(a)] on an argument. *)
Definition int (a : OscArg) : result Z :=
  match a with
  | ArgInt z => Ok z
  | ArgFloat f => int_of_float f
  | ArgStr s => int_of_str s
  | ArgBool b => Ok (if b then 1 else 0)
  | ArgNil => Raise TypeError
  end.

(** ** MIDI -> OSC

    The [if]/[elif] chain shared by [run_midi_input] (lines 711-742) and
    [_play_single_midi] (lines 970-1001): the address, the single
    argument, and the kind written in the history record. *)
Definition osc_of_midi (b : Body) : option (string * Z * string) :=
  match b with
  | note_on c n v =>
      let channel := c + 1 in
      if v >? 0 then
        Some ("/ch" ++ format_int channel ++ "note", n, "note_on")
      else if v =? 0 then
        Some ("/ch" ++ format_int channel ++ "noff", n, "note_off")
      else None
  | note_off c n _ =>
      let channel := c + 1 in
      Some ("/ch" ++ format_int channel ++ "noff", n, "note_off")
  | control_change c k v =>
      let channel := c + 1 in
      Some ("/ch" ++ format_int channel ++ "cc" ++ format_int k, v,
            "control_change")
  | aftertouch c v =>
      let channel := c + 1 in
      Some ("/ch" ++ format_int channel ++ "pressure", v, "aftertouch")
  | pitchwheel c p =>
      let channel := c + 1 in
      Some ("/ch" ++ format_int channel ++ "pitch", p, "pitchwheel")
  | set_tempo _ | other _ => None
  end.

(** ** OSC -> MIDI *)

(** The groups of a successful
    [re.match(r"/ch(\d+)(note|noff|cc(\d+)|pressure|pitch)", address)].
    [re.match] anchors at the start only: text after the match is
    ignored. *)
Record Match : Type := mkMatch {
  group1 : string;
  group2 : string;
  group3 : option string
}.

(** Both [\d+] are greedy.  Every alternative starts with a letter, so
    giving back digits of the first group never helps; the third group is
    followed by nothing, so it keeps the longest run of digits. *)
Definition re_match (address : string) : option Match :=
  match strip_prefix "/ch" address with
  | None => None
  | Some rest =>
      let (g1, rest1) := span_digits rest in
      match g1 with
      | EmptyString => None
      | _ =>
          if startswith rest1 "note" then Some (mkMatch g1 "note" None)
          else if startswith rest1 "noff" then Some (mkMatch g1 "noff" None)
          else
            match strip_prefix "cc" rest1 with
            | Some rest2 =>
                let (g3, _) := span_digits rest2 in
                match g3 with
                | EmptyString => None
                | _ => Some (mkMatch g1 ("cc" ++ g3) (Some g3))
                end
            | None =>
                if startswith rest1 "pressure"
                then Some (mkMatch g1 "pressure" None)
                else if startswith rest1 "pitch"
                then Some (mkMatch g1 "pitch" None)
                else None
            end
      end
  end.

(** What the [try] block of [handle_osc_message] decides to do. *)
Inductive Decoded : Type :=
| Send (m : Message) (kind : string)
| InvalidCC
| Unhandled.

(** [Message(type, ...)] leaves [time] at its default, 0. *)
Definition message (b : result Body) : result Message :=
  b <- b ;; Ok (mkMessage 0 b).

(** Lines 764-804, up to the construction of the message. *)
Definition build_message (channel : Z) (command : string)
    (cc_num : option string) (args : list OscArg) : result Decoded :=
  if (command =? "note")%string then
    a <- item0 args ;; note <- int a ;;
    m <- message (new_note_on channel note 100) ;;
    Ok (Send m "note_on")
  else if (command =? "noff")%string then
    a <- item0 args ;; note <- int a ;;
    m <- message (new_note_off channel note 0) ;;
    Ok (Send m "note_off")
  else if startswith command "cc" then
    match cc_num with
    | Some k =>
        control <- int_of_str k ;;
        a <- item0 args ;; value <- int a ;;
        m <- message (new_control_change channel control value) ;;
        Ok (Send m "control_change")
    | None => Ok InvalidCC
    end
  else if (command =? "pressure")%string then
    a <- item0 args ;; value <- int a ;;
    m <- message (new_aftertouch channel value) ;;
    Ok (Send m "aftertouch")
  else if (command =? "pitch")%string then
    a <- item0 args ;; pitch <- int a ;;
    m <- message (new_pitchwheel channel pitch) ;;
    Ok (Send m "pitchwheel")
  else Ok Unhandled.

End Codec.

Import Codec.

(* ================================================================== *)
(** * The application object *)
(* ================================================================== *)

Module App.

Local Open Scope py_scope.

(** An entry of [sent_messages]: the tuple
    [(address, args, kind, time.time())]. *)
Record SentRecord : Type := mkSent {
  sent_address : string;
  sent_args : list OscArg;
  sent_kind : string;
  sent_time : Q
}.

(** Lines written through [log_message]. *)
Inductive LogEntry : Type :=
| LogOscToMidi (m : Message)
| LogInvalidCC (address : string)
| LogUnhandled (command : string)
| LogError (address : string) (e : exn)
| LogInvalidAddress (address : string)
| LogMidiToOsc (address : string) (arg : Z)
| LogPlayed (address : string) (arg : Z)
| LogTestNote (address : string) (arg : Z)
| LogSkipForward (index : Z)
| LogSkipBack (index : Z)
| LogTempoChanged (bpm : Z)
| LogTempoReset (bpm : Z) (file : string)
| LogResetError (e : exn)
| LogPlayError (e : exn)
| LogText (s : string).

(** The attributes of [OSCMIDIApp] that the translation engine and the
    player use.  An open MIDI output or OSC client is represented by the
    list of what was sent through it; [None] is the closed state.
    [tempo_slider] is the value of the slider widget, whose range is set
    to 20..420 at line 401.  [thread_alive] says that [self.thread]
    exists and has not finished. *)
Record App : Type := mkApp {
  playing : bool;
  looping : bool;
  tempo : Z;
  tempo_microseconds_per_beat : Q;
  paused : bool;
  request_stop : bool;
  midi_playlist : list string;
  current_playlist_index : Z;
  sent_messages : list SentRecord;
  osc_client : option (list (string * Z));
  midi_out : option (list Message);
  tempo_slider : Z;
  thread_alive : bool;
  log : list LogEntry
}.

(** [OSCMIDIApp.__init__], lines 196-216. *)
Definition init : App := {|
  playing := false;
  looping := false;
  tempo := 120;
  tempo_microseconds_per_beat := 500000 # 1;
  paused := false;
  request_stop := false;
  midi_playlist := [];
  current_playlist_index := 0;
  sent_messages := [];
  osc_client := None;
  midi_out := None;
  tempo_slider := 120;
  thread_alive := false;
  log := []
|}.

Definition set_playing (self : App) (v : bool) : App :=
  mkApp v (looping self) (tempo self) (tempo_microseconds_per_beat self)
    (paused self) (request_stop self) (midi_playlist self)
    (current_playlist_index self) (sent_messages self) (osc_client self)
    (midi_out self) (tempo_slider self) (thread_alive self) (log self).

Definition set_tempo_bpm (self : App) (v : Z) : App :=
  mkApp (playing self) (looping self) v (tempo_microseconds_per_beat self)
    (paused self) (request_stop self) (midi_playlist self)
    (current_playlist_index self) (sent_messages self) (osc_client self)
    (midi_out self) (tempo_slider self) (thread_alive self) (log self).

Definition set_tempo_microseconds_per_beat (self : App) (v : Q) : App :=
  mkApp (playing self) (looping self) (tempo self) v
    (paused self) (request_stop self) (midi_playlist self)
    (current_playlist_index self) (sent_messages self) (osc_client self)
    (midi_out self) (tempo_slider self) (thread_alive self) (log self).

Definition set_paused (self : App) (v : bool) : App :=
  mkApp (playing self) (looping self) (tempo self)
    (tempo_microseconds_per_beat self) v (request_stop self)
    (midi_playlist self) (current_playlist_index self) (sent_messages self)
    (osc_client self) (midi_out self) (tempo_slider self)
    (thread_alive self) (log self).

Definition set_request_stop (self : App) (v : bool) : App :=
  mkApp (playing self) (looping self) (tempo self)
    (tempo_microseconds_per_beat self) (paused self) v
    (midi_playlist self) (current_playlist_index self) (sent_messages self)
    (osc_client self) (midi_out self) (tempo_slider self)
    (thread_alive self) (log self).

Definition set_midi_playlist (self : App) (v : list string) : App :=
  mkApp (playing self) (looping self) (tempo self)
    (tempo_microseconds_per_beat self) (paused self) (request_stop self)
    v (current_playlist_index self) (sent_messages self)
    (osc_client self) (midi_out self) (tempo_slider self)
    (thread_alive self) (log self).

Definition set_current_playlist_index (self : App) (v : Z) : App :=
  mkApp (playing self) (looping self) (tempo self)
    (tempo_microseconds_per_beat self) (paused self) (request_stop self)
    (midi_playlist self) v (sent_messages self)
    (osc_client self) (midi_out self) (tempo_slider self)
    (thread_alive self) (log self).

Definition set_sent_messages (self : App) (v : list SentRecord) : App :=
  mkApp (playing self) (looping self) (tempo self)
    (tempo_microseconds_per_beat self) (paused self) (request_stop self)
    (midi_playlist self) (current_playlist_index self) v
    (osc_client self) (midi_out self) (tempo_slider self)
    (thread_alive self) (log self).

Definition set_osc_client (self : App) (v : option (list (string * Z))) : App :=
  mkApp (playing self) (looping self) (tempo self)
    (tempo_microseconds_per_beat self) (paused self) (request_stop self)
    (midi_playlist self) (current_playlist_index self) (sent_messages self)
    v (midi_out self) (tempo_slider self)
    (thread_alive self) (log self).

Definition set_midi_out (self : App) (v : option (list Message)) : App :=
  mkApp (playing self) (looping self) (tempo self)
    (tempo_microseconds_per_beat self) (paused self) (request_stop self)
    (midi_playlist self) (current_playlist_index self) (sent_messages self)
    (osc_client self) v (tempo_slider self)
    (thread_alive self) (log self).

Definition set_tempo_slider (self : App) (v : Z) : App :=
  mkApp (playing self) (looping self) (tempo self)
    (tempo_microseconds_per_beat self) (paused self) (request_stop self)
    (midi_playlist self) (current_playlist_index self) (sent_messages self)
    (osc_client self) (midi_out self) v
    (thread_alive self) (log self).

Definition set_thread_alive (self : App) (v : bool) : App :=
  mkApp (playing self) (looping self) (tempo self)
    (tempo_microseconds_per_beat self) (paused self) (request_stop self)
    (midi_playlist self) (current_playlist_index self) (sent_messages self)
    (osc_client self) (midi_out self) (tempo_slider self)
    v (log self).

(** [self.log_message(...)] *)
Definition log_message (self : App) (e : LogEntry) : App :=
  mkApp (playing self) (looping self) (tempo self)
    (tempo_microseconds_per_beat self) (paused self) (request_stop self)
    (midi_playlist self) (current_playlist_index self) (sent_messages self)
    (osc_client self) (midi_out self) (tempo_slider self)
    (thread_alive self) (log self ++ [e])%list.

(** ** The history buffer *)

(** [sent_messages = deque(maxlen=100)], line 205. *)
Definition maxlen : nat := 100.

(** [self.sent_messages.append(r)] *)
Definition append_sent (self : App) (r : SentRecord) : App :=
  set_sent_messages self (deque_append maxlen (sent_messages self) r).

(** [current_time - r[3] > 0.1] *)
Definition too_old (current_time : Q) (r : SentRecord) : bool :=
  negb (Qle_bool (current_time - sent_time r) (1 # 10)).

(** The loop
    [while self.sent_messages and (current_time - self.sent_messages[0][3] > 0.1):
         self.sent_messages.popleft()]
    of lines 749-750 and 893-894. *)
Fixpoint prune (current_time : Q) (d : list SentRecord) : list SentRecord :=
  match d with
  | [] => []
  | r :: d' => if too_old current_time r then prune current_time d' else d
  end.

(** The periodic sweep, lines 890-894; [current_time] is the reading of
    the clock. *)
Definition cleanup_sent_messages (self : App) (current_time : Q) : App :=
  set_sent_messages self (prune current_time (sent_messages self)).

(** ** The dispatcher callback *)

(** [self.midi_out.send(m)]: fails on a closed output. *)
Definition send (port : option (list Message)) (m : Message)
  : result (list Message) :=
  match port with
  | Some sent => Ok (sent ++ [m])%list
  | None => Raise AttributeError
  end.

(** The body of the [try] of lines 763-804.  Nothing is written to the
    state before the last statement that can raise, so an exception
    leaves [self] as it was.  [now] is the reading of the clock stored in
    the history record. *)
Definition try_block (self : App) (now : Q) (address : string)
    (args : list OscArg) (channel : Z) (command : string)
    (cc_num : option string) : result App :=
  d <- build_message channel command cc_num args ;;
  match d with
  | Send m kind =>
      port <- send (midi_out self) m ;;
      let self := set_midi_out self (Some port) in
      let self := log_message self (LogOscToMidi m) in
      Ok (append_sent self (mkSent address args kind now))
  | InvalidCC => Ok (log_message self (LogInvalidCC address))
  | Unhandled => Ok (log_message self (LogUnhandled command))
  end.

(** [handle_osc_message(address, *args)], lines 744-809.  [current_time]
    is the clock read on entry and [now] the clock read when the history
    record is written.  The result is [Raise] when an exception leaves
    the method. *)
Definition handle_osc_message (self : App) (current_time now : Q)
    (address : string) (args : list OscArg) : result App :=
  let self :=
    set_sent_messages self (prune current_time (sent_messages self)) in
  match re_match address with
  | Some m =>
      n <- int_of_str (group1 m) ;;
      let channel := n - 1 in
      let command := group2 m in
      let cc_num := group3 m in
      if paused self then Ok self
      else
        match try_block self now address args channel command cc_num with
        | Ok self' => Ok self'
        | Raise e => Ok (log_message self (LogError address e))
        end
  | None => Ok (log_message self (LogInvalidAddress address))
  end.


(** ** MIDI -> OSC: the listener, the player and the test note *)

(** [self.osc_client.send_message(address, arg)]: fails when the client
    was reset to [None]. *)
Definition send_message (client : option (list (string * Z)))
    (address : string) (arg : Z) : result (list (string * Z)) :=
  match client with
  | Some sent => Ok (sent ++ [(address, arg)])%list
  | None => Raise AttributeError
  end.

(** One turn of the loop of [run_midi_input], lines 711-742, for the
    message [msg] read from the input port at time [now]. *)
Definition run_midi_input_step (self : App) (now : Q) (msg : Message)
  : result App :=
  match osc_of_midi (body msg) with
  | Some (address, arg, kind) =>
      client <- send_message (osc_client self) address arg ;;
      let self := set_osc_client self (Some client) in
      let self := log_message self (LogMidiToOsc address arg) in
      Ok (append_sent self (mkSent address [ArgInt arg] kind now))
  | None => Ok self
  end.

(** The emission of one event by [_play_single_midi], lines 970-1001. *)
Definition play_event (self : App) (now : Q) (msg : Message) : result App :=
  match osc_of_midi (body msg) with
  | Some (address, arg, kind) =>
      client <- send_message (osc_client self) address arg ;;
      let self := set_osc_client self (Some client) in
      let self := log_message self (LogPlayed address arg) in
      Ok (append_sent self (mkSent address [ArgInt arg] kind now))
  | None => Ok self
  end.

(** [send_test_note], lines 828-839; [chan] is the channel chosen in the
    channel menu. *)
Definition send_test_note (self : App) (now : Q) (chan : Z) : App :=
  match osc_client self with
  | None =>
      log_message self
        (LogText "OSC client not initialized. Start the server first.")
  | Some sent =>
      let test_note := 60 in
      let osc_address_note := "/ch" ++ format_int chan ++ "note" in
      let self :=
        set_osc_client self
          (Some (sent ++ [(osc_address_note, test_note)])%list) in
      let self := log_message self (LogTestNote osc_address_note test_note) in
      append_sent self
        (mkSent osc_address_note [ArgInt test_note] "note_on" now)
  end.

(** ** The merge step of the player *)

(** The inner loop of lines 949-952 on one track: each message paired
    with the running sum of the delta times. *)
Fixpoint with_abs_time (abs_time : Z) (track : list Message)
  : list (Z * Message) :=
  match track with
  | [] => []
  | msg :: rest =>
      let abs_time := abs_time + time msg in
      (abs_time, msg) :: with_abs_time abs_time rest
  end.

(** Lines 947-952: the tracks in the order of the file, [abs_time]
    restarting from 0 on each. *)
Definition collect_messages (tracks : list (list Message))
  : list (Z * Message) :=
  flat_map (with_abs_time 0) tracks.

(** [messages.sort(key=lambda x: x[0])].  Python's sort is stable, and a
    stable sort has only one possible result; it is computed here by
    insertion from the right, each element being placed in front of the
    first element whose key is not smaller. *)
Fixpoint insert_by_key (x : Z * Message) (l : list (Z * Message))
  : list (Z * Message) :=
  match l with
  | [] => [x]
  | y :: l' => if fst x <=? fst y then x :: l else y :: insert_by_key x l'
  end.

Definition sort_by_key (l : list (Z * Message)) : list (Z * Message) :=
  fold_right insert_by_key [] l.

(** Lines 947-953. *)
Definition merged_messages (midi : MidiFile) : list (Z * Message) :=
  sort_by_key (collect_messages (tracks midi)).

(** ** Tempo *)

(** [change_tempo], lines 1014-1020.  The division of line 1019 is the
    true division of two integers; its result is a float, kept in the
    state as the rational it stands for.  With a positive divisor and a
    quotient of at most 60000000 the division cannot raise. *)
Definition change_tempo (self : App) (new_tempo : Z) : App :=
  if new_tempo <=? 0 then log_message self (LogText "Invalid tempo.")
  else
    let self := set_tempo_bpm self new_tempo in
    match true_divide 60000000 new_tempo with
    | Ok q =>
        let self := set_tempo_microseconds_per_beat self (float_value q) in
        log_message self (LogTempoChanged new_tempo)
    | Raise _ => self
    end.

(** [update_tempo_display], lines 1009-1012: the slot connected to the
    [valueChanged] signal of the tempo slider at line 403. *)
Definition update_tempo_display (self : App) (value : Z) : App :=
  let new_tempo := value in
  change_tempo self new_tempo.

(** [self.tempo_slider.setRange(20, 420)], line 401. *)
Definition slider_minimum : Z := 20.
Definition slider_maximum : Z := 420.

(** [self.tempo_slider.setValue(v)]: the value is bounded to the range
    of the slider; when it differs from the current one it is stored and
    [valueChanged] is emitted, which runs the connected slot before
    [setValue] returns. *)
Definition slider_setValue (self : App) (v : Z) : App :=
  let v := Z.max slider_minimum (Z.min slider_maximum v) in
  if v =? tempo_slider self then self
  else update_tempo_display (set_tempo_slider self v) v.

(** The search of lines 1027-1038: the first [set_tempo] message, tracks
    taken in order. *)
Fixpoint first_tempo_in_track (track : list Message) : option Z :=
  match track with
  | [] => None
  | msg :: rest =>
      match body msg with
      | set_tempo t => Some t
      | _ => first_tempo_in_track rest
      end
  end.

Fixpoint first_tempo (tracks : list (list Message)) : option Z :=
  match tracks with
  | [] => None
  | track :: rest =>
      match first_tempo_in_track track with
      | Some t => Some t
      | None => first_tempo rest
      end
  end.

(** [int(60000000 / msg.tempo)], line 1031: the true division of two
    integers, then the truncation of the float. *)
Definition bpm_of_tempo (msg_tempo : Z) : result Z :=
  q <- true_divide 60000000 msg_tempo ;; int_of_float q.

(** [reset_tempo], lines 1022-1048.  [open_file path] is the result of
    [MidiFile(path)]. *)
Definition reset_tempo (open_file : string -> result MidiFile) (self : App)
  : App :=
  match midi_playlist self with
  | [] => log_message self (LogText "No playlist loaded to reset tempo from.")
  | first :: _ =>
      match open_file first with
      | Raise e => log_message self (LogResetError e)
      | Ok first_midi =>
          match first_tempo (tracks first_midi) with
          | Some msg_tempo =>
              let self :=
                set_tempo_microseconds_per_beat self (inject_Z msg_tempo) in
              match bpm_of_tempo msg_tempo with
              | Raise e => log_message self (LogResetError e)
              | Ok bpm =>
                  let self := set_tempo_bpm self bpm in
                  let self := slider_setValue self (tempo self) in
                  log_message self (LogTempoReset (tempo self) first)
              end
          | None =>
              let self :=
                log_message self
                  (LogText "No tempo event found. Using default 120 BPM.") in
              let self := set_tempo_bpm self 120 in
              let self :=
                set_tempo_microseconds_per_beat self (inject_Z 500000) in
              slider_setValue self (tempo self)
          end
      end
  end.

(** ** Playback control *)

(** [toggle_pause], lines 841-848. *)
Definition toggle_pause (self : App) : App :=
  let self := set_paused self (negb (paused self)) in
  if paused self then log_message self (LogText "Playback paused.")
  else log_message self (LogText "Playback resumed.").

(** [play], lines 909-921.  Starting the thread only records that it is
    alive; what the thread does is a matter of later steps. *)
Definition play (self : App) : App :=
  match midi_playlist self with
  | [] => log_message self (LogText "No files in the playlist to play.")
  | _ :: _ =>
      if negb (playing self) then
        let self := set_playing self true in
        let self := set_request_stop self false in
        let self := log_message self (LogText "Playback started.") in
        set_thread_alive self true
      else log_message self (LogText "Playback already in progress.")
  end.

(** The end of [_play_playlist], lines 936-939, after which the thread is
    finished. *)
Definition play_playlist_epilogue (self : App) : App :=
  let self := log_message self (LogText "Playlist playback ended.") in
  let self := set_current_playlist_index self 0 in
  let self := set_playing self false in
  let self := set_paused self false in
  set_thread_alive self false.

(** The player thread has played a file to its end and moves to the next
    one, line 934. *)
Definition player_next_file (self : App) : App :=
  set_current_playlist_index self (current_playlist_index self + 1).

(** How the player thread ends once it sees [playing] cleared or
    [request_stop] set: [_play_single_midi] returns at its next check
    (lines 958-960 and 1006-1007), [_play_playlist] increments the index
    (line 934), its loop condition fails (line 924) and the epilogue
    runs. *)
Definition player_thread_exit (self : App) : App :=
  let self := log_message self (LogText "Playback aborted.") in
  let self := log_message self (LogText "Finished playing") in
  let self :=
    set_current_playlist_index self (current_playlist_index self + 1) in
  play_playlist_epilogue self.

(** What [self.thread.join(timeout=0.2)] observes. *)
Inductive JoinOutcome : Type :=
| ThreadFinished
| JoinTimedOut.

(** [if hasattr(self, 'thread') and self.thread.is_alive():
        self.thread.join(timeout=0.2)] *)
Definition join_thread (self : App) (o : JoinOutcome) : App :=
  if thread_alive self then
    match o with
    | ThreadFinished => player_thread_exit self
    | JoinTimedOut => self
    end
  else self.

(** [len(self.midi_playlist)] *)
Definition len (l : list string) : Z := Z.of_nat (List.length l).

(** [skip_forward], lines 850-863.  Python's [%] with a positive modulus
    is [Z.modulo]. *)
Definition skip_forward (self : App) (o : JoinOutcome) : App :=
  match midi_playlist self with
  | [] => log_message self (LogText "No files to skip.")
  | _ :: _ =>
      let self := set_request_stop self true in
      let self := set_playing self false in
      let self := set_paused self false in
      let self := join_thread self o in
      let self :=
        set_current_playlist_index self
          ((current_playlist_index self + 1) mod len (midi_playlist self)) in
      let self :=
        log_message self (LogSkipForward (current_playlist_index self)) in
      play self
  end.

(** [skip_back], lines 865-878. *)
Definition skip_back (self : App) (o : JoinOutcome) : App :=
  match midi_playlist self with
  | [] => log_message self (LogText "No files to skip back.")
  | _ :: _ =>
      let self := set_request_stop self true in
      let self := set_playing self false in
      let self := set_paused self false in
      let self := join_thread self o in
      let self :=
        set_current_playlist_index self
          ((current_playlist_index self - 1) mod len (midi_playlist self)) in
      let self :=
        log_message self (LogSkipBack (current_playlist_index self)) in
      play self
  end.

(** [stop], lines 896-907. *)
Definition stop (self : App) : App :=
  let self :=
    if playing self then
      let self := set_playing self false in
      let self := set_paused self false in
      let self := set_request_stop self true in
      log_message self (LogText "Playback stopped.")
    else log_message self (LogText "Playback not running.") in
  let self := set_midi_playlist self [] in
  set_current_playlist_index self 0.

End App.

Import App.

(* ================================================================== *)
(** * Sessions: the operations in the order they take effect *)
(* ================================================================== *)

Module Session.

(** The effect of a successful [start_server] on the two outputs (lines
    644-650): a new OSC client, and the MIDI output opened unless it
    already is. *)
Definition start_server (self : App) : App :=
  let self := set_osc_client self (Some []) in
  match midi_out self with
  | Some _ => self
  | None => set_midi_out self (Some [])
  end.

(** [stop_server], lines 1076-1081, on the two outputs. *)
Definition stop_server (self : App) : App :=
  set_osc_client (set_midi_out self None) None.

(** What can happen to the application, with the readings of the clock
    and the data coming from outside. *)
Inductive Op : Type :=
| StartServer
| StopServer
| MidiIn (now : Q) (msg : Message)
| PlayEvent (now : Q) (msg : Message)
| TestNote (now : Q) (chan : Z)
| Cleanup (current_time : Q)
| OscIn (current_time now : Q) (address : string) (args : list OscArg)
| TogglePause
| AddFile (path : string)
| Play
| Stop
| PlayerNextFile
| PlayerExit
| SkipForward (o : JoinOutcome)
| SkipBack (o : JoinOutcome)
| MoveTempoSlider (value : Z)
| ResetTempo (first_file : result MidiFile).

(** An exception that leaves a method ends the thread or the slot that
    called it; the state is left as it was.  An exception raised while an
    event of a file is emitted is caught at the end of
    [_play_single_midi] (lines 1003-1004) and logged. *)
Definition or_unchanged (self : App) (r : result App) : App :=
  match r with
  | Ok self' => self'
  | Raise _ => self
  end.

Definition step (self : App) (o : Op) : App :=
  match o with
  | StartServer => start_server self
  | StopServer => stop_server self
  | MidiIn now msg => or_unchanged self (run_midi_input_step self now msg)
  | PlayEvent now msg =>
      match play_event self now msg with
      | Ok self' => self'
      | Raise e => log_message self (LogPlayError e)
      end
  | TestNote now chan => send_test_note self now chan
  | Cleanup current_time => cleanup_sent_messages self current_time
  | OscIn current_time now address args =>
      or_unchanged self (handle_osc_message self current_time now address args)
  | TogglePause => toggle_pause self
  | AddFile path =>
      set_midi_playlist self (midi_playlist self ++ [path])%list
  | Play => play self
  | Stop => stop self
  | PlayerNextFile =>
      if thread_alive self then player_next_file self else self
  | PlayerExit => if thread_alive self then player_thread_exit self else self
  | SkipForward o => skip_forward self o
  | SkipBack o => skip_back self o
  | MoveTempoSlider value => slider_setValue self value
  | ResetTempo first_file => reset_tempo (fun _ => first_file) self
  end.

Definition run (self : App) (ops : list Op) : App :=
  fold_left step ops self.

(** The readings of the clock made by an operation, in order. *)
Definition readings (o : Op) : list Q :=
  match o with
  | MidiIn now _ | PlayEvent now _ | TestNote now _ => [now]
  | Cleanup current_time => [current_time]
  | OscIn current_time now _ _ => [current_time; now]
  | _ => []
  end.

(** The clock never goes back. *)
Fixpoint nondecreasing (last : Q) (l : list Q) : Prop :=
  match l with
  | [] => True
  | t :: l' => (last <= t)%Q /\ nondecreasing t l'
  end.

Definition clock_ok (ops : list Op) : Prop :=
  match flat_map readings ops with
  | [] => True
  | t :: l => nondecreasing t l
  end.

End Session.

Import Session.

(* ================================================================== *)
(** * Vocabulary of the specification *)
(* ================================================================== *)

Module Spec.

(** ** Musical events *)

Inductive Kind : Type :=
| NoteOn
| NoteOff
| ControlChange
| Aftertouch
| PitchBend.

(** The kind of an event.  A note-on with velocity zero is a note-off,
    as everywhere in MIDI. *)
Definition kind_of (b : Body) : option Kind :=
  match b with
  | note_on _ _ v => if v =? 0 then Some NoteOff else Some NoteOn
  | note_off _ _ _ => Some NoteOff
  | control_change _ _ _ => Some ControlChange
  | aftertouch _ _ => Some Aftertouch
  | pitchwheel _ _ => Some PitchBend
  | set_tempo _ | other _ => None
  end.

Definition channel_of (b : Body) : option Z :=
  match b with
  | note_on c _ _ | note_off c _ _ | control_change c _ _
  | aftertouch c _ | pitchwheel c _ => Some c
  | set_tempo _ | other _ => None
  end.

(** The note, value or pitch of an event. *)
Definition payload_of (b : Body) : option Z :=
  match b with
  | note_on _ n _ | note_off _ n _ => Some n
  | control_change _ _ v | aftertouch _ v => Some v
  | pitchwheel _ p => Some p
  | set_tempo _ | other _ => None
  end.

Definition controller_of (b : Body) : option Z :=
  match b with
  | control_change _ k _ => Some k
  | _ => None
  end.

Definition velocity_of (b : Body) : option Z :=
  match b with
  | note_on _ _ v | note_off _ _ v => Some v
  | _ => None
  end.

(** Two events are equivalent when they agree on kind, channel, payload
    and controller number. *)
Definition equivalent (b d : Body) : Prop :=
  kind_of b = kind_of d /\ channel_of b = channel_of d /\
  payload_of b = payload_of d /\ controller_of b = controller_of d.

(** The event that comes back from the network for the event [b]: the
    velocity is not carried by the address or the argument. *)
Definition decoded_image (b : Body) : Body :=
  match b with
  | note_on c n v => if v =? 0 then note_off c n 0 else note_on c n 100
  | note_off c n _ => note_off c n 0
  | _ => b
  end.

(** ** The address grammar *)

Definition digits1 (s : string) : Prop :=
  s <> EmptyString /\ all_digits s = true.

(** [note|noff|cc(\d+)|pressure|pitch] *)
Inductive command_word : string -> Prop :=
| cw_note : command_word "note"
| cw_noff : command_word "noff"
| cw_cc (k : string) : digits1 k -> command_word ("cc" ++ k)
| cw_pressure : command_word "pressure"
| cw_pitch : command_word "pitch".

(** The four commands without a number. *)
Definition plain_command (w : string) : Prop :=
  w = "note" \/ w = "noff" \/ w = "pressure" \/ w = "pitch".

(** [/ch(\d+)(note|noff|cc(\d+)|pressure|pitch)] *)
Definition in_grammar (s : string) : Prop :=
  exists n w, digits1 n /\ command_word w /\ s = "/ch" ++ n ++ w.

(** A string matches when one of its prefixes is in the grammar, which is
    what [re.match] decides. *)
Definition matches_grammar (address : string) : Prop :=
  exists s rest, in_grammar s /\ address = s ++ rest.

(** The channel number of the address, when the expression matches, is
    not longer than [int()] accepts. *)
Definition channel_within_limit (address : string) : Prop :=
  forall m, re_match address = Some m ->
            (String.length (group1 m) <= int_max_str_digits)%nat.

(** A message carries exactly one integer argument. *)
Definition one_integer_argument (args : list OscArg) : Prop :=
  exists z, args = [ArgInt z].

(** ** Outcomes of the dispatcher callback *)

(** The message was dropped: nothing went to the MIDI output and no
    record entered the history, which was only swept. *)
Definition dropped (self : App) (current_time : Q) (self' : App) : Prop :=
  midi_out self' = midi_out self /\
  sent_messages self' = prune current_time (sent_messages self).

(** The message was dropped and a line about it was logged. *)
Definition logged_drop (self : App) (current_time : Q) (self' : App) : Prop :=
  dropped self current_time self' /\
  exists e, log self' = (log self ++ [e])%list.

(** Two states that differ at most in the records of the history. *)
Definition same_but_history (s1 s2 : App) : Prop :=
  s2 = set_sent_messages s1 (sent_messages s2).

(** ** The history buffer *)

(** A record is fresh at [t] when it is not more than 100 ms older. *)
Definition fresh (t : Q) (r : SentRecord) : Prop :=
  (t - sent_time r <= 1 # 10)%Q.

(** The records are in the order of their time stamps. *)
Definition time_le (a b : SentRecord) : Prop :=
  (sent_time a <= sent_time b)%Q.

(** What the operations maintain of the buffer, [last] being the latest
    reading of the clock: the bound of the deque, the order of the time
    stamps, and no time stamp from the future. *)
Definition buffer_ok (last : Q) (h : list SentRecord) : Prop :=
  (List.length h <= maxlen)%nat /\
  StronglySorted time_le h /\
  Forall (fun r => (sent_time r <= last)%Q) h.

(** The latest reading of the clock after the readings [l]. *)
Definition last_of (last : Q) (l : list Q) : Q := List.last l last.

(** ** The merged sequence *)

Definition tick_le (x y : Z * Message) : Prop := fst x <= fst y.

(** The events at tick [t], in the order of the list. *)
Definition at_tick (t : Z) (l : list (Z * Message)) : list (Z * Message) :=
  filter (fun x => fst x =? t) l.

(** ** Tempo *)

(** [x] is within [tol] of [y]. *)
Definition within (tol x y : Q) : Prop := (Qabs (x - y) <= tol)%Q.

Definition within_bool (tol x y : Q) : bool := Qle_bool (Qabs (x - y)) tol.

(** The way back of the round trip: the tempo in beats per minute that a
    number of microseconds per beat stands for, [60000000 / us], computed
    in floats. *)
Definition bpm_of_microseconds (us : spec_float) : spec_float :=
  float_divide (float_of_int 60000000) us.

(** Half a unit in the last place of a double, and a whole one, relative
    to the number. *)
Definition half_ulp : Q := 1 # 9007199254740992.
Definition one_ulp : Q := 1 # 4503599627370496.

(** The round trip of one tempo, decided by computation: the quotient of
    line 1019 is within half a unit in the last place of 60000000/bpm;
    so is the exact quotient of 60000000 by it, of the tempo; the float
    quotient is within one unit and has the tempo as nearest integer;
    and the whole microseconds, as a file holds them, give the tempo
    back through the formula of [reset_tempo]. *)
Definition round_trip_ok (bpm : Z) : bool :=
  match true_divide 60000000 bpm with
  | Ok q =>
      let us := float_value q in
      let exact := (inject_Z 60000000 / inject_Z bpm)%Q in
      let back := float_value (bpm_of_microseconds q) in
      within_bool (exact * half_ulp) us exact
      && within_bool (inject_Z bpm * half_ulp) (inject_Z 60000000 / us)
           (inject_Z bpm)
      && within_bool (inject_Z bpm * one_ulp) back (inject_Z bpm)
      && (Qfloor (back + (1 # 2)) =? bpm)
      && match bpm_of_tempo (Qfloor us) with
         | Ok back => back =? bpm
         | Raise _ => false
         end
  | Raise _ => false
  end.

(** The absolute tick of the message of index [k] of a track: the sum
    of the delta times of the track up to and including that message. *)
Definition absolute_tick (track : list Message) (k : nat) : Z :=
  fold_right Z.add 0 (map time (firstn (S k) track)).

(** The events of a track, each with its absolute tick, in the order of
    the track. *)
Definition timed_events (track : list Message) : list (Z * Message) :=
  combine (map (absolute_tick track) (seq 0 (List.length track))) track.

End Spec.

Import Spec.

(* ================================================================== *)
(** * The routes registered with the dispatcher *)
(* ================================================================== *)

Module Routes.

(** [range(a, b)] *)
Definition range (a b : Z) : list Z :=
  map (fun i => a + Z.of_nat i) (seq 0 (Z.to_nat (b - a))).

(** The addresses mapped for one channel, in the order of lines 621-625
    and 629-632. *)
Definition routes_for (ch : Z) : list string :=
  ("/ch" ++ format_int ch ++ "note")
  :: ("/ch" ++ format_int ch ++ "noff")
  :: map (fun cc_num => "/ch" ++ format_int ch ++ "cc" ++ format_int cc_num)
       (range 0 128).

(** The addresses mapped by [start_server], lines 617-632: [ch16] is the
    state of the 16-channel check box, [selected_ch] the number chosen in
    the channel menu. *)
Definition dispatcher_routes (ch16 : bool) (selected_ch : Z) : list string :=
  if ch16 then flat_map routes_for (range 1 17) else routes_for selected_ch.

(** The groups of the match of a registered address: [note], [noff] or
    [cc] with a controller number below 128. *)
Definition route_command (m : Match) : Prop :=
  (group2 m = "note" /\ group3 m = None) \/
  (group2 m = "noff" /\ group3 m = None) \/
  exists k, 0 <= k < 128 /\ group2 m = "cc" ++ format_int k /\
            group3 m = Some (format_int k).

End Routes.

Import Routes.

(* ================================================================== *)
(** * The on-screen keyboard *)
(* ================================================================== *)

Module Piano.

(** The attributes of [PianoRoll] used by its two senders. *)
Record PianoRoll : Type := mkPianoRoll {
  piano_client : option (list (string * Z));
  piano_channel : Z
}.

(** [d.get(key, default)] on a dictionary written as the list of its
    items. *)
Fixpoint dict_get (d : list (string * Z)) (key : string) (default : Z) : Z :=
  match d with
  | [] => default
  | (k, v) :: d' => if (k =? key)%string then v else dict_get d' key default
  end.

(** The table of [send_note_on], lines 107-111. *)
Definition key_to_note_on : list (string * Z) :=
  [("C", 60); ("C#", 61); ("D", 62); ("D#", 63); ("E", 64); ("E#", 65);
   ("F", 65); ("F#", 66); ("G", 67); ("G#", 68); ("A", 69); ("A#", 70);
   ("B", 71); ("B#", 72)].

(** The table of [send_note_off], lines 126-130. *)
Definition key_to_note_off : list (string * Z) :=
  [("C", 60); ("C#", 61); ("D", 62); ("D#", 63); ("E", 64); ("E#", 65);
   ("F", 65); ("F#", 66); ("G", 67); ("G#", 68); ("A", 69); ("A#", 70);
   ("B", 71); ("B#", 72)].

(** [send_note_on], lines 101-118: what is sent, if anything. *)
Definition note_on_message (self : PianoRoll) (key_label : string)
  : option (string * Z) :=
  match piano_client self with
  | None => None
  | Some _ =>
      let note_number := dict_get key_to_note_on key_label 60 in
      let osc_address_note := "/ch" ++ format_int (piano_channel self) ++ "note" in
      Some (osc_address_note, note_number)
  end.

Definition send_note_on (self : PianoRoll) (key_label : string) : PianoRoll :=
  match piano_client self, note_on_message self key_label with
  | Some sent, Some m => mkPianoRoll (Some (sent ++ [m])%list) (piano_channel self)
  | _, _ => self
  end.

(** [send_note_off], lines 120-137. *)
Definition note_off_message (self : PianoRoll) (key_label : string)
  : option (string * Z) :=
  match piano_client self with
  | None => None
  | Some _ =>
      let note_number := dict_get key_to_note_off key_label 60 in
      let osc_address_noff := "/ch" ++ format_int (piano_channel self) ++ "noff" in
      Some (osc_address_noff, note_number)
  end.

Definition send_note_off (self : PianoRoll) (key_label : string) : PianoRoll :=
  match piano_client self, note_off_message self key_label with
  | Some sent, Some m => mkPianoRoll (Some (sent ++ [m])%list) (piano_channel self)
  | _, _ => self
  end.

End Piano.

Import Piano.

(* ================================================================== *)
(** * The listener loop and the intake of files *)
(* ================================================================== *)

Module Listener.

Local Open Scope py_scope.

(** The loop of [run_midi_input], lines 707-742, over the messages the
    input port yields, each with the reading of the clock at which it is
    handled.  [start_button] is the text of the start button. *)
Fixpoint run_midi_input_loop (self : App) (start_button : string)
    (input : list (Q * Message)) : result App :=
  match input with
  | [] => Ok self
  | (now, msg) :: input' =>
      if negb (start_button =? "Stop Server")%string then Ok self
      else
        self <- run_midi_input_step self now msg ;;
        run_midi_input_loop self start_button input'
  end.

(** [run_midi_input], lines 701-742; [midi_in] says that the input port
    is set. *)
Definition run_midi_input (self : App) (midi_in : bool)
    (start_button : string) (input : list (Q * Message)) : result App :=
  match midi_in, osc_client self with
  | true, Some _ => run_midi_input_loop self start_button input
  | _, _ =>
      Ok (log_message self (LogText "MIDI In or OSC Client not initialized."))
  end.

(** What the loop sends for a sequence of messages. *)
Definition encodings (msgs : list Message) : list (string * Z) :=
  flat_map
    (fun msg =>
       match osc_of_midi (body msg) with
       | Some (address, arg, _) => [(address, arg)]
       | None => []
       end)
    msgs.

(** [c.lower()] and [s.lower()], on ASCII letters. *)
Definition lower_char (c : ascii) : ascii :=
  let n := nat_of_ascii c in
  if (65 <=? n)%nat && (n <=? 90)%nat then ascii_of_nat (n + 32) else c.

Fixpoint lower (s : string) : string :=
  match s with
  | EmptyString => EmptyString
  | String c s' => String (lower_char c) (lower s')
  end.

(** [s.endswith(suffix)] *)
Fixpoint endswith (s suffix : string) : bool :=
  (s =? suffix)%string ||
  match s with
  | EmptyString => false
  | String _ s' => endswith s' suffix
  end.

(** [handle_dropped_files], lines 1056-1063. *)
Fixpoint handle_dropped_files (self : App) (file_list : list string) : App :=
  match file_list with
  | [] => self
  | path :: file_list' =>
      let self :=
        if endswith (lower path) ".mid" then
          let self :=
            set_midi_playlist self (midi_playlist self ++ [path])%list in
          log_message self (LogText ("Added via drag-drop: " ++ path))
        else log_message self (LogText ("Invalid file type: " ++ path)) in
      handle_dropped_files self file_list'
  end.

End Listener.

Import Listener.

(* ================================================================== *)
(** * The player thread *)
(* ================================================================== *)

Module Player.

Local Open Scope py_scope.

(** [mido.tick2second(tick, ticks_per_beat, tempo)]:
    [scale = tempo * 1e-6 / ticks_per_beat; return tick * scale]. *)
Definition tick2second (tick ticks_per_beat : Z) (tempo : Q) : result Q :=
  if ticks_per_beat =? 0 then Raise ZeroDivisionError
  else
    Ok (inject_Z tick * (tempo * (1 # 1000000) / inject_Z ticks_per_beat))%Q.

(** [time.sleep(seconds)] refuses a negative length. *)
Definition sleep (seconds : Q) : result Q :=
  if Qle_bool 0 seconds then Ok seconds else Raise ValueError.

(** [l[i]] *)
Definition getitem {A : Type} (l : list A) (i : Z) : result A :=
  let n := Z.of_nat (List.length l) in
  let j := if i <? 0 then i + n else i in
  if (0 <=? j) && (j <? n) then
    match nth_error l (Z.to_nat j) with
    | Some x => Ok x
    | None => Raise IndexError
    end
  else Raise IndexError.

(** [os.path.basename(path)], POSIX: what follows the last slash. *)
Fixpoint basename_from (acc path : string) : string :=
  match path with
  | EmptyString => acc
  | String c path' =>
      if Ascii.eqb c "/" then basename_from EmptyString path'
      else basename_from (acc ++ String c EmptyString) path'
  end.

Definition basename (path : string) : string := basename_from EmptyString path.

(** Where [_play_single_midi] stands in its [for] loop: the local
    variables [ticks_per_beat] and [previous_abs_time], the messages the
    loop has still to visit, and whether the thread is inside the
    [while] of line 962 for the first of them. *)
Record Position : Type := mkPosition {
  ticks_per_beat_of : Z;
  rest : list (Z * Message);
  previous_abs_time : Z;
  polling : bool
}.

(** What one scheduling step of the thread inside [_play_single_midi]
    does: a poll of the pause loop ([time.sleep(0.01)]), the sleep and
    emission of one event, or the return of the method. *)
Inductive Outcome : Type :=
| Polled (self : App) (p : Position)
| Emitted (self : App) (p : Position) (msg_time : Q)
| Returned (self : App).

(** The [finally] clause, lines 1005-1007. *)
Definition finally (self : App) (file_path : string) : App :=
  if negb (playing self) || request_stop self then
    log_message self (LogText ("Finished playing: " ++ basename file_path))
  else self.

(** Lines 965-1001 for the message [(abs_time, msg)]: the delay is
    computed from the tempo of the moment and slept, then the event is
    emitted. *)
Definition emit (self : App) (now : Q) (p : Position) (abs_time : Z)
    (msg : Message) (tail : list (Z * Message))
  : result (App * Position * Q) :=
  let delta_ticks := abs_time - previous_abs_time p in
  msg_time <- tick2second delta_ticks (ticks_per_beat_of p)
                (tempo_microseconds_per_beat self) ;;
  slept <- sleep msg_time ;;
  self <- play_event self now msg ;;
  Ok (self, mkPosition (ticks_per_beat_of p) tail abs_time false, slept).

(** One step of the thread in the loop of lines 957-1001.  The check of
    lines 958-960 is made on entering an iteration only, not on leaving
    the pause loop.  A step takes the thread from one reading of the
    flags to the next: between the pause loop and the send (lines
    965-1001) the thread reads no flag, so that a call of [stop] or a
    press on the pause button that arrives while the thread sleeps does
    not keep the event back.  The steps are taken one at a time, the
    actions of the other threads falling between them; a thread inside
    [time.sleep(msg_time)] is not a position of its own, and what an
    action arriving there does to the event is stated on [play_event]
    directly. *)
Definition play_single_midi_step (self : App) (file_path : string) (now : Q)
    (p : Position) : Outcome :=
  match rest p with
  | [] => Returned (finally self file_path)
  | (abs_time, msg) :: tail =>
      if negb (polling p) && (negb (playing self) || request_stop self) then
        Returned
          (finally (log_message self (LogText "Playback aborted.")) file_path)
      else if paused self && playing self && negb (request_stop self) then
        Polled self
          (mkPosition (ticks_per_beat_of p) (rest p) (previous_abs_time p) true)
      else
        match emit self now p abs_time msg tail with
        | Ok (self, p, slept) => Emitted self p slept
        | Raise e =>
            Returned (finally (log_message self (LogPlayError e)) file_path)
        end
  end.

(** Lines 942-955: the file is opened and its messages merged. *)
Definition play_single_midi_enter (open_file : string -> result MidiFile)
    (self : App) (file_path : string) : App * option Position :=
  let self :=
    log_message self (LogText ("Playing: " ++ basename file_path)) in
  match open_file file_path with
  | Ok midi =>
      (self, Some (mkPosition (ticks_per_beat midi) (merged_messages midi) 0 false))
  | Raise e => (finally (log_message self (LogPlayError e)) file_path, None)
  end.

(** Where the thread of [_play_playlist] stands. *)
Inductive Thread : Type :=
| AtLoop
| InFile (file_path : string) (p : Position)
| Ended
| Crashed (e : exn).

(** One step of the thread of [_play_playlist], lines 923-939. *)
Definition play_playlist_step (open_file : string -> result MidiFile)
    (self : App) (now : Q) (t : Thread) : App * Thread :=
  match t with
  | AtLoop =>
      if playing self && negb (request_stop self) then
        let at_end :=
          current_playlist_index self >=? len (midi_playlist self) in
        if at_end && negb (looping self) then
          let self := log_message self (LogText "Reached end of playlist.") in
          (play_playlist_epilogue self, Ended)
        else
          let self :=
            if at_end then set_current_playlist_index self 0 else self in
          match getitem (midi_playlist self) (current_playlist_index self) with
          | Raise e => (set_thread_alive self false, Crashed e)
          | Ok current_file =>
              match play_single_midi_enter open_file self current_file with
              | (self, Some p) => (self, InFile current_file p)
              | (self, None) => (player_next_file self, AtLoop)
              end
          end
      else (play_playlist_epilogue self, Ended)
  | InFile file_path p =>
      match play_single_midi_step self file_path now p with
      | Polled self p => (self, InFile file_path p)
      | Emitted self p _ => (self, InFile file_path p)
      | Returned self => (player_next_file self, AtLoop)
      end
  | Ended => (self, Ended)
  | Crashed e => (self, Crashed e)
  end.

(** [n] steps of the thread, the [k]-th at the reading [clock k]. *)
Fixpoint play_playlist_run (open_file : string -> result MidiFile)
    (clock : nat -> Q) (n : nat) (self : App) (t : Thread) : App * Thread :=
  match n with
  | O => (self, t)
  | S n' =>
      let (self, t) := play_playlist_step open_file self (clock O) t in
      play_playlist_run open_file (fun k => clock (S k)) n' self t
  end.

(** What happens while a file plays: a step of the thread, or a press on
    the pause button. *)
Inductive Action : Type :=
| Tick (now : Q)
| PressPause.

(** A file played under a schedule of actions: the final state, the
    position if the method has not returned, and the delays slept before
    the events. *)
Fixpoint play_single_midi_run (self : App) (file_path : string)
    (p : Position) (schedule : list Action) (slept : list Q)
  : App * option Position * list Q :=
  match schedule with
  | [] => (self, Some p, slept)
  | PressPause :: schedule' =>
      play_single_midi_run (toggle_pause self) file_path p schedule' slept
  | Tick now :: schedule' =>
      match play_single_midi_step self file_path now p with
      | Polled self p =>
          play_single_midi_run self file_path p schedule' slept
      | Emitted self p msg_time =>
          play_single_midi_run self file_path p schedule'
            (slept ++ [msg_time])%list
      | Returned self => (self, None, slept)
      end
  end.

(** The steps of a schedule that find the player not paused, [paused]
    being the flag at the start. *)
Fixpoint effective (paused : bool) (schedule : list Action) : list Action :=
  match schedule with
  | [] => []
  | PressPause :: schedule' => effective (negb paused) schedule'
  | Tick now :: schedule' =>
      if paused then effective paused schedule'
      else Tick now :: effective paused schedule'
  end.

(** The number of steps within which the thread started at index [i]
    ends when nothing loops: one for the end of the playlist, and for
    each file one to open it and, when it opens, one per message and one
    to leave it. *)
Definition file_steps (open_file : string -> result MidiFile)
    (file_path : string) : nat :=
  match open_file file_path with
  | Ok midi => S (S (List.length (merged_messages midi)))
  | Raise _ => 1
  end.

Definition playlist_steps (open_file : string -> result MidiFile)
    (files : list string) : nat :=
  S (fold_right (fun f n => (file_steps open_file f + n)%nat) O files).

(** ** Vocabulary for the properties of the player *)




(** Two states that agree on everything the controls of the player and
    the dispatcher look at. *)
Definition same_controls (s1 s2 : App) : Prop :=
  playing s1 = playing s2 /\ looping s1 = looping s2 /\
  tempo s1 = tempo s2 /\
  tempo_microseconds_per_beat s1 = tempo_microseconds_per_beat s2 /\
  paused s1 = paused s2 /\ request_stop s1 = request_stop s2 /\
  midi_playlist s1 = midi_playlist s2 /\
  current_playlist_index s1 = current_playlist_index s2 /\
  midi_out s1 = midi_out s2 /\ tempo_slider s1 = tempo_slider s2 /\
  thread_alive s1 = thread_alive s2.

(** The flags with which the player goes on. *)
Definition running (s : App) : Prop :=
  playing s = true /\ request_stop s = false.

(** Two states with the same OSC output and the same history. *)
Definition same_outputs (s1 s2 : App) : Prop :=
  osc_client s1 = osc_client s2 /\ sent_messages s1 = sent_messages s2.

(** The messages a run has still to go through: those of the position
    it stands at, none when the method has returned. *)
Definition remaining (o : option Position) : list (Z * Message) :=
  match o with
  | Some p => rest p
  | None => []
  end.

(** The thread has neither ended nor died. *)
Definition alive (t : Thread) : Prop :=
  match t with
  | AtLoop | InFile _ _ => True
  | Ended | Crashed _ => False
  end.

(** Playback is on and nobody has asked it to stop; the loop and pause
    flags and the playlist are the given ones, the index is not
    negative. *)
Definition player_on (loop pause : bool) (files : list string) (s : App)
  : Prop :=
  playing s = true /\ request_stop s = false /\ looping s = loop /\
  paused s = pause /\ midi_playlist s = files /\
  0 <= current_playlist_index s.


End Player.

Import Player.

(* ================================================================== *)
(** * Strings, digits and integer literals *)
(* ================================================================== *)

Section StringFacts.

#[local] Arguments is_digit : simpl never.
#[local] Arguments is_space : simpl never.
#[local] Arguments digit_val : simpl never.
#[local] Arguments digit_chr : simpl never.

Lemma append_assoc (a b c : string) : (a ++ b) ++ c = a ++ (b ++ c).
Proof. induction a as [|x a IH]; simpl; [reflexivity | now rewrite IH]. Qed.

Lemma append_empty_r (a : string) : a ++ EmptyString = a.
Proof. induction a as [|x a IH]; simpl; [reflexivity | now rewrite IH]. Qed.

Lemma length_append (a b : string) :
  String.length (a ++ b) = (String.length a + String.length b)%nat.
Proof. induction a as [|x a IH]; simpl; [reflexivity | now rewrite IH]. Qed.

Lemma strip_prefix_append (p s : string) : strip_prefix p (p ++ s) = Some s.
Proof.
  induction p as [|x p IH]; simpl; [reflexivity|].
  now rewrite Ascii.eqb_refl.
Qed.

Lemma strip_prefix_inv (p s r : string) :
  strip_prefix p s = Some r -> s = p ++ r.
Proof.
  revert s; induction p as [|x p IH]; simpl; intros s H.
  - now inversion H.
  - destruct s as [|y s]; [discriminate|].
    destruct (Ascii.eqb x y) eqn:E; [|discriminate].
    apply Ascii.eqb_eq in E; subst y. now rewrite (IH s H).
Qed.

Lemma startswith_append (p s : string) : startswith (p ++ s) p = true.
Proof. unfold startswith. now rewrite strip_prefix_append. Qed.

Lemma startswith_inv (s p : string) :
  startswith s p = true -> exists r, s = p ++ r.
Proof.
  unfold startswith. destruct (strip_prefix p s) as [r|] eqn:E; [|discriminate].
  intros _. exists r. now apply strip_prefix_inv.
Qed.

Lemma all_digits_append (a b : string) :
  all_digits (a ++ b) = all_digits a && all_digits b.
Proof.
  induction a as [|x a IH]; simpl; [reflexivity|].
  now rewrite IH, andb_assoc.
Qed.

Lemma digits_value_append (a b : string) (acc : Z) :
  digits_value acc (a ++ b) = digits_value (digits_value acc a) b.
Proof. revert acc; induction a as [|x a IH]; simpl; intros; [reflexivity | apply IH]. Qed.

Lemma span_digits_append (d r : string) :
  all_digits d = true -> no_leading_digit r ->
  span_digits (d ++ r) = (d, r).
Proof.
  intros Hd Hr. induction d as [|x d IH]; simpl in *.
  - destruct r as [|c r]; [reflexivity|]. simpl in Hr |- *. now rewrite Hr.
  - apply andb_true_iff in Hd as [Hx Hd]. rewrite Hx, (IH Hd). reflexivity.
Qed.

Lemma span_digits_all (d : string) :
  all_digits d = true -> span_digits d = (d, EmptyString).
Proof.
  intros Hd. rewrite <- (append_empty_r d) at 1.
  now apply span_digits_append.
Qed.

Lemma span_digits_inv (s d r : string) :
  span_digits s = (d, r) ->
  s = d ++ r /\ all_digits d = true /\ no_leading_digit r.
Proof.
  revert d r; induction s as [|c s IH]; simpl; intros d r H.
  - inversion H; subst. repeat split.
  - destruct (is_digit c) eqn:E.
    + destruct (span_digits s) as [d' r'] eqn:Es. inversion H; subst.
      destruct (IH d' r eq_refl) as (-> & Hd & Hr).
      simpl. rewrite E, Hd. repeat split. exact Hr.
    + inversion H; subst. simpl. repeat split. exact E.
Qed.

(** The digits of a run in front of more text are kept by the greedy
    scan, which may take more of them. *)
Lemma span_digits_nonempty (d r : string) :
  d <> EmptyString -> all_digits d = true -> fst (span_digits (d ++ r)) <> EmptyString.
Proof.
  intros Hne Hd. destruct d as [|x d]; [congruence|].
  simpl in *. apply andb_true_iff in Hd as [Hx _]. rewrite Hx.
  destruct (span_digits (d ++ r)). simpl. discriminate.
Qed.

(** ** Decimal digits *)

Lemma digit_chr_spec (d : Z) :
  0 <= d <= 9 ->
  is_digit (digit_chr d) = true /\ digit_val (digit_chr d) = d /\
  is_space (digit_chr d) = false.
Proof.
  intros H.
  assert (d = 0 \/ d = 1 \/ d = 2 \/ d = 3 \/ d = 4 \/
          d = 5 \/ d = 6 \/ d = 7 \/ d = 8 \/ d = 9) as C by lia.
  repeat (destruct C as [-> | C]); try subst d; repeat split; reflexivity.
Qed.

Lemma is_digit_not_space (c : ascii) : is_digit c = true -> is_space c = false.
Proof.
  unfold is_digit, is_space. intros H.
  apply andb_true_iff in H as [H1 H2].
  apply Nat.leb_le in H1. apply Nat.leb_le in H2.
  assert ((nat_of_ascii c <=? 13)%nat = false) as -> by (apply Nat.leb_gt; lia).
  assert ((nat_of_ascii c =? 32)%nat = false) as -> by (apply Nat.eqb_neq; lia).
  assert ((nat_of_ascii c =? 133)%nat = false) as ->
    by (apply Nat.eqb_neq; lia).
  assert ((nat_of_ascii c =? 160)%nat = false) as ->
    by (apply Nat.eqb_neq; lia).
  now rewrite andb_false_r.
Qed.

Lemma is_digit_not_sign (c : ascii) :
  is_digit c = true -> c <> "-"%char /\ c <> "+"%char /\ c <> "_"%char.
Proof. intros H; repeat split; intros ->; discriminate H. Qed.

Lemma digit_val_range (c : ascii) : is_digit c = true -> 0 <= digit_val c <= 9.
Proof.
  unfold is_digit, digit_val. intros H.
  apply andb_true_iff in H as [H1 H2].
  apply Nat.leb_le in H1. apply Nat.leb_le in H2. lia.
Qed.

(** ** Formatting: the digits written for a number *)

(** [digits_of] writes a non-empty run of digits in front of [acc]; read
    back after [a], the run continues the number [a] with [n]. *)
Lemma digits_of_spec (fuel : nat) :
  forall n acc, 0 <= n < 2 ^ Z.of_nat (S fuel) ->
  exists ds, digits_of fuel n acc = ds ++ acc /\ ds <> EmptyString /\
             all_digits ds = true /\
             forall a, digits_value a ds
                       = a * 10 ^ Z.of_nat (String.length ds) + n.
Proof.
  assert (forall n acc, 0 <= n <= 9 ->
    exists ds, String (digit_chr (n mod 10)) acc = ds ++ acc /\ ds <> EmptyString /\
               all_digits ds = true /\
               forall a, digits_value a ds
                         = a * 10 ^ Z.of_nat (String.length ds) + n) as One.
  { intros n acc Hn.
    assert (n mod 10 = n) as E by (apply Z.mod_small; lia).
    destruct (digit_chr_spec n Hn) as (Hd & Hv & _).
    exists (String (digit_chr n) EmptyString). rewrite E.
    cbn [append all_digits digits_value String.length].
    rewrite Hd, Hv. repeat split; try discriminate.
    intros a. change (10 ^ Z.of_nat 1) with 10. lia. }
  induction fuel as [|f IH]; intros n acc Hn.
  - cbn [digits_of]. apply One. change (2 ^ Z.of_nat 1) with 2 in Hn. lia.
  - cbn [digits_of]. destruct (n <? 10) eqn:E10.
    + apply Z.ltb_lt in E10. apply One. lia.
    + apply Z.ltb_ge in E10.
      assert (0 <= n / 10 < 2 ^ Z.of_nat (S f)) as Hq.
      { split; [apply Z.div_pos; lia|].
        apply Z.div_lt_upper_bound; [lia|].
        replace (Z.of_nat (S (S f))) with (Z.succ (Z.of_nat (S f))) in Hn by lia.
        rewrite Z.pow_succ_r in Hn by lia. lia. }
      destruct (IH (n / 10) (String (digit_chr (n mod 10)) acc) Hq)
        as (ds & Heq & Hne & Hall & Hval).
      assert (0 <= n mod 10 <= 9) as Hm
        by (pose proof (Z.mod_pos_bound n 10); lia).
      destruct (digit_chr_spec (n mod 10) Hm) as (Hd & Hv & _).
      exists (ds ++ String (digit_chr (n mod 10)) EmptyString).
      rewrite Heq, append_assoc. cbn [append]. repeat split.
      * destruct ds; [congruence | discriminate].
      * rewrite all_digits_append, Hall. cbn [all_digits]. now rewrite Hd.
      * intros a. rewrite digits_value_append, Hval. cbn [digits_value].
        rewrite Hv, length_append. cbn [String.length].
        replace (Z.of_nat (String.length ds + 1))
          with (Z.succ (Z.of_nat (String.length ds))) by lia.
        rewrite Z.pow_succ_r by lia.
        pose proof (Z.div_mod n 10). lia.
Qed.

Lemma format_nonneg_spec (n : Z) :
  0 <= n ->
  format_nonneg n <> EmptyString /\ all_digits (format_nonneg n) = true /\
  digits_value 0 (format_nonneg n) = n.
Proof.
  intros Hn. unfold format_nonneg.
  assert (0 <= n < 2 ^ Z.of_nat (S (Z.to_nat (Z.log2 n)))) as Hf.
  { split; [exact Hn|].
    rewrite Nat2Z.inj_succ, Z2Nat.id by apply Z.log2_nonneg.
    destruct (Z.eq_dec n 0) as [-> | Hz]; [reflexivity|].
    apply Z.log2_spec. lia. }
  destruct (digits_of_spec _ n EmptyString Hf) as (ds & Heq & Hne & Hall & Hval).
  rewrite Heq, append_empty_r. repeat split; try assumption.
  rewrite Hval. lia.
Qed.

Lemma format_int_nonneg (n : Z) : 0 <= n -> format_int n = format_nonneg n.
Proof.
  intros Hn. unfold format_int.
  destruct (n <? 0) eqn:E; [apply Z.ltb_lt in E; lia | reflexivity].
Qed.

(** ** Reading: [int()] on a run of digits *)

Lemma lstrip_digits (s : string) : all_digits s = true -> lstrip s = s.
Proof.
  destruct s as [|c s]; simpl; [reflexivity|]. intros H.
  apply andb_true_iff in H as [Hc _]. now rewrite (is_digit_not_space c Hc).
Qed.

Lemma rstrip_digits (s : string) : all_digits s = true -> rstrip s = s.
Proof.
  induction s as [|c s IH]; simpl; [reflexivity|]. intros H.
  apply andb_true_iff in H as [Hc Hs]. rewrite (IH Hs).
  destruct s; [|reflexivity]. now rewrite (is_digit_not_space c Hc).
Qed.

Lemma int_body_digits (s : string) :
  all_digits s = true ->
  forall acc, int_body acc true s = Some (digits_value acc s).
Proof.
  induction s as [|c s IH]; simpl; intros H acc; [reflexivity|].
  apply andb_true_iff in H as [Hc Hs]. rewrite Hc. now apply IH.
Qed.

(** [int()] accepts every non-empty run of digits. *)
Lemma int_of_str_digits (s : string) :
  s <> EmptyString -> all_digits s = true -> int_of_str s = Ok (digits_value 0 s).
Proof.
  intros Hne Hs. unfold int_of_str.
  rewrite (lstrip_digits s Hs), (rstrip_digits s Hs).
  destruct s as [|c s]; [congruence|].
  pose proof Hs as Hs'. simpl in Hs'. apply andb_true_iff in Hs' as [Hc Hr].
  destruct (is_digit_not_sign c Hc) as (Hm & Hp & _).
  assert (int_body 0 false (String c s) = Some (digits_value 0 (String c s))) as E.
  { simpl. rewrite Hc. now apply int_body_digits. }
  destruct c as [[] [] [] [] [] [] [] []]; try congruence; now rewrite E.
Qed.

Lemma int_of_str_format (n : Z) : 0 <= n -> int_of_str (format_int n) = Ok n.
Proof.
  intros Hn. rewrite (format_int_nonneg n Hn).
  destruct (format_nonneg_spec n Hn) as (Hne & Hall & Hval).
  now rewrite (int_of_str_digits _ Hne Hall), Hval.
Qed.

End StringFacts.

(* ================================================================== *)
(** * The regular expression and the address grammar *)
(* ================================================================== *)

Section AddressGrammar.

#[local] Arguments is_digit : simpl never.

Lemma digits1_nonempty (g : string) (T : Type) (a b : T) :
  g <> EmptyString -> match g with EmptyString => a | String _ _ => b end = b.
Proof. destruct g; [congruence | reflexivity]. Qed.

Lemma re_match_plain (g w rest : string) :
  digits1 g -> plain_command w ->
  re_match ("/ch" ++ g ++ w ++ rest) = Some (mkMatch g w None).
Proof.
  intros [Hne Hg] Hw. unfold re_match.
  rewrite strip_prefix_append.
  rewrite (span_digits_append g (w ++ rest) Hg)
    by (destruct Hw as [-> | [-> | [-> | ->]]]; reflexivity).
  rewrite (digits1_nonempty g _ _ _ Hne).
  destruct Hw as [-> | [-> | [-> | ->]]]; reflexivity.
Qed.

Lemma re_match_cc (g k rest : string) :
  digits1 g -> digits1 k -> no_leading_digit rest ->
  re_match ("/ch" ++ g ++ "cc" ++ k ++ rest)
  = Some (mkMatch g ("cc" ++ k) (Some k)).
Proof.
  intros [Hne Hg] [Hnk Hk] Hrest. unfold re_match.
  rewrite strip_prefix_append.
  rewrite (span_digits_append g ("cc" ++ k ++ rest) Hg) by reflexivity.
  rewrite (digits1_nonempty g _ _ _ Hne).
  cbn [startswith strip_prefix append Ascii.eqb Bool.eqb].
  rewrite (span_digits_append k rest Hk Hrest).
  now rewrite (digits1_nonempty k _ _ _ Hnk).
Qed.

(** Whatever follows a number command, the match succeeds. *)
Lemma re_match_cc_some (g k rest : string) :
  digits1 g -> digits1 k ->
  re_match ("/ch" ++ g ++ "cc" ++ k ++ rest) <> None.
Proof.
  intros [Hne Hg] [Hnk Hk]. unfold re_match.
  rewrite strip_prefix_append.
  rewrite (span_digits_append g ("cc" ++ k ++ rest) Hg) by reflexivity.
  rewrite (digits1_nonempty g _ _ _ Hne).
  cbn [startswith strip_prefix append Ascii.eqb Bool.eqb].
  pose proof (span_digits_nonempty k rest Hnk Hk) as Hs.
  destruct (span_digits (k ++ rest)) as [g3 r3]. simpl in Hs.
  rewrite (digits1_nonempty g3 _ _ _ Hs). discriminate.
Qed.

(** The groups of a match cut the address as the expression says. *)
Lemma re_match_inv (address : string) (m : Match) :
  re_match address = Some m ->
  digits1 (group1 m) /\ command_word (group2 m) /\
  (exists rest, address = "/ch" ++ group1 m ++ group2 m ++ rest) /\
  (group3 m = None /\ plain_command (group2 m) \/
   exists k, group3 m = Some k /\ digits1 k /\ group2 m = "cc" ++ k).
Proof.
  unfold re_match.
  destruct (strip_prefix "/ch" address) as [rest|] eqn:Ep; [|discriminate].
  apply strip_prefix_inv in Ep. subst address.
  destruct (span_digits rest) as [g1 rest1] eqn:Es.
  apply span_digits_inv in Es as (-> & Hg1 & _).
  destruct g1 as [|c g1]; [discriminate|].
  assert (digits1 (String c g1)) as D1 by (split; [discriminate | exact Hg1]).
  destruct (startswith rest1 "note") eqn:E1.
  { intros H; inversion H; subst; clear H. cbn [group1 group2 group3].
    apply startswith_inv in E1 as [r ->].
    split; [exact D1|]. split; [constructor|]. split; [now exists r|].
    left. split; [reflexivity | left; reflexivity]. }
  destruct (startswith rest1 "noff") eqn:E2.
  { intros H; inversion H; subst; clear H. cbn [group1 group2 group3].
    apply startswith_inv in E2 as [r ->].
    split; [exact D1|]. split; [constructor|]. split; [now exists r|].
    left. split; [reflexivity | right; left; reflexivity]. }
  destruct (strip_prefix "cc" rest1) as [rest2|] eqn:E3.
  { apply strip_prefix_inv in E3. subst rest1.
    destruct (span_digits rest2) as [g3 r3] eqn:Es3.
    apply span_digits_inv in Es3 as (-> & Hg3 & _).
    destruct g3 as [|c3 g3]; [discriminate|].
    assert (digits1 (String c3 g3)) as D3 by (split; [discriminate | exact Hg3]).
    intros H; inversion H; subst; clear H. cbn [group1 group2 group3].
    split; [exact D1|]. split; [now constructor|]. split.
    - exists r3. reflexivity.
    - right. exists (String c3 g3). split; [reflexivity|]. now split. }
  destruct (startswith rest1 "pressure") eqn:E4.
  { intros H; inversion H; subst; clear H. cbn [group1 group2 group3].
    apply startswith_inv in E4 as [r ->].
    split; [exact D1|]. split; [constructor|]. split; [now exists r|].
    left. split; [reflexivity | right; right; left; reflexivity]. }
  destruct (startswith rest1 "pitch") eqn:E5; [|discriminate].
  intros H; inversion H; subst; clear H. cbn [group1 group2 group3].
  apply startswith_inv in E5 as [r ->].
  split; [exact D1|]. split; [constructor|]. split; [now exists r|].
  left. split; [reflexivity | right; right; right; reflexivity].
Qed.

(** [re_match] decides the grammar: it succeeds exactly on the addresses
    of which a prefix is in the language of the expression. *)
Lemma re_match_iff_grammar (address : string) :
  re_match address <> None <-> matches_grammar address.
Proof.
  split.
  - destruct (re_match address) as [m|] eqn:E; [intros _ | congruence].
    destruct (re_match_inv address m E) as (D1 & Hw & [rest ->] & _).
    exists ("/ch" ++ group1 m ++ group2 m), rest. split.
    + exists (group1 m), (group2 m).
      split; [exact D1|]. split; [exact Hw | reflexivity].
    + now rewrite (append_assoc "/ch"), (append_assoc (group1 m)).
  - intros (s & rest & (n & w & Dn & Hw & ->) & ->).
    rewrite (append_assoc "/ch"), (append_assoc n).
    destruct Hw as [ | | k Dk | | ].
    + rewrite re_match_plain; [discriminate | exact Dn | ]. now left.
    + rewrite re_match_plain; [discriminate | exact Dn | ]. right; now left.
    + rewrite (append_assoc "cc"). now apply re_match_cc_some.
    + rewrite re_match_plain; [discriminate | exact Dn | ].
      right; right; now left.
    + rewrite re_match_plain; [discriminate | exact Dn | ].
      right; right; now right.
Qed.

End AddressGrammar.

(* ================================================================== *)
(** * The dispatcher callback *)
(* ================================================================== *)

Section Dispatcher.

Local Open Scope py_scope.

Lemma check_channel_ok (c : Z) : in_range 0 15 c -> check_channel c = Ok c.
Proof.
  unfold in_range, check_channel. intros H.
  destruct (0 <=? c) eqn:E1; destruct (c <=? 15) eqn:E2; try reflexivity; lia.
Qed.

Lemma check_data_byte_ok (v : Z) : in_range 0 127 v -> check_data_byte v = Ok v.
Proof.
  unfold in_range, check_data_byte. intros H.
  destruct (0 <=? v) eqn:E1; destruct (v <=? 127) eqn:E2; try reflexivity; lia.
Qed.

Lemma check_pitch_ok (p : Z) : in_range (-8192) 8191 p -> check_pitch p = Ok p.
Proof.
  unfold in_range, check_pitch. intros H.
  destruct (-8192 <=? p) eqn:E1; destruct (p <=? 8191) eqn:E2;
    try reflexivity; lia.
Qed.

(** The sweep leaves everything but the history as it is. *)
Lemma cleanup_fields (self : App) (t : Q) :
  paused (cleanup_sent_messages self t) = paused self /\
  midi_out (cleanup_sent_messages self t) = midi_out self /\
  log (cleanup_sent_messages self t) = log self.
Proof. repeat split. Qed.

(** The callback on an address that matches, when the flag is clear. *)
Lemma handle_osc_message_matched (self : App) (current_time now : Q)
    (address : string) (args : list OscArg) (m : Match) (n : Z) :
  re_match address = Some m -> int_of_str (group1 m) = Ok n ->
  paused self = false ->
  handle_osc_message self current_time now address args =
  let swept := cleanup_sent_messages self current_time in
  match try_block swept now address args (n - 1) (group2 m) (group3 m) with
  | Ok self' => Ok self'
  | Raise e => Ok (log_message swept (LogError address e))
  end.
Proof.
  intros Hm Hn Hp. unfold handle_osc_message. rewrite Hm.
  rewrite Hn. cbn [bind]. fold (cleanup_sent_messages self current_time).
  destruct (cleanup_fields self current_time) as (-> & _ & _).
  now rewrite Hp.
Qed.

(** The first group of a match is always a literal that [int()] reads:
    line 755, which is outside the [try], cannot raise. *)
Lemma group1_is_int (address : string) (m : Match) :
  re_match address = Some m ->
  int_of_str (group1 m) = Ok (digits_value 0 (group1 m)).
Proof.
  intros Hm. destruct (re_match_inv address m Hm) as ([Hne Hd] & _).
  now apply int_of_str_digits.
Qed.

(** When the built message is sent, the state changes in three places. *)
Lemma try_block_send (self : App) (now : Q) (address : string)
    (args : list OscArg) (channel : Z) (command : string)
    (cc_num : option string) (msg : Message) (kind : string)
    (port : list Message) :
  build_message channel command cc_num args = Ok (Send msg kind) ->
  midi_out self = Some port ->
  exists self',
    try_block self now address args channel command cc_num = Ok self' /\
    midi_out self' = Some (port ++ [msg])%list /\
    log self' = (log self ++ [LogOscToMidi msg])%list /\
    sent_messages self' =
      deque_append maxlen (sent_messages self) (mkSent address args kind now).
Proof.
  intros Hb Hport. unfold try_block. rewrite Hb. cbn [bind].
  rewrite Hport. cbn [send bind]. eexists. split; [reflexivity|].
  repeat split.
Qed.

End Dispatcher.

(* ================================================================== *)
(** * Round trip through the codec *)
(* ================================================================== *)

Section RoundTrip.

Local Open Scope py_scope.

Lemma digits1_format (n : Z) : 0 <= n -> digits1 (format_int n).
Proof.
  intros Hn. rewrite (format_int_nonneg n Hn).
  destruct (format_nonneg_spec n Hn) as (Hne & Hall & _). now split.
Qed.

Lemma decoded_image_equivalent (b : Body) (k : Kind) :
  kind_of b = Some k -> equivalent b (decoded_image b).
Proof.
  destruct b as [c n v|c n v|c j v|c v|c p|t|ty]; simpl; intros H;
    try discriminate; unfold equivalent; simpl;
    try (destruct (v =? 0)); repeat split; reflexivity.
Qed.

Ltac run_checks :=
  unfold message, new_note_on, new_note_off, new_control_change,
    new_aftertouch, new_pitchwheel;
  repeat (rewrite check_channel_ok by (unfold in_range in *; lia));
  repeat (rewrite check_data_byte_ok by (unfold in_range in *; lia));
  repeat (rewrite check_pitch_ok by (unfold in_range in *; lia));
  cbn [bind].

(** The address written for [b] is matched, its channel number is read
    back, and the message built from the groups is the image of [b]. *)
Lemma build_message_of_encoding (b : Body) (k : Kind) :
  kind_of b = Some k -> well_formed b ->
  exists c address arg label m,
    channel_of b = Some c /\
    osc_of_midi b = Some (address, arg, label) /\
    payload_of b = Some arg /\
    startswith address ("/ch" ++ format_int (c + 1)) = true /\
    re_match address = Some m /\
    int_of_str (group1 m) = Ok (c + 1) /\
    build_message (c + 1 - 1) (group2 m) (group3 m) [ArgInt arg]
    = Ok (Send (mkMessage 0 (decoded_image b)) label).
Proof.
  intros Hk Hwf.
  destruct b as [c n v|c n v|c j v|c v|c p|t|ty]; simpl in Hk;
    try discriminate; clear Hk; exists c; cbn [well_formed] in Hwf;
    assert (0 <= c + 1) as Hc1 by (unfold in_range in Hwf; lia);
    pose proof (digits1_format (c + 1) Hc1) as Dc;
    pose proof (int_of_str_format (c + 1) Hc1) as Ic;
    replace (c + 1 - 1) with c by lia;
    cbn [osc_of_midi decoded_image channel_of payload_of].
  - (* note_on *)
    destruct Hwf as (Hc & Hn & Hv).
    destruct (v >? 0) eqn:Ev.
    + assert ((v =? 0) = false) as -> by (apply Z.eqb_neq; lia).
      eexists _, _, _, (mkMatch (format_int (c + 1)) "note" None).
      repeat split; try reflexivity; try exact Ic.
      * apply (startswith_append ("/ch" ++ format_int (c + 1)) "note").
      * apply (re_match_plain _ "note" EmptyString); [exact Dc | now left].
      * cbn. run_checks. reflexivity.
    + assert (v = 0) as -> by (unfold in_range in Hv; lia).
      cbn [Z.eqb].
      eexists _, _, _, (mkMatch (format_int (c + 1)) "noff" None).
      repeat split; try reflexivity; try exact Ic.
      * apply (startswith_append ("/ch" ++ format_int (c + 1)) "noff").
      * apply (re_match_plain _ "noff" EmptyString); [exact Dc | right; now left].
      * cbn. run_checks. reflexivity.
  - (* note_off *)
    destruct Hwf as (Hc & Hn & Hv).
    eexists _, _, _, (mkMatch (format_int (c + 1)) "noff" None).
    repeat split; try reflexivity; try exact Ic.
    + apply (startswith_append ("/ch" ++ format_int (c + 1)) "noff").
    + apply (re_match_plain _ "noff" EmptyString); [exact Dc | right; now left].
    + cbn. run_checks. reflexivity.
  - (* control_change *)
    destruct Hwf as (Hc & Hj & Hv).
    assert (0 <= j) as Hj0 by (unfold in_range in Hj; lia).
    pose proof (digits1_format j Hj0) as Dj.
    pose proof (int_of_str_format j Hj0) as Ij.
    eexists _, _, _,
      (mkMatch (format_int (c + 1)) ("cc" ++ format_int j) (Some (format_int j))).
    repeat split; try reflexivity; try exact Ic.
    + apply (startswith_append ("/ch" ++ format_int (c + 1))
               ("cc" ++ format_int j)).
    + rewrite <- (append_empty_r (format_int j)) at 1.
      apply (re_match_cc _ _ EmptyString); [exact Dc | exact Dj | exact I].
    + cbn [group1 group2 group3]. unfold build_message.
      cbn [String.eqb append Ascii.eqb Bool.eqb startswith strip_prefix].
      rewrite Ij. cbn [bind item0 int]. run_checks. reflexivity.
  - (* aftertouch *)
    destruct Hwf as (Hc & Hv).
    eexists _, _, _, (mkMatch (format_int (c + 1)) "pressure" None).
    repeat split; try reflexivity; try exact Ic.
    + apply (startswith_append ("/ch" ++ format_int (c + 1)) "pressure").
    + apply (re_match_plain _ "pressure" EmptyString);
        [exact Dc | right; right; now left].
    + cbn. run_checks. reflexivity.
  - (* pitchwheel *)
    destruct Hwf as (Hc & Hp).
    eexists _, _, _, (mkMatch (format_int (c + 1)) "pitch" None).
    repeat split; try reflexivity; try exact Ic.
    + apply (startswith_append ("/ch" ++ format_int (c + 1)) "pitch").
    + apply (re_match_plain _ "pitch" EmptyString);
        [exact Dc | right; right; now right].
    + cbn. run_checks. reflexivity.
Qed.

(** C1.  For every event [b] of one of the five kinds, well formed (so
    with its channel in 0..15), the encoder produces an address that
    starts with [/ch{channel+1}] and one argument, the payload of [b];
    the dispatcher callback, run on that message with the pause flag
    clear and the MIDI output open, sends exactly one event [d] which is
    equivalent to [b]: same kind (a note-on of velocity zero counting as
    a note-off), same 0-based channel, same note, value or pitch, same
    controller number.  The velocity is not transported: [d] carries 100
    for a note-on and 0 for a note-off, see [decoded_image]. *)
Theorem decode_encode_roundtrip (b : Body) (k : Kind) :
  kind_of b = Some k -> well_formed b ->
  exists c address arg label d,
    channel_of b = Some c /\
    osc_of_midi b = Some (address, arg, label) /\
    payload_of b = Some arg /\
    startswith address ("/ch" ++ format_int (c + 1)) = true /\
    d = decoded_image b /\ equivalent b d /\ channel_of d = Some c /\
    forall self current_time now port,
      paused self = false -> midi_out self = Some port ->
      exists self',
        handle_osc_message self current_time now address [ArgInt arg]
        = Ok self' /\
        midi_out self' = Some (port ++ [mkMessage 0 d])%list.
Proof.
  intros Hk Hwf.
  destruct (build_message_of_encoding b k Hk Hwf)
    as (c & address & arg & label & m & Hc & He & Hp & Hs & Hm & Hi & Hb).
  pose proof (decoded_image_equivalent b k Hk) as Heq.
  exists c, address, arg, label, (decoded_image b).
  repeat (split; [assumption || reflexivity|]).
  split.
  { destruct Heq as (_ & Hch & _). now rewrite <- Hch. }
  intros self current_time now port Hpause Hport.
  rewrite (handle_osc_message_matched self current_time now address
             [ArgInt arg] m (c + 1) Hm Hi Hpause).
  cbv zeta.
  destruct (try_block_send (cleanup_sent_messages self current_time) now
              address [ArgInt arg] (c + 1 - 1) (group2 m) (group3 m)
              (mkMessage 0 (decoded_image b)) label port Hb Hport)
    as (self' & Ht & Hout & _).
  rewrite Ht. now exists self'.
Qed.

(** The round trip on middle C played on the first channel. *)
Lemma decode_encode_roundtrip_witness :
  exists c address arg label d,
    channel_of (note_on 0 60 64) = Some c /\
    osc_of_midi (note_on 0 60 64) = Some (address, arg, label) /\
    payload_of (note_on 0 60 64) = Some arg /\
    startswith address ("/ch" ++ format_int (c + 1)) = true /\
    d = decoded_image (note_on 0 60 64) /\
    equivalent (note_on 0 60 64) d /\ channel_of d = Some c /\
    forall self current_time now port,
      paused self = false -> midi_out self = Some port ->
      exists self',
        handle_osc_message self current_time now address [ArgInt arg]
        = Ok self' /\
        midi_out self' = Some (port ++ [mkMessage 0 d])%list.
Proof.
  apply (decode_encode_roundtrip (note_on 0 60 64) NoteOn).
  - reflexivity.
  - unfold well_formed, in_range. lia.
Defined.

End RoundTrip.

(* ================================================================== *)
(** * What the callback does with a message *)
(* ================================================================== *)

Section Callback.

Local Open Scope py_scope.

(** The callback always returns, and its result has this shape. *)
Lemma handle_osc_message_cases (self : App) (current_time now : Q)
    (address : string) (args : list OscArg) :
  let swept := cleanup_sent_messages self current_time in
  handle_osc_message self current_time now address args =
  Ok match re_match address with
     | None => log_message swept (LogInvalidAddress address)
     | Some m =>
         if paused self then swept
         else
           match try_block swept now address args
                   (digits_value 0 (group1 m) - 1) (group2 m) (group3 m) with
           | Ok self' => self'
           | Raise e => log_message swept (LogError address e)
           end
     end.
Proof.
  cbv zeta. unfold handle_osc_message.
  destruct (re_match address) as [m|] eqn:Hm; [|reflexivity].
  rewrite (group1_is_int address m Hm). cbn [bind].
  fold (cleanup_sent_messages self current_time).
  destruct (cleanup_fields self current_time) as (-> & _ & _).
  destruct (paused self); [reflexivity|].
  now destruct (try_block _ _ _ _ _ _ _).
Qed.

(** The message built for the command [note]. *)
Lemma build_message_note (channel : Z) (cc_num : option string)
    (args : list OscArg) (d : Decoded) :
  build_message channel "note" cc_num args = Ok d ->
  exists a rest note,
    args = a :: rest /\ int a = Ok note /\
    d = Send (mkMessage 0 (note_on channel note 100)) "note_on".
Proof.
  unfold build_message. cbn [String.eqb Ascii.eqb Bool.eqb].
  destruct args as [|a rest]; [discriminate|]. cbn [item0 bind].
  destruct (int a) as [note|e] eqn:Ea; [|discriminate]. cbn [bind].
  unfold message, new_note_on, check_channel, check_data_byte.
  destruct ((0 <=? channel) && (channel <=? 15)); [|discriminate]. cbn [bind].
  destruct ((0 <=? note) && (note <=? 127)); [|discriminate]. cbn.
  intros H; inversion H. now exists a, rest, note.
Qed.

(** The message built for the command [noff]. *)
Lemma build_message_noff (channel : Z) (cc_num : option string)
    (args : list OscArg) (d : Decoded) :
  build_message channel "noff" cc_num args = Ok d ->
  exists a rest note,
    args = a :: rest /\ int a = Ok note /\
    d = Send (mkMessage 0 (note_off channel note 0)) "note_off".
Proof.
  unfold build_message. cbn [String.eqb Ascii.eqb Bool.eqb].
  destruct args as [|a rest]; [discriminate|]. cbn [item0 bind].
  destruct (int a) as [note|e] eqn:Ea; [|discriminate]. cbn [bind].
  unfold message, new_note_off, check_channel, check_data_byte.
  destruct ((0 <=? channel) && (channel <=? 15)); [|discriminate]. cbn [bind].
  destruct ((0 <=? note) && (note <=? 127)); [|discriminate]. cbn.
  intros H; inversion H. now exists a, rest, note.
Qed.

(** What [try_block] does to the MIDI output: nothing, or one message,
    the one that was built. *)
Lemma try_block_midi_out (self self' : App) (now : Q) (address : string)
    (args : list OscArg) (channel : Z) (command : string)
    (cc_num : option string) :
  try_block self now address args channel command cc_num = Ok self' ->
  midi_out self' = midi_out self \/
  exists port msg kind,
    build_message channel command cc_num args = Ok (Send msg kind) /\
    midi_out self = Some port /\
    midi_out self' = Some (port ++ [msg])%list.
Proof.
  unfold try_block.
  destruct (build_message channel command cc_num args) as [[msg kind| |]|e];
    cbn [bind]; try discriminate.
  - destruct (midi_out self) as [port|] eqn:Hp; cbn [send bind];
      [|discriminate].
    intros H; inversion H. right. now exists port, msg, kind.
  - intros H; inversion H. now left.
  - intros H; inversion H. now left.
Qed.

(** C10.  When the callback, run on an address whose command is
    [note], sends something to the MIDI output, what it sends is a
    [note_on] whose velocity is 100 whatever the arguments are: the first
    argument gives the note number only.  On the command [noff] it is a
    [note_off] of velocity 0. *)
Theorem note_velocity_is_constant (self self' : App) (current_time now : Q)
    (address : string) (args : list OscArg) (m : Match) :
  re_match address = Some m ->
  handle_osc_message self current_time now address args = Ok self' ->
  midi_out self' <> midi_out self ->
  (group2 m = "note" ->
   exists port a rest note,
     midi_out self = Some port /\ args = a :: rest /\ int a = Ok note /\
     midi_out self' =
       Some (port ++ [mkMessage 0
                        (note_on (digits_value 0 (group1 m) - 1) note 100)])%list)
  /\
  (group2 m = "noff" ->
   exists port a rest note,
     midi_out self = Some port /\ args = a :: rest /\ int a = Ok note /\
     midi_out self' =
       Some (port ++ [mkMessage 0
                        (note_off (digits_value 0 (group1 m) - 1) note 0)])%list).
Proof.
  intros Hm Hh Hsent.
  rewrite handle_osc_message_cases in Hh. cbv zeta in Hh. rewrite Hm in Hh.
  inversion Hh as [Hs]; clear Hh.
  destruct (paused self).
  { subst self'. now elim Hsent. }
  destruct (try_block _ _ _ _ _ _ _) as [s|e] eqn:Ht.
  2:{ subst self'. now elim Hsent. }
  subst s.
  apply try_block_midi_out in Ht as [Hsame | (port & msg & kind & Hb & Hp & Hout)].
  { elim Hsent. exact Hsame. }
  cbn in Hp.
  split; intros Hcmd; rewrite Hcmd in Hb.
  - apply build_message_note in Hb as (a & rest & note & Ha & Hi & Hd).
    inversion Hd; subst msg kind. now exists port, a, rest, note.
  - apply build_message_noff in Hb as (a & rest & note & Ha & Hi & Hd).
    inversion Hd; subst msg kind. now exists port, a, rest, note.
Qed.

(** A note message on channel 1 whose argument is 60. *)
Lemma note_velocity_is_constant_witness :
  exists port a rest note,
    midi_out (set_midi_out init (Some [])) = Some port /\
    [ArgInt 60] = a :: rest /\ int a = Ok note /\
    Some [mkMessage 0 (note_on 0 60 100)] =
      Some (port ++ [mkMessage 0 (note_on (digits_value 0 "1" - 1) note 100)])%list.
Proof.
  refine (proj1 (note_velocity_is_constant (set_midi_out init (Some []))
            (append_sent
               (log_message
                  (set_midi_out init (Some [mkMessage 0 (note_on 0 60 100)]))
                  (LogOscToMidi (mkMessage 0 (note_on 0 60 100))))
               (mkSent "/ch1note" [ArgInt 60] "note_on" 0))
            0 0 "/ch1note" [ArgInt 60] (mkMatch "1" "note" None)
            _ _ _) _).
  - reflexivity.
  - reflexivity.
  - discriminate.
  - reflexivity.
Defined.

(** C4.  When the pause flag is set, the callback, run on an address
    that matches the grammar, returns at the pause check: it ends in the
    state left by the sweep of its first lines.  Nothing went to the MIDI
    output, no record was appended, nothing was logged, and no other
    attribute changed, so nothing is kept to be delivered later. *)
Theorem paused_message_is_dropped (self : App) (current_time now : Q)
    (address : string) (args : list OscArg) :
  paused self = true -> matches_grammar address ->
  handle_osc_message self current_time now address args
  = Ok (cleanup_sent_messages self current_time) /\
  midi_out (cleanup_sent_messages self current_time) = midi_out self /\
  sent_messages (cleanup_sent_messages self current_time)
  = prune current_time (sent_messages self) /\
  log (cleanup_sent_messages self current_time) = log self.
Proof.
  intros Hp Hg. split; [|repeat split].
  rewrite handle_osc_message_cases. cbv zeta.
  apply re_match_iff_grammar in Hg.
  destruct (re_match address) as [m|]; [|congruence].
  now rewrite Hp.
Qed.

(** A note arriving while playback is paused. *)
Lemma paused_message_is_dropped_witness :
  handle_osc_message (set_paused (set_midi_out init (Some [])) true) 0 0
    "/ch1note" [ArgInt 60]
  = Ok (cleanup_sent_messages
          (set_paused (set_midi_out init (Some [])) true) 0) /\
  midi_out (cleanup_sent_messages
              (set_paused (set_midi_out init (Some [])) true) 0) = Some [].
Proof.
  destruct (paused_message_is_dropped
              (set_paused (set_midi_out init (Some [])) true) 0 0
              "/ch1note" [ArgInt 60]) as (H1 & H2 & _).
  - reflexivity.
  - apply re_match_iff_grammar. discriminate.
  - split; [exact H1 | exact H2].
Defined.

(** C6.  The history is not consulted.  Run on the same message from two
    states that differ only in the records of the history, the callback
    returns in both, with the same MIDI output and the same log, and the
    two final states again differ only in the history. *)
Theorem history_is_passive (s1 s2 : App) (current_time now : Q)
    (address : string) (args : list OscArg) :
  same_but_history s1 s2 ->
  exists r1 r2,
    handle_osc_message s1 current_time now address args = Ok r1 /\
    handle_osc_message s2 current_time now address args = Ok r2 /\
    midi_out r1 = midi_out r2 /\ log r1 = log r2 /\
    same_but_history r1 r2.
Proof.
  unfold same_but_history. intros H.
  rewrite !handle_osc_message_cases. cbv zeta.
  do 2 eexists. split; [reflexivity|]. split; [reflexivity|].
  rewrite H. destruct s1 as [pl lo te us pa rs mp ix sm oc mo sl th lg].
  generalize (sent_messages s2) as h. intros h. clear H s2.
  destruct (re_match address) as [m|]; [|repeat split].
  cbn [paused set_sent_messages cleanup_sent_messages playing looping tempo
       tempo_microseconds_per_beat request_stop midi_playlist
       current_playlist_index sent_messages osc_client midi_out tempo_slider
       thread_alive log].
  destruct pa; [repeat split|].
  unfold try_block.
  destruct (build_message _ _ _ _) as [[msg kind| |]|e]; cbn [bind];
    try (repeat split; fail).
  cbn [midi_out]. destruct mo as [port|]; cbn [send bind]; repeat split.
Qed.

(** The same note handled with an empty history and with one record. *)
Lemma history_is_passive_witness :
  exists r1 r2,
    handle_osc_message (set_midi_out init (Some [])) 0 0
      "/ch1note" [ArgInt 60] = Ok r1 /\
    handle_osc_message
      (set_sent_messages (set_midi_out init (Some []))
         [mkSent "/ch1note" [ArgInt 60] "note_on" 0]) 0 0
      "/ch1note" [ArgInt 60] = Ok r2 /\
    midi_out r1 = midi_out r2 /\ log r1 = log r2 /\
    same_but_history r1 r2.
Proof.
  apply (history_is_passive (set_midi_out init (Some []))
           (set_sent_messages (set_midi_out init (Some []))
              [mkSent "/ch1note" [ArgInt 60] "note_on" 0])).
  reflexivity.
Defined.

(** ** Malformed messages *)

(** With no argument, or a first argument that [int()] rejects, no
    message is built, whatever the command. *)
Lemma build_message_bad_args (channel : Z) (address : string) (m : Match)
    (args : list OscArg) :
  re_match address = Some m ->
  args = [] \/ (exists a rest e, args = a :: rest /\ int a = Raise e) ->
  exists e, build_message channel (group2 m) (group3 m) args = Raise e.
Proof.
  intros Hm Hargs.
  destruct (re_match_inv address m Hm) as (_ & _ & _ & Hcmd).
  assert (exists e, (a <- item0 args ;; int a) = Raise e) as [e He].
  { destruct Hargs as [-> | (a & rest & e & -> & Ha)].
    - now exists IndexError.
    - exists e. cbn [item0 bind]. exact Ha. }
  assert (forall (k : Z -> result Decoded),
             (a <- item0 args ;; v <- int a ;; k v) = Raise e) as Hk.
  { intros k. destruct args as [|a rest]; cbn [item0 bind] in *.
    - now inversion He.
    - now rewrite He. }
  destruct Hcmd as [[_ Hplain] | (k & H3 & [Hne Hd] & H2)].
  - exists e.
    destruct Hplain as [-> | [-> | [-> | ->]]]; unfold build_message;
      cbn [String.eqb Ascii.eqb Bool.eqb startswith strip_prefix]; apply Hk.
  - exists e. rewrite H2, H3. unfold build_message.
    cbn [String.eqb append Ascii.eqb Bool.eqb startswith strip_prefix].
    rewrite (int_of_str_digits k Hne Hd). cbn [bind]. apply Hk.
Qed.

(** C5, as the code has it.  On an address that does not match the
    grammar the callback logs the address as invalid and drops the
    message.  On an address whose channel number is not longer than
    [int()] accepts (the conversion of line 755 is made before the [try])
    the callback returns: no exception reaches the caller; and when such
    an address matches, with the pause flag clear, an empty argument
    list or a first argument that [int()] rejects makes it log the error
    and drop the message.  (Arguments after the first are not looked at,
    and a first argument that [int()] accepts is converted; such messages
    are not dropped for their shape.) *)
Theorem malformed_message_is_recoverable (self : App) (current_time now : Q)
    (address : string) (args : list OscArg) :
  (channel_within_limit address ->
   exists self',
     handle_osc_message self current_time now address args = Ok self') /\
  (~ matches_grammar address ->
   let self' :=
     log_message (cleanup_sent_messages self current_time)
       (LogInvalidAddress address) in
   handle_osc_message self current_time now address args = Ok self' /\
   logged_drop self current_time self') /\
  (matches_grammar address -> channel_within_limit address ->
   paused self = false ->
   args = [] \/ (exists a rest e, args = a :: rest /\ int a = Raise e) ->
   exists e,
     let self' :=
       log_message (cleanup_sent_messages self current_time)
         (LogError address e) in
     handle_osc_message self current_time now address args = Ok self' /\
     logged_drop self current_time self').
Proof.
  rewrite handle_osc_message_cases. cbv zeta.
  split; [intros _; eexists; reflexivity|]. split.
  - intros Hg. rewrite <- re_match_iff_grammar in Hg.
    destruct (re_match address) as [m|] eqn:Hm; [elim Hg; discriminate|].
    split; [reflexivity|]. split; [split; reflexivity|].
    eexists; reflexivity.
  - intros Hg _ Hp Hargs. rewrite <- re_match_iff_grammar in Hg.
    destruct (re_match address) as [m|] eqn:Hm; [|congruence].
    destruct (build_message_bad_args (digits_value 0 (group1 m) - 1)
                address m args Hm Hargs) as [e He].
    exists e. rewrite Hp. unfold try_block. rewrite He. cbn [bind].
    split; [reflexivity|]. split; [split; reflexivity|].
    eexists; reflexivity.
Qed.

(** An address outside the grammar, and a note without argument. *)
Lemma malformed_message_is_recoverable_witness :
  (handle_osc_message init 0 0 "/volume" [ArgInt 3]
   = Ok (log_message (cleanup_sent_messages init 0)
           (LogInvalidAddress "/volume"))) /\
  (exists self', handle_osc_message init 0 0 "/ch1note" [] = Ok self') /\
  (exists e,
     handle_osc_message init 0 0 "/ch1note" []
     = Ok (log_message (cleanup_sent_messages init 0)
             (LogError "/ch1note" e))).
Proof.
  assert (channel_within_limit "/ch1note") as Hlimit.
  { intros m Hm. injection Hm as <-. cbn. unfold int_max_str_digits. lia. }
  split; [|split].
  - destruct (malformed_message_is_recoverable init 0 0 "/volume" [ArgInt 3])
      as (_ & H & _).
    apply H. rewrite <- re_match_iff_grammar. intros Hm. now apply Hm.
  - destruct (malformed_message_is_recoverable init 0 0 "/ch1note" [])
      as (H & _ & _).
    exact (H Hlimit).
  - destruct (malformed_message_is_recoverable init 0 0 "/ch1note" [])
      as (_ & _ & H).
    destruct H as [e [He _]].
    + apply re_match_iff_grammar. discriminate.
    + exact Hlimit.
    + reflexivity.
    + now left.
    + now exists e.
Defined.

(** C5, as stated, fails.  A note message with two arguments, and one
    whose argument is the string ["60"], match the grammar and do not
    carry exactly one integer argument; neither is dropped: each puts a
    note-on on the MIDI output. *)
Lemma malformed_message_is_delivered :
  let self := set_midi_out init (Some []) in
  matches_grammar "/ch1note" /\
  (~ one_integer_argument [ArgInt 60; ArgInt 70] /\
   exists self',
     handle_osc_message self 0 0 "/ch1note" [ArgInt 60; ArgInt 70]
     = Ok self' /\
     midi_out self' = Some [mkMessage 0 (note_on 0 60 100)] /\
     ~ logged_drop self 0 self') /\
  (~ one_integer_argument [ArgStr "60"] /\
   exists self',
     handle_osc_message self 0 0 "/ch1note" [ArgStr "60"] = Ok self' /\
     midi_out self' = Some [mkMessage 0 (note_on 0 60 100)] /\
     ~ logged_drop self 0 self').
Proof.
  cbv zeta. split; [apply re_match_iff_grammar; discriminate|].
  split; (split; [intros [z Hz]; discriminate|]);
    eexists; (split; [reflexivity|]); (split; [reflexivity|]);
    intros [[Hout _] _]; discriminate.
Qed.

End Callback.

(* ================================================================== *)
(** * The history buffer *)
(* ================================================================== *)

Section History.

Local Open Scope py_scope.

Lemma fresh_iff (t : Q) (r : SentRecord) : too_old t r = false <-> fresh t r.
Proof.
  unfold too_old, fresh. rewrite negb_false_iff. apply Qle_bool_iff.
Qed.

(** ** The deque *)

Lemma deque_append_length {A : Type} (n : nat) (d : list A) (x : A) :
  (List.length (deque_append n d x) <= n)%nat.
Proof.
  unfold deque_append. rewrite length_skipn. lia.
Qed.

Lemma deque_append_suffix {A : Type} (n : nat) (d : list A) (x : A) :
  exists k, deque_append n d x = skipn k (d ++ [x])%list.
Proof. unfold deque_append. eexists; reflexivity. Qed.

Lemma Forall_skipn {A : Type} (P : A -> Prop) (k : nat) (l : list A) :
  Forall P l -> Forall P (skipn k l).
Proof.
  revert l; induction k as [|k IH]; intros l H; [exact H|].
  destruct l as [|x l]; [exact H|]. simpl. apply IH. now inversion H.
Qed.

Lemma StronglySorted_skipn {A : Type} (R : A -> A -> Prop) (k : nat)
    (l : list A) :
  StronglySorted R l -> StronglySorted R (skipn k l).
Proof.
  revert l; induction k as [|k IH]; intros l H; [exact H|].
  destruct l as [|x l]; [exact H|]. simpl. apply IH. now inversion H.
Qed.

Lemma StronglySorted_snoc {A : Type} (R : A -> A -> Prop) (l : list A) (x : A) :
  StronglySorted R l -> Forall (fun a => R a x) l ->
  StronglySorted R (l ++ [x])%list.
Proof.
  induction l as [|a l IH]; intros Hs Hx; simpl.
  - constructor; constructor.
  - inversion Hs; subst. inversion Hx; subst. constructor.
    + now apply IH.
    + apply Forall_app. split; [assumption | now constructor].
Qed.

(** ** The invariant *)

Lemma buffer_ok_mono (last last' : Q) (h : list SentRecord) :
  (last <= last')%Q -> buffer_ok last h -> buffer_ok last' h.
Proof.
  intros Hle (Hlen & Hs & Hf). repeat split; try assumption.
  eapply Forall_impl; [|exact Hf]. cbv beta. intros r Hr. lra.
Qed.

Lemma prune_suffix (t : Q) (h : list SentRecord) :
  exists k, prune t h = skipn k h.
Proof.
  induction h as [|r h [k IH]]; simpl.
  - now exists O.
  - destruct (too_old t r).
    + now exists (S k).
    + now exists O.
Qed.

Lemma buffer_ok_skipn (last : Q) (k : nat) (h : list SentRecord) :
  buffer_ok last h -> buffer_ok last (skipn k h).
Proof.
  intros (Hlen & Hs & Hf). repeat split.
  - rewrite length_skipn. lia.
  - now apply StronglySorted_skipn.
  - now apply Forall_skipn.
Qed.

Lemma buffer_ok_prune (last t : Q) (h : list SentRecord) :
  buffer_ok last h -> buffer_ok last (prune t h).
Proof.
  intros H. destruct (prune_suffix t h) as [k ->]. now apply buffer_ok_skipn.
Qed.

Lemma buffer_ok_append (last : Q) (h : list SentRecord) (r : SentRecord) :
  buffer_ok last h -> (last <= sent_time r)%Q ->
  buffer_ok (sent_time r) (deque_append maxlen h r).
Proof.
  intros (Hlen & Hs & Hf) Hle. repeat split.
  - apply deque_append_length.
  - unfold deque_append. apply StronglySorted_skipn.
    apply StronglySorted_snoc; [exact Hs|].
    eapply Forall_impl; [|exact Hf]. cbv beta. unfold time_le.
    intros a Ha. lra.
  - unfold deque_append. apply Forall_skipn. apply Forall_app. split.
    + eapply Forall_impl; [|exact Hf]. cbv beta. intros a Ha. lra.
    + constructor; [lra | constructor].
Qed.

(** ** The sweep *)

(** On a buffer in the order of its time stamps, the sweep leaves only
    fresh records. *)
Lemma prune_fresh (t : Q) (h : list SentRecord) :
  StronglySorted time_le h -> Forall (fresh t) (prune t h).
Proof.
  induction h as [|r h IH]; intros Hs; simpl; [constructor|].
  inversion Hs as [|? ? Hs' Hall]; subst.
  destruct (too_old t r) eqn:E; [now apply IH|].
  apply fresh_iff in E. constructor; [exact E|].
  eapply Forall_impl; [|exact Hall]. cbv beta. unfold time_le, fresh in *.
  intros a Ha. lra.
Qed.

(** ** What each operation does to the buffer *)

Ltac case_all :=
  repeat match goal with
         | |- context [match ?x with _ => _ end] => destruct x eqn:?
         | |- context [if ?x then _ else _] => destruct x eqn:?
         end.

Lemma forward_buffer (self self' : App) (now : Q) (msg : Message) :
  run_midi_input_step self now msg = Ok self' \/
  play_event self now msg = Ok self' ->
  sent_messages self' = sent_messages self \/
  exists r, sent_time r = now /\
            sent_messages self' = deque_append maxlen (sent_messages self) r.
Proof.
  unfold run_midi_input_step, play_event, send_message.
  destruct (osc_of_midi (body msg)) as [[[address arg] kind]|];
    [|intros [H|H]; inversion H; now left].
  destruct (osc_client self) as [sent|]; cbn [bind];
    [|intros [H|H]; discriminate].
  intros [H|H]; inversion H; right; eexists; (split; [|reflexivity]);
    reflexivity.
Qed.

Lemma handle_buffer (self self' : App) (t now : Q) (address : string)
    (args : list OscArg) :
  handle_osc_message self t now address args = Ok self' ->
  sent_messages self' = prune t (sent_messages self) \/
  exists r, sent_time r = now /\
            sent_messages self' =
              deque_append maxlen (prune t (sent_messages self)) r.
Proof.
  rewrite handle_osc_message_cases. cbv zeta. intros H; injection H as <-.
  destruct (re_match address) as [m|]; [|now left].
  destruct (paused self); [now left|].
  unfold try_block.
  destruct (build_message _ _ _ _) as [[msg kind| |]|e]; cbn [bind];
    try (now left).
  destruct (send _ _) as [port|e]; cbn [bind]; [|now left].
  right. eexists; (split; [|reflexivity]); reflexivity.
Qed.

(** The operations that neither read the clock nor touch the buffer. *)
Lemma quiet_step (self : App) (o : Op) :
  readings o = [] -> sent_messages (step self o) = sent_messages self.
Proof.
  destruct o; cbn [readings]; try discriminate; intros _; cbn [step].
  - unfold start_server. cbn. now destruct (midi_out self).
  - reflexivity.
  - unfold toggle_pause. cbn. now destruct (negb (paused self)).
  - reflexivity.
  - unfold play. destruct (midi_playlist self); [reflexivity|].
    now destruct (negb (playing self)).
  - unfold stop. now destruct (playing self).
  - now destruct (thread_alive self).
  - now destruct (thread_alive self).
  - unfold skip_forward, play, join_thread, player_thread_exit,
      play_playlist_epilogue.
    destruct self; cbn. case_all; reflexivity.
  - unfold skip_back, play, join_thread, player_thread_exit,
      play_playlist_epilogue.
    destruct self; cbn. case_all; reflexivity.
  - unfold slider_setValue, update_tempo_display, change_tempo.
    cbn. case_all; reflexivity.
  - unfold reset_tempo, slider_setValue, update_tempo_display, change_tempo.
    cbn. case_all; reflexivity.
Qed.

Lemma step_buffer_ok (last : Q) (self : App) (o : Op) :
  buffer_ok last (sent_messages self) ->
  nondecreasing last (readings o) ->
  buffer_ok (last_of last (readings o)) (sent_messages (step self o)).
Proof.
  intros Hok Hclock.
  destruct (readings o) as [|t l] eqn:Er.
  { rewrite (quiet_step self o Er). exact Hok. }
  destruct o; cbn [readings] in Er; try discriminate;
    inversion Er; subst t l; clear Er; cbn [step last_of List.last];
    cbn [nondecreasing] in Hclock.
  - (* MidiIn *)
    destruct Hclock as [Hle _].
    destruct (run_midi_input_step self now msg) as [self'|e] eqn:E;
      cbn [or_unchanged]; [|now apply (buffer_ok_mono last)].
    destruct (forward_buffer self self' now msg (or_introl E))
      as [-> | (r & <- & ->)].
    + now apply (buffer_ok_mono last).
    + now apply (buffer_ok_append last).
  - (* PlayEvent *)
    destruct Hclock as [Hle _].
    destruct (play_event self now msg) as [self'|e] eqn:E;
      [|now apply (buffer_ok_mono last)].
    destruct (forward_buffer self self' now msg (or_intror E))
      as [-> | (r & <- & ->)].
    + now apply (buffer_ok_mono last).
    + now apply (buffer_ok_append last).
  - (* TestNote *)
    destruct Hclock as [Hle _]. unfold send_test_note.
    destruct (osc_client self); [|now apply (buffer_ok_mono last)].
    now apply (buffer_ok_append last _ (mkSent _ _ _ now)).
  - (* Cleanup *)
    destruct Hclock as [Hle _]. cbn.
    apply (buffer_ok_mono last); [exact Hle|]. now apply buffer_ok_prune.
  - (* OscIn *)
    destruct Hclock as (Hle1 & Hle2 & _).
    destruct (handle_osc_message self current_time now address args)
      as [self'|e] eqn:E; cbn [or_unchanged].
    2:{ apply (buffer_ok_mono last); [lra | exact Hok]. }
    destruct (handle_buffer self self' current_time now address args E)
      as [-> | (r & <- & ->)].
    + apply (buffer_ok_mono last); [lra|]. now apply buffer_ok_prune.
    + apply (buffer_ok_append last); [now apply buffer_ok_prune | lra].
Qed.

Lemma last_cons_default {A : Type} (a : A) (l : list A) (d d' : A) :
  List.last (a :: l) d = List.last (a :: l) d'.
Proof.
  revert a; induction l as [|b l IH]; intros a; [reflexivity|].
  change (List.last (b :: l) d = List.last (b :: l) d'). apply IH.
Qed.

Lemma nondecreasing_app (last : Q) (l1 l2 : list Q) :
  nondecreasing last (l1 ++ l2)%list ->
  nondecreasing last l1 /\ nondecreasing (last_of last l1) l2.
Proof.
  revert last; induction l1 as [|t l1 IH]; intros last H; simpl in *.
  - now split.
  - destruct H as [Hle H]. destruct (IH t H) as [H1 H2].
    split; [now split|].
    unfold last_of in *. destruct l1 as [|q l1]; [exact H2|].
    change (List.last (t :: q :: l1) last) with (List.last (q :: l1) last).
    now rewrite (last_cons_default q l1 last t).
Qed.

(** The invariant along a run whose clock never goes back. *)
Lemma run_buffer_ok (ops : list Op) :
  forall last self,
    buffer_ok last (sent_messages self) ->
    nondecreasing last (flat_map readings ops) ->
    exists last', buffer_ok last' (sent_messages (run self ops)).
Proof.
  induction ops as [|o ops IH]; intros last self Hok Hclock.
  - now exists last.
  - cbn [flat_map] in Hclock.
    apply nondecreasing_app in Hclock as [H1 H2].
    apply (IH (last_of last (readings o)) (step self o)); [|exact H2].
    now apply step_buffer_ok.
Qed.

Lemma reachable_buffer_ok (ops : list Op) :
  clock_ok ops -> exists last, buffer_ok last (sent_messages (run init ops)).
Proof.
  unfold clock_ok. intros H.
  destruct (flat_map readings ops) as [|t l] eqn:E.
  - apply (run_buffer_ok ops 0 init).
    + repeat split; cbn; [lia | constructor | constructor].
    + now rewrite E.
  - apply (run_buffer_ok ops t init).
    + repeat split; cbn; [lia | constructor | constructor].
    + rewrite E. split; [lra | exact H].
Qed.

(** The bound of the deque needs nothing of the clock. *)
Lemma step_length (self : App) (o : Op) :
  (List.length (sent_messages self) <= maxlen)%nat ->
  (List.length (sent_messages (step self o)) <= maxlen)%nat.
Proof.
  intros Hlen.
  assert (forall t, (List.length (prune t (sent_messages self)) <= maxlen)%nat)
    as Hprune.
  { intros t. destruct (prune_suffix t (sent_messages self)) as [k ->].
    rewrite length_skipn. lia. }
  destruct (readings o) as [|t l] eqn:Er.
  { now rewrite (quiet_step self o Er). }
  destruct o; cbn [readings] in Er; try discriminate; cbn [step].
  - destruct (run_midi_input_step self now msg) as [self'|e] eqn:E;
      cbn [or_unchanged]; [|exact Hlen].
    destruct (forward_buffer self self' now msg (or_introl E))
      as [-> | (r & _ & ->)]; [exact Hlen | apply deque_append_length].
  - destruct (play_event self now msg) as [self'|e] eqn:E; [|exact Hlen].
    destruct (forward_buffer self self' now msg (or_intror E))
      as [-> | (r & _ & ->)]; [exact Hlen | apply deque_append_length].
  - unfold send_test_note.
    destruct (osc_client self); [apply deque_append_length | exact Hlen].
  - apply Hprune.
  - destruct (handle_osc_message self current_time now address args)
      as [self'|e] eqn:E; cbn [or_unchanged]; [|exact Hlen].
    destruct (handle_buffer self self' current_time now address args E)
      as [-> | (r & _ & ->)]; [apply Hprune | apply deque_append_length].
Qed.

Lemma run_length (ops : list Op) :
  forall self,
    (List.length (sent_messages self) <= maxlen)%nat ->
    (List.length (sent_messages (run self ops)) <= maxlen)%nat.
Proof.
  induction ops as [|o ops IH]; intros self H; [exact H|].
  apply (IH (step self o)). now apply step_length.
Qed.

(** What does hold of the buffer.  Along every run of the operations
    from the initial state the history never holds more than 100
    records.  The sweep removes records from the head of the buffer and
    stops at the first that is fresh; so when the time stamps were read
    from the clock in the order of the operations, no reading smaller
    than one before it, a sweep made at time [t] in any state so
    reached, be it the periodic one or the one the dispatcher callback
    makes on entry, leaves only records that are not more than 100 ms
    older than [t]; the callback then returns with that swept buffer, or
    with that buffer and the record of the message it just sent, which
    is fresh as well when the clock did not go back in between. *)
Theorem history_buffer_invariant (ops : list Op) :
  let self := run init ops in
  (List.length (sent_messages self) <= 100)%nat /\
  (clock_ok ops ->
   (forall t,
      Forall (fresh t) (sent_messages (cleanup_sent_messages self t))) /\
   (forall t now address args self',
      handle_osc_message self t now address args = Ok self' ->
      Forall (fresh t) (prune t (sent_messages self)) /\
      (sent_messages self' = prune t (sent_messages self) \/
       exists r, sent_time r = now /\
                 sent_messages self' =
                   deque_append maxlen (prune t (sent_messages self)) r) /\
      ((t <= now)%Q -> Forall (fresh t) (sent_messages self')))).
Proof.
  cbv zeta. split.
  { apply run_length. cbn. lia. }
  intros Hclock.
  destruct (reachable_buffer_ok ops Hclock) as (last & _ & Hsorted & _).
  split.
  - intros t. cbn. now apply prune_fresh.
  - intros t now address args self' E.
    pose proof (prune_fresh t _ Hsorted) as Hfresh.
    split; [exact Hfresh|].
    pose proof (handle_buffer _ _ _ _ _ _ E) as Hb.
    split; [exact Hb|]. intros Hle.
    destruct Hb as [-> | (r & Hr & ->)]; [exact Hfresh|].
    unfold deque_append. apply Forall_skipn. apply Forall_app.
    split; [exact Hfresh|]. constructor; [|constructor].
    unfold fresh. rewrite Hr. lra.
Qed.

(** The run of the specification's example: three notes forwarded at
    0 s, 0.05 s and 0.12 s, then a sweep at 0.15 s. *)
Lemma history_buffer_invariant_witness :
  let ops :=
    [StartServer;
     MidiIn 0 (mkMessage 0 (note_on 0 60 100));
     MidiIn (1 # 20) (mkMessage 0 (note_on 0 62 100));
     MidiIn (3 # 25) (mkMessage 0 (note_on 0 64 100));
     Cleanup (3 # 20)] in
  (List.length (sent_messages (run init ops)) <= 100)%nat /\
  Forall (fresh (3 # 20)) (sent_messages (cleanup_sent_messages (run init ops) (3 # 20))).
Proof.
  cbv zeta.
  destruct (history_buffer_invariant
              [StartServer;
               MidiIn 0 (mkMessage 0 (note_on 0 60 100));
               MidiIn (1 # 20) (mkMessage 0 (note_on 0 62 100));
               MidiIn (3 # 25) (mkMessage 0 (note_on 0 64 100));
               Cleanup (3 # 20)]) as (H1 & H2).
  split; [exact H1|].
  destruct H2 as (H2 & _).
  - cbn. unfold Qle. cbn. repeat split; lia.
  - exact (H2 (3 # 20)).
Defined.

(** In that run the sweep evicts the first record and keeps the other
    two. *)
Example sweep_of_the_example :
  map sent_time
    (sent_messages
       (run init
          [StartServer;
           MidiIn 0 (mkMessage 0 (note_on 0 60 100));
           MidiIn (1 # 20) (mkMessage 0 (note_on 0 62 100));
           MidiIn (3 # 25) (mkMessage 0 (note_on 0 64 100));
           Cleanup (3 # 20)]))
  = [1 # 20; 3 # 25].
Proof. reflexivity. Qed.

(** C3.  The sweep is written to remove the records older than 0.1 s
    (the comment of line 748 says so), but it looks at the head of the
    buffer only, and nothing keeps the buffer in the order of the time
    stamps: a time stamp is read before its record is appended, and the
    appends of the listener and of the player are made outside the lock.
    Here the listener reads the clock at 0 s, the player reads it at
    0.05 s and appends first, the listener appends after it.  The sweep
    made at 0.14 s finds a fresh head and stops; the state it leaves
    holds the record stamped 0 s, which is 140 ms old. *)
Theorem stale_record_survives_the_sweep :
  let ops :=
    [StartServer; AddFile "a.mid"; Play;
     PlayEvent (1 # 20) (mkMessage 0 (note_on 0 62 100));
     MidiIn 0 (mkMessage 0 (note_on 0 60 100));
     Cleanup (7 # 50)] in
  map sent_time (sent_messages (run init ops)) = [1 # 20; 0]%Q /\
  ~ clock_ok ops /\
  ~ Forall (fresh (7 # 50)) (sent_messages (run init ops)).
Proof.
  cbv zeta. split; [reflexivity|]. split.
  - cbn. unfold Qle. cbn. lia.
  - intros H. inversion H as [|r l _ Hl]; subst.
    inversion Hl as [|r' l' Hr _]; subst.
    unfold fresh, Qle in Hr. cbn in Hr. lia.
Qed.

(** Without the order of the time stamps the sweep can leave an old
    record behind a fresh head: it only looks at the head. *)
Example prune_stops_at_a_fresh_head :
  prune 1 [mkSent "/ch1note" [ArgInt 60] "note_on" 1;
           mkSent "/ch1note" [ArgInt 62] "note_on" 0]
  = [mkSent "/ch1note" [ArgInt 60] "note_on" 1;
     mkSent "/ch1note" [ArgInt 62] "note_on" 0].
Proof. reflexivity. Qed.

End History.

(* ================================================================== *)
(** * The merge step of the player *)
(* ================================================================== *)

Section Merge.

Lemma insert_by_key_perm (x : Z * Message) (l : list (Z * Message)) :
  Permutation (insert_by_key x l) (x :: l).
Proof.
  induction l as [|y l IH]; simpl; [reflexivity|].
  destruct (fst x <=? fst y); [reflexivity|].
  rewrite IH. apply perm_swap.
Qed.

Lemma sort_by_key_perm (l : list (Z * Message)) :
  Permutation (sort_by_key l) l.
Proof.
  induction l as [|x l IH]; simpl; [reflexivity|].
  rewrite insert_by_key_perm. now constructor.
Qed.

Lemma insert_by_key_sorted (x : Z * Message) (l : list (Z * Message)) :
  StronglySorted tick_le l -> StronglySorted tick_le (insert_by_key x l).
Proof.
  induction l as [|y l IH]; intros Hs; simpl.
  - constructor; constructor.
  - inversion Hs as [|? ? Hs' Hall]; subst.
    destruct (fst x <=? fst y) eqn:E.
    + apply Z.leb_le in E. constructor; [exact Hs|].
      constructor; [exact E|].
      eapply Forall_impl; [|exact Hall]. cbv beta. unfold tick_le.
      intros z Hz. lia.
    + apply Z.leb_gt in E. constructor; [now apply IH|].
      eapply Permutation_Forall;
        [symmetry; apply insert_by_key_perm|].
      constructor; [unfold tick_le; lia | exact Hall].
Qed.

Lemma sort_by_key_sorted (l : list (Z * Message)) :
  StronglySorted tick_le (sort_by_key l).
Proof.
  induction l as [|x l IH]; simpl; [constructor|].
  now apply insert_by_key_sorted.
Qed.

(** Insertion puts [x] in front of everything at its tick and leaves the
    other ticks alone. *)
Lemma at_tick_insert (t : Z) (x : Z * Message) (l : list (Z * Message)) :
  at_tick t (insert_by_key x l) = at_tick t (x :: l).
Proof.
  induction l as [|y l IH]; [reflexivity|].
  cbn [insert_by_key]. destruct (fst x <=? fst y) eqn:E; [reflexivity|].
  apply Z.leb_gt in E. unfold at_tick in *. cbn [filter] in *. rewrite IH.
  destruct (fst x =? t) eqn:Ex; [|reflexivity].
  apply Z.eqb_eq in Ex.
  assert ((fst y =? t) = false) as -> by (apply Z.eqb_neq; lia).
  reflexivity.
Qed.

Lemma at_tick_sort (t : Z) (l : list (Z * Message)) :
  at_tick t (sort_by_key l) = at_tick t l.
Proof.
  induction l as [|x l IH]; [reflexivity|].
  cbn [sort_by_key fold_right]. fold (sort_by_key l).
  rewrite at_tick_insert. unfold at_tick in *. cbn [filter]. now rewrite IH.
Qed.

Lemma at_tick_flat_map {A : Type} (t : Z) (f : A -> list (Z * Message))
    (l : list A) :
  at_tick t (flat_map f l) = flat_map (fun a => at_tick t (f a)) l.
Proof.
  induction l as [|a l IH]; [reflexivity|].
  cbn [flat_map]. unfold at_tick in *. now rewrite filter_app, IH.
Qed.

(** In a sorted list the head is the first event of its tick. *)
Lemma at_tick_head (x : Z * Message) (l : list (Z * Message)) :
  at_tick (fst x) (x :: l) = x :: at_tick (fst x) l.
Proof. unfold at_tick. cbn [filter]. now rewrite Z.eqb_refl. Qed.

Lemma at_tick_In (t : Z) (x : Z * Message) (l : list (Z * Message)) :
  In x (at_tick t l) -> In x l /\ fst x = t.
Proof.
  unfold at_tick. rewrite filter_In. intros [Hin Ht].
  split; [exact Hin | now apply Z.eqb_eq].
Qed.

Lemma sorted_head_le (x y : Z * Message) (l1 l2 : list (Z * Message)) :
  StronglySorted tick_le (y :: l2) ->
  at_tick (fst x) (x :: l1) = at_tick (fst x) (y :: l2) ->
  fst y <= fst x.
Proof.
  intros Hs He. rewrite at_tick_head in He.
  assert (In x (at_tick (fst x) (y :: l2))) as Hin
    by (rewrite <- He; now left).
  apply at_tick_In in Hin as [[-> | Hin] _]; [lia|].
  inversion Hs as [|? ? _ Hall]; subst.
  rewrite Forall_forall in Hall. exact (Hall x Hin).
Qed.

(** A sorted list is determined by the sequence of events it has at each
    tick: two stable sorts of the same list return the same list, so
    that nothing depends on the algorithm of [list.sort]. *)
Lemma stable_sort_unique (l1 : list (Z * Message)) :
  forall l2,
    StronglySorted tick_le l1 -> StronglySorted tick_le l2 ->
    (forall t, at_tick t l1 = at_tick t l2) -> l1 = l2.
Proof.
  induction l1 as [|x l1 IH]; intros [|y l2] H1 H2 He.
  - reflexivity.
  - specialize (He (fst y)). rewrite at_tick_head in He. discriminate He.
  - specialize (He (fst x)). rewrite at_tick_head in He. discriminate He.
  - assert (fst x = fst y) as Hxy.
    { pose proof (sorted_head_le x y l1 l2 H2 (He (fst x))).
      pose proof (sorted_head_le y x l2 l1 H1 (eq_sym (He (fst y)))). lia. }
    pose proof (He (fst x)) as Hx. rewrite at_tick_head in Hx.
    rewrite Hxy in Hx at 2. rewrite at_tick_head in Hx.
    injection Hx as -> Hrest.
    f_equal. apply IH.
    + now inversion H1.
    + now inversion H2.
    + intros t. destruct (Z.eq_dec (fst y) t) as [<- | Hne].
      * exact Hrest.
      * specialize (He t). unfold at_tick in *. cbn [filter] in He.
        assert ((fst y =? t) = false) as E by now apply Z.eqb_neq.
        now rewrite E in He.
Qed.

(** The first component of a collected pair is the absolute tick: the
    sum of the delta times of the track up to and including the
    message. *)
Lemma with_abs_time_ticks (track : list Message) :
  forall start,
    map fst (with_abs_time start track)
    = map (fun k => start + fold_right Z.add 0 (map time (firstn k track)))
        (seq 1 (List.length track)).
Proof.
  induction track as [|msg track IH]; intros start; [reflexivity|].
  cbn [with_abs_time map List.length seq firstn fold_right fst].
  f_equal; [lia|].
  rewrite IH, <- (seq_shift (List.length track) 1), map_map.
  apply map_ext. intros k.
  cbn [firstn map fold_right]. lia.
Qed.

(** What the loops of lines 947-952 collect for a track is the track
    itself, each message paired with the running sum of the delta
    times. *)
Lemma with_abs_time_timed (track : list Message) :
  forall start,
    with_abs_time start track
    = combine (map (fun k => start + absolute_tick track k)
                 (seq 0 (List.length track))) track.
Proof.
  induction track as [|msg track IH]; intros start; [reflexivity|].
  cbn [with_abs_time List.length seq map combine].
  f_equal.
  - unfold absolute_tick. cbn [firstn map fold_right]. f_equal. lia.
  - rewrite IH, <- (seq_shift (List.length track) 0), map_map.
    f_equal. apply map_ext. intros k.
    unfold absolute_tick. cbn [firstn map fold_right]. lia.
Qed.

Lemma collect_messages_timed (tracks : list (list Message)) :
  collect_messages tracks = flat_map timed_events tracks.
Proof.
  unfold collect_messages. apply flat_map_ext. intros track.
  rewrite with_abs_time_timed. reflexivity.
Qed.

Lemma timed_events_keeps_the_track (track : list Message) :
  map snd (timed_events track) = track.
Proof.
  unfold timed_events.
  assert (forall (l : list Z) (t : list Message),
             List.length l = List.length t -> map snd (combine l t) = t) as H.
  { induction l as [|z l IH]; intros [|m t] E; try discriminate.
    - reflexivity.
    - cbn [combine map snd]. f_equal. apply IH. now injection E. }
  apply H. now rewrite length_map, length_seq.
Qed.

(** C8.  The sequence the player iterates over holds exactly the events
    of the tracks, each once and each paired with its absolute tick, the
    sum of the delta times of its track up to it.  It is sorted by
    absolute tick, and at every tick it lists the events of that tick
    track after track in the order of the file, each track's events in
    their original order. *)
Theorem merge_is_stable (midi : MidiFile) :
  StronglySorted tick_le (merged_messages midi) /\
  Permutation (merged_messages midi) (flat_map timed_events (tracks midi)) /\
  Permutation (map snd (merged_messages midi)) (List.concat (tracks midi)) /\
  forall t,
    at_tick t (merged_messages midi)
    = flat_map (fun track => at_tick t (timed_events track)) (tracks midi).
Proof.
  unfold merged_messages. rewrite collect_messages_timed.
  split; [apply sort_by_key_sorted|].
  split; [apply sort_by_key_perm|].
  split.
  - rewrite (Permutation_map snd (sort_by_key_perm _)).
    induction (tracks midi) as [|track l IH]; [reflexivity|].
    cbn [flat_map List.concat]. rewrite map_app, timed_events_keeps_the_track.
    now apply Permutation_app_head.
  - intros t. rewrite at_tick_sort.
    induction (tracks midi) as [|track l IH]; [reflexivity|].
    cbn [flat_map]. unfold at_tick in *. now rewrite filter_app, IH.
Qed.

(** Two tracks meeting at ticks 0 and 480. *)
Example merge_of_two_tracks :
  merged_messages
    (mkMidiFile 480
       [[mkMessage 0 (set_tempo 500000); mkMessage 480 (other "end_of_track")];
        [mkMessage 0 (note_on 0 60 100); mkMessage 480 (note_off 0 60 0)]])
  = [(0, mkMessage 0 (set_tempo 500000));
     (0, mkMessage 0 (note_on 0 60 100));
     (480, mkMessage 480 (other "end_of_track"));
     (480, mkMessage 480 (note_off 0 60 0))].
Proof. reflexivity. Qed.

End Merge.

(* ================================================================== *)
(** * Tempo *)
(* ================================================================== *)

Section Tempo.

Lemma change_tempo_fields (self : App) (bpm : Z) :
  0 < bpm ->
  tempo (change_tempo self bpm) = bpm /\
  tempo_slider (change_tempo self bpm) = tempo_slider self /\
  forall q,
    true_divide 60000000 bpm = Ok q ->
    tempo_microseconds_per_beat (change_tempo self bpm) = float_value q.
Proof.
  intros H. unfold change_tempo.
  destruct (bpm <=? 0) eqn:E; [apply Z.leb_le in E; lia|].
  destruct (true_divide 60000000 bpm) as [q|e]; repeat split;
    intros q' Hq; now inversion Hq.
Qed.

Lemma inject_Z_nonzero (z : Z) : z <> 0 -> ~ (inject_Z z == 0)%Q.
Proof. unfold Qeq. cbn. lia. Qed.

Lemma within_bool_iff (tol x y : Q) :
  within_bool tol x y = true <-> within tol x y.
Proof. unfold within_bool, within. apply Qle_bool_iff. Qed.

(** Every tempo of the slider passes the check of the round trip. *)
Lemma round_trip_of_the_slider (bpm : Z) :
  20 <= bpm <= 420 -> round_trip_ok bpm = true.
Proof.
  intros H.
  assert (forallb round_trip_ok (map Z.of_nat (seq 20 401)) = true) as Hall
    by (vm_compute; reflexivity).
  rewrite forallb_forall in Hall. apply Hall.
  apply in_map_iff. exists (Z.to_nat bpm). split; [lia|].
  apply in_seq. lia.
Qed.

(** C9.  For a tempo of the slider's range, [change_tempo] stores the
    tempo and, for the microseconds per beat, the float quotient of
    60000000 by it: the double nearest to 60000000/bpm, hence within
    half a unit in the last place of it; 120 gives 500000 and 60 gives
    1000000 exactly.  The way back recovers the tempo within rounding:
    60000000 divided by the stored number is within half a unit in the
    last place of the tempo in exact arithmetic and within one unit when
    the division is made in floats, and its nearest integer is the
    tempo; the stored number cut to an integer, as a file holds it,
    gives the tempo back through the formula of [reset_tempo]. *)
Theorem tempo_invariant_and_round_trip (self : App) (bpm : Z) :
  20 <= bpm <= 420 ->
  let self' := change_tempo self bpm in
  tempo self' = bpm /\
  exists q,
    true_divide 60000000 (tempo self') = Ok q /\
    tempo_microseconds_per_beat self' = float_value q /\
    within ((inject_Z 60000000 / inject_Z bpm) * half_ulp)
      (float_value q) (inject_Z 60000000 / inject_Z bpm) /\
    (bpm = 120 -> (float_value q == inject_Z 500000)%Q) /\
    (bpm = 60 -> (float_value q == inject_Z 1000000)%Q) /\
    within (inject_Z bpm * half_ulp)
      (inject_Z 60000000 / float_value q) (inject_Z bpm) /\
    within (inject_Z bpm * one_ulp)
      (float_value (bpm_of_microseconds q)) (inject_Z bpm) /\
    Qfloor (float_value (bpm_of_microseconds q) + (1 # 2)) = bpm /\
    bpm_of_tempo (Qfloor (float_value q)) = Ok bpm.
Proof.
  intros H. cbv zeta.
  destruct (change_tempo_fields self bpm) as (Ht & _ & Hu); [lia|].
  pose proof (round_trip_of_the_slider bpm H) as Hok.
  unfold round_trip_ok in Hok.
  rewrite Ht. split; [reflexivity|].
  destruct (true_divide 60000000 bpm) as [q|e] eqn:E; [|discriminate].
  exists q. split; [reflexivity|]. split; [now apply Hu|].
  apply andb_true_iff in Hok as [Hok Hfile].
  repeat (apply andb_true_iff in Hok as [Hok ?]).
  repeat match goal with
         | H : within_bool _ _ _ = true |- _ => apply within_bool_iff in H
         | H : (_ =? _) = true |- _ => apply Z.eqb_eq in H
         end.
  split; [assumption|].
  split; [intros ->; vm_compute in E; injection E as <-; reflexivity|].
  split; [intros ->; vm_compute in E; injection E as <-; reflexivity|].
  repeat split; try assumption.
  destruct (bpm_of_tempo (Qfloor (float_value q))) as [back|e];
    [|discriminate].
  apply Z.eqb_eq in Hfile. now subst back.
Qed.

(** The slider moved to 60, and to 51, a tempo of which the quotient is
    not a double. *)
Lemma tempo_invariant_and_round_trip_witness :
  (tempo (change_tempo init 60) = 60 /\
   (tempo_microseconds_per_beat (change_tempo init 60)
    == inject_Z 1000000)%Q) /\
  (tempo (change_tempo init 51) = 51 /\
   exists q,
     tempo_microseconds_per_beat (change_tempo init 51) = float_value q /\
     within (inject_Z 51 * one_ulp)
       (float_value (bpm_of_microseconds q)) (inject_Z 51)).
Proof.
  split.
  - destruct (tempo_invariant_and_round_trip init 60)
      as (H1 & q & _ & H2 & _ & _ & H4 & _); [lia|].
    split; [exact H1|]. rewrite H2. now apply H4.
  - destruct (tempo_invariant_and_round_trip init 51)
      as (H1 & q & _ & H2 & _ & _ & _ & _ & H5 & _); [lia|].
    split; [exact H1|]. exists q. split; [exact H2 | exact H5].
Defined.

(** At 51 the way back in floats falls just below the tempo: it is not
    51 itself, and cutting it to an integer would give 50. *)
Example round_trip_is_not_exact :
  exists q,
    true_divide 60000000 51 = Ok q /\
    ~ (float_value (bpm_of_microseconds q) == inject_Z 51)%Q /\
    Qfloor (float_value (bpm_of_microseconds q)) = 50.
Proof.
  eexists. split; [vm_compute; reflexivity|].
  split; [intros H; vm_compute in H; discriminate | vm_compute; reflexivity].
Qed.

(** ** Reset tempo *)

(** Without a tempo event in the first file, the tempo ends at 120 and
    500000 whatever the slider showed. *)
Lemma reset_tempo_default (open_file : string -> result MidiFile)
    (self : App) (first : string) (rest : list string) (midi : MidiFile) :
  midi_playlist self = first :: rest -> open_file first = Ok midi ->
  first_tempo (tracks midi) = None ->
  tempo (reset_tempo open_file self) = 120 /\
  (tempo_microseconds_per_beat (reset_tempo open_file self)
   == inject_Z 500000)%Q.
Proof.
  intros Hp Ho Hn. unfold reset_tempo. rewrite Hp, Ho, Hn.
  unfold slider_setValue.
  cbn [tempo set_tempo_bpm set_tempo_microseconds_per_beat tempo_slider
       log_message].
  change (Z.max slider_minimum (Z.min slider_maximum 120)) with 120.
  destruct (120 =? tempo_slider self); split; reflexivity.
Qed.

(** With a tempo event, when the slider already shows the tempo derived
    from it, the number of microseconds of the event is kept. *)
Lemma reset_tempo_slider_in_place (open_file : string -> result MidiFile)
    (self : App) (first : string) (rest : list string) (midi : MidiFile)
    (t bpm : Z) :
  midi_playlist self = first :: rest -> open_file first = Ok midi ->
  first_tempo (tracks midi) = Some t -> bpm_of_tempo t = Ok bpm ->
  tempo_slider self = Z.max slider_minimum (Z.min slider_maximum bpm) ->
  tempo (reset_tempo open_file self) = bpm /\
  tempo_microseconds_per_beat (reset_tempo open_file self) = inject_Z t.
Proof.
  intros Hp Ho Hn Ht Hs. unfold reset_tempo. rewrite Hp, Ho, Hn, Ht.
  unfold slider_setValue. cbn [tempo set_tempo_bpm tempo_slider
    set_tempo_microseconds_per_beat].
  rewrite <- Hs, Z.eqb_refl. split; reflexivity.
Qed.

(** Otherwise the slider moves, its slot runs [change_tempo], and the
    number of microseconds is recomputed from the whole tempo, bounded
    to the range of the slider. *)
Lemma reset_tempo_slider_moves (open_file : string -> result MidiFile)
    (self : App) (first : string) (rest : list string) (midi : MidiFile)
    (t bpm : Z) :
  midi_playlist self = first :: rest -> open_file first = Ok midi ->
  first_tempo (tracks midi) = Some t -> bpm_of_tempo t = Ok bpm ->
  let shown := Z.max slider_minimum (Z.min slider_maximum bpm) in
  tempo_slider self <> shown ->
  tempo (reset_tempo open_file self) = shown /\
  exists q,
    true_divide 60000000 shown = Ok q /\
    tempo_microseconds_per_beat (reset_tempo open_file self) = float_value q.
Proof.
  intros Hp Ho Hn Ht shown Hs. unfold reset_tempo. rewrite Hp, Ho, Hn, Ht.
  unfold slider_setValue. cbn [tempo set_tempo_bpm tempo_slider
    set_tempo_microseconds_per_beat].
  fold shown.
  assert ((shown =? tempo_slider self) = false) as ->
    by (apply Z.eqb_neq; congruence).
  assert (20 <= shown <= 420) as Hrange
    by (unfold shown, slider_minimum, slider_maximum; lia).
  pose proof (round_trip_of_the_slider shown Hrange) as Hok.
  unfold round_trip_ok in Hok.
  destruct (true_divide 60000000 shown) as [q|e] eqn:E; [|discriminate].
  unfold update_tempo_display.
  destruct (change_tempo_fields
              (set_tempo_slider
                 (set_tempo_bpm
                    (set_tempo_microseconds_per_beat self (inject_Z t))
                    bpm) shown) shown) as (H1 & _ & H2);
    [lia|].
  split; [exact H1|]. exists q. split; [reflexivity|]. now apply H2.
Qed.

(** C2, on a file whose first tempo event is 461538 microseconds per
    beat (130 beats per minute, rounded), the slider showing 120: the
    reset leaves the float quotient of 60000000 by 130, the double
    nearest to 461538.4615..., which is not the number of the event. *)
Theorem reset_tempo_loses_file_tempo :
  let midi := mkMidiFile 480 [[mkMessage 0 (set_tempo 461538)]] in
  let self := set_midi_playlist init ["song.mid"] in
  let self' := reset_tempo (fun _ => Ok midi) self in
  first_tempo (tracks midi) = Some 461538 /\
  tempo_slider self = 120 /\
  tempo self' = 130 /\
  (exists q, true_divide 60000000 130 = Ok q /\
             tempo_microseconds_per_beat self' = float_value q) /\
  within ((6000000 # 13) * half_ulp)
    (tempo_microseconds_per_beat self') (6000000 # 13) /\
  ~ (tempo_microseconds_per_beat self' == inject_Z 461538)%Q.
Proof.
  cbv zeta. split; [reflexivity|]. split; [reflexivity|].
  split; [reflexivity|].
  split; [eexists; split; vm_compute; reflexivity|].
  split.
  - apply within_bool_iff. vm_compute. reflexivity.
  - intros H. vm_compute in H. discriminate H.
Qed.

End Tempo.

(* ================================================================== *)
(** * Skipping in the playlist *)
(* ================================================================== *)

Section Skip.

Lemma len_pos (l : list string) : l <> [] -> 0 < len l.
Proof. destruct l; [congruence|]. unfold len. cbn [List.length]. lia. Qed.

(** The state in which [skip_forward] and [skip_back] do their
    arithmetic: the one left by the three assignments and the join. *)
Lemma join_thread_fields (self : App) (o : JoinOutcome) :
  midi_playlist (join_thread self o) = midi_playlist self /\
  current_playlist_index (join_thread self o)
  = match thread_alive self, o with
    | true, ThreadFinished => 0
    | _, _ => current_playlist_index self
    end.
Proof.
  unfold join_thread. destruct (thread_alive self), o; split; reflexivity.
Qed.

(** What [skip_forward] leaves in the index, and that it restarts
    playback. *)
Lemma skip_forward_index (self : App) (o : JoinOutcome) :
  midi_playlist self <> [] ->
  let self' := skip_forward self o in
  current_playlist_index self'
  = (match thread_alive self, o with
     | true, ThreadFinished => 0
     | _, _ => current_playlist_index self
     end + 1) mod len (midi_playlist self) /\
  playing self' = true /\ request_stop self' = false /\
  thread_alive self' = true.
Proof.
  intros Hne. cbv zeta. unfold skip_forward.
  destruct (midi_playlist self) as [|f fs] eqn:E; [congruence|].
  unfold play, join_thread, player_thread_exit, play_playlist_epilogue.
  destruct self; cbn in *; subst.
  destruct thread_alive0, o; cbn; repeat split.
Qed.

Lemma skip_back_index (self : App) (o : JoinOutcome) :
  midi_playlist self <> [] ->
  let self' := skip_back self o in
  current_playlist_index self'
  = (match thread_alive self, o with
     | true, ThreadFinished => 0
     | _, _ => current_playlist_index self
     end - 1) mod len (midi_playlist self) /\
  playing self' = true /\ request_stop self' = false /\
  thread_alive self' = true.
Proof.
  intros Hne. cbv zeta. unfold skip_back.
  destruct (midi_playlist self) as [|f fs] eqn:E; [congruence|].
  unfold play, join_thread, player_thread_exit, play_playlist_epilogue.
  destruct self; cbn in *; subst.
  destruct thread_alive0, o; cbn; repeat split.
Qed.

(** When no player thread ends during the join, skipping forward from
    the last file lands on the first. *)
Lemma skip_forward_wraps_without_exit (self : App) (o : JoinOutcome) :
  midi_playlist self <> [] ->
  current_playlist_index self = len (midi_playlist self) - 1 ->
  thread_alive self = false \/ o = JoinTimedOut ->
  current_playlist_index (skip_forward self o) = 0.
Proof.
  intros Hne Hidx Hno.
  destruct (skip_forward_index self o Hne) as [-> _].
  pose proof (len_pos _ Hne) as Hpos.
  assert (match thread_alive self, o with
          | true, ThreadFinished => 0
          | _, _ => current_playlist_index self
          end = current_playlist_index self) as ->.
  { destruct Hno as [-> | ->]; [reflexivity|].
    now destruct (thread_alive self). }
  rewrite Hidx. replace (len (midi_playlist self) - 1 + 1)
    with (len (midi_playlist self)) by lia.
  apply Z.mod_same. lia.
Qed.

(** Skipping back from the first file lands on the last, in every
    case. *)
Lemma skip_back_wraps (self : App) (o : JoinOutcome) :
  midi_playlist self <> [] ->
  current_playlist_index self = 0 ->
  current_playlist_index (skip_back self o) = len (midi_playlist self) - 1.
Proof.
  intros Hne Hidx.
  destruct (skip_back_index self o Hne) as [-> _].
  pose proof (len_pos _ Hne) as Hpos.
  assert (match thread_alive self, o with
          | true, ThreadFinished => 0
          | _, _ => current_playlist_index self
          end = 0) as ->.
  { rewrite Hidx. now destruct (thread_alive self), o. }
  replace (0 - 1) with (-1) by lia.
  rewrite <- (Z.mod_add _ 1) by lia.
  replace (-1 + 1 * len (midi_playlist self))
    with (len (midi_playlist self) - 1) by lia.
  apply Z.mod_small. lia.
Qed.

(** When the player thread ends during the join, it has reset the index
    before the arithmetic: skipping forward lands on the second file
    wherever playback was. *)
Lemma skip_forward_after_exit (self : App) :
  midi_playlist self <> [] -> thread_alive self = true ->
  current_playlist_index (skip_forward self ThreadFinished)
  = 1 mod len (midi_playlist self).
Proof.
  intros Hne Ha. destruct (skip_forward_index self ThreadFinished Hne) as [-> _].
  now rewrite Ha.
Qed.

(** C7, on a playlist of three files of which the third is playing: the
    index is 2, the last one; skip-forward, the player thread ending
    within the join, leaves the index at 1 and not at 0. *)
Theorem skip_forward_from_last_while_playing :
  let before :=
    run init [AddFile "a.mid"; AddFile "b.mid"; AddFile "c.mid"; Play;
              PlayerNextFile; PlayerNextFile] in
  let after := step before (SkipForward ThreadFinished) in
  len (midi_playlist before) = 3 /\
  current_playlist_index before = 2 /\
  playing before = true /\ thread_alive before = true /\
  current_playlist_index after = 1 /\
  playing after = true /\ thread_alive after = true.
Proof. cbv zeta. repeat split. Qed.

End Skip.

(* ================================================================== *)
(** * Text after the address *)
(* ================================================================== *)

Section TrailingText.

Lemma notes_not_in_grammar : ~ in_grammar "/ch1notes".
Proof.
  intros (n & w & [Hne Hd] & Hw & Heq).
  cbn [append] in Heq. injection Heq as Heq.
  destruct n as [|c n]; [congruence|].
  cbn [append] in Heq. injection Heq as Hc Heq. subst c.
  destruct n as [|c2 n].
  - cbn [append] in Heq. subst w.
    remember "notes" as s eqn:Es.
    destruct Hw; try discriminate Es.
  - cbn [append] in Heq. injection Heq as Hc2 Heq. subst c2.
    cbn in Hd. discriminate Hd.
Qed.

(** The expression is matched at the start of the address only: an
    address that continues after a command is handled as that
    command. *)
Example trailing_text_is_ignored :
  ~ in_grammar "/ch1notes" /\
  re_match "/ch1notes" = Some (mkMatch "1" "note" None) /\
  exists self',
    handle_osc_message (set_midi_out init (Some [])) 0 0 "/ch1notes"
      [ArgInt 60] = Ok self' /\
    midi_out self' = Some [mkMessage 0 (note_on 0 60 100)].
Proof.
  split; [exact notes_not_in_grammar|]. split; [reflexivity|].
  eexists. split; reflexivity.
Qed.

End TrailingText.

(* ================================================================== *)
(** * Bounds kept by the dispatcher callback *)
(* ================================================================== *)

Section DispatcherBounds.

Local Open Scope py_scope.

Lemma check_channel_inv (c r : Z) :
  check_channel c = Ok r -> r = c /\ in_range 0 15 c.
Proof.
  unfold check_channel, in_range.
  destruct (0 <=? c) eqn:E1; destruct (c <=? 15) eqn:E2; cbn;
    try discriminate.
  intros H; inversion H. lia.
Qed.

Lemma check_data_byte_inv (v r : Z) :
  check_data_byte v = Ok r -> r = v /\ in_range 0 127 v.
Proof.
  unfold check_data_byte, in_range.
  destruct (0 <=? v) eqn:E1; destruct (v <=? 127) eqn:E2; cbn;
    try discriminate.
  intros H; inversion H. lia.
Qed.

Lemma check_pitch_inv (p r : Z) :
  check_pitch p = Ok r -> r = p /\ in_range (-8192) 8191 p.
Proof.
  unfold check_pitch, in_range.
  destruct (-8192 <=? p) eqn:E1; destruct (p <=? 8191) eqn:E2; cbn;
    try discriminate.
  intros H; inversion H. lia.
Qed.

Lemma check_channel_out (c : Z) :
  ~ in_range 0 15 c -> check_channel c = Raise ValueError.
Proof.
  unfold check_channel, in_range. intros H.
  destruct (0 <=? c) eqn:E1; destruct (c <=? 15) eqn:E2; cbn;
    try reflexivity; lia.
Qed.

Ltac invert_checks :=
  repeat match goal with
         | H : bind (check_channel ?c) _ = Ok _ |- _ =>
             let r := fresh "r" in
             let E := fresh "E" in
             destruct (check_channel c) as [r|] eqn:E;
             [apply check_channel_inv in E as [-> ?] | discriminate H];
             cbn [bind] in H
         | H : bind (check_data_byte ?c) _ = Ok _ |- _ =>
             let r := fresh "r" in
             let E := fresh "E" in
             destruct (check_data_byte c) as [r|] eqn:E;
             [apply check_data_byte_inv in E as [-> ?] | discriminate H];
             cbn [bind] in H
         | H : bind (check_pitch ?c) _ = Ok _ |- _ =>
             let r := fresh "r" in
             let E := fresh "E" in
             destruct (check_pitch c) as [r|] eqn:E;
             [apply check_pitch_inv in E as [-> ?] | discriminate H];
             cbn [bind] in H
         end.

(** The constructors of messages only return messages in range. *)
Lemma message_well_formed (b : result Body) (m : Message) :
  (exists c n v, b = new_note_on c n v) \/
  (exists c n v, b = new_note_off c n v) \/
  (exists c k v, b = new_control_change c k v) \/
  (exists c v, b = new_aftertouch c v) \/
  (exists c p, b = new_pitchwheel c p) ->
  message b = Ok m -> well_formed (body m) /\ time m = 0.
Proof.
  unfold message.
  intros [(c & n & v & ->) | [(c & n & v & ->) | [(c & k & v & ->) |
          [(c & v & ->) | (c & p & ->)]]]] H;
    unfold new_note_on, new_note_off, new_control_change, new_aftertouch,
      new_pitchwheel in H;
    match type of H with
    | bind ?x _ = _ => destruct x as [b'|] eqn:Eb; [|discriminate H]
    end;
    cbn [bind] in H; inversion H; subst m; clear H;
    invert_checks; inversion Eb; subst b'; cbn; auto.
Qed.

(** Whatever the command and the arguments, a message that gets built
    is in range. *)
Lemma build_message_well_formed (channel : Z) (command : string)
    (cc_num : option string) (args : list OscArg) (m : Message)
    (kind : string) :
  build_message channel command cc_num args = Ok (Send m kind) ->
  well_formed (body m) /\ time m = 0.
Proof.
  unfold build_message.
  repeat match goal with
         | |- context [if ?x then _ else _] => destruct x
         end;
    try discriminate;
    try (destruct cc_num as [k|]; [|discriminate];
         destruct (int_of_str k) as [control|]; [|discriminate];
         cbn [bind]);
    (destruct (item0 args) as [a|]; [|discriminate]); cbn [bind];
    (destruct (int a) as [v|]; [|discriminate]); cbn [bind];
    match goal with
    | |- bind (message ?b) _ = _ -> _ =>
        destruct (message b) as [m'|] eqn:Em; [|discriminate]
    end;
    cbn [bind]; intros H; inversion H; subst m';
    refine (message_well_formed _ _ _ Em); eauto 12.
Qed.

(** X1.  The callback never puts a malformed message on the MIDI output:
    it adds nothing or one message, and that message has its channel in
    0..15 and its data in the range of its type. *)
Theorem output_is_well_formed (self self' : App) (current_time now : Q)
    (address : string) (args : list OscArg) (port : list Message) :
  midi_out self = Some port ->
  handle_osc_message self current_time now address args = Ok self' ->
  midi_out self' = Some port \/
  exists m,
    midi_out self' = Some (port ++ [m])%list /\
    well_formed (body m) /\ time m = 0.
Proof.
  intros Hport Hh. rewrite handle_osc_message_cases in Hh. cbv zeta in Hh.
  injection Hh as <-.
  destruct (re_match address) as [g|]; [|now left].
  destruct (paused self); [now left|].
  destruct (try_block _ _ _ _ _ _ _) as [s|e] eqn:Ht; [|now left].
  apply try_block_midi_out in Ht as [Hsame | (q & m & kind & Hb & Hq & Hout)].
  - left. now rewrite Hsame.
  - right. cbn in Hq. rewrite Hport in Hq. injection Hq as <-.
    exists m. split; [exact Hout|].
    now apply (build_message_well_formed _ _ _ _ _ _ Hb).
Qed.

(** A control change on channel 3. *)
Lemma output_is_well_formed_witness :
  Some [mkMessage 0 (control_change 2 7 100)] = Some [] \/
  exists m,
    Some [mkMessage 0 (control_change 2 7 100)] = Some ([] ++ [m])%list /\
    well_formed (body m) /\ time m = 0.
Proof.
  apply (output_is_well_formed (set_midi_out init (Some []))
           (append_sent
              (log_message
                 (set_midi_out init
                    (Some [mkMessage 0 (control_change 2 7 100)]))
                 (LogOscToMidi (mkMessage 0 (control_change 2 7 100))))
              (mkSent "/ch3cc7" [ArgInt 100] "control_change" 0))
           0 0 "/ch3cc7" [ArgInt 100] []).
  - reflexivity.
  - reflexivity.
Defined.

(** With a channel outside 0..15 no message is built, whatever the
    command and the arguments. *)
Lemma build_message_bad_channel (channel : Z) (address : string) (m : Match)
    (args : list OscArg) :
  re_match address = Some m -> ~ in_range 0 15 channel ->
  exists e, build_message channel (group2 m) (group3 m) args = Raise e.
Proof.
  intros Hm Hc.
  destruct (re_match_inv address m Hm) as (_ & _ & _ & Hcmd).
  pose proof (check_channel_out channel Hc) as Hch.
  assert (forall (mk : Z -> result Body) (label : string),
             (forall v, exists e, mk v = Raise e) ->
             exists e,
               (a <- item0 args ;; v <- int a ;;
                msg <- message (mk v) ;; Ok (Send msg label)) = Raise e) as Hk.
  { intros mk label Hmk. destruct args as [|a rest0]; cbn [item0 bind].
    - now exists IndexError.
    - destruct (int a) as [v|e]; cbn [bind]; [|now exists e].
      destruct (Hmk v) as [e He]. exists e. unfold message. now rewrite He. }
  destruct Hcmd as [[_ Hplain] | (k & H3 & [Hne Hd] & H2)].
  - destruct Hplain as [-> | [-> | [-> | ->]]]; unfold build_message;
      cbn [String.eqb Ascii.eqb Bool.eqb startswith strip_prefix];
      apply Hk; intros v; exists ValueError;
      unfold new_note_on, new_note_off, new_aftertouch, new_pitchwheel;
      now rewrite Hch.
  - rewrite H2, H3. unfold build_message.
    cbn [String.eqb append Ascii.eqb Bool.eqb startswith strip_prefix].
    rewrite (int_of_str_digits k Hne Hd). cbn [bind].
    apply Hk. intros v. exists ValueError.
    unfold new_control_change. now rewrite Hch.
Qed.

(** X2.  An address that matches the expression with a channel number
    outside 1..16, written with no more digits than [int()] accepts, is
    logged as an error and dropped, whatever its command and
    arguments. *)
Theorem channel_out_of_range_is_dropped (self : App) (current_time now : Q)
    (address : string) (args : list OscArg) (m : Match) :
  paused self = false -> re_match address = Some m ->
  (String.length (group1 m) <= int_max_str_digits)%nat ->
  ~ 1 <= digits_value 0 (group1 m) <= 16 ->
  exists e,
    let self' :=
      log_message (cleanup_sent_messages self current_time)
        (LogError address e) in
    handle_osc_message self current_time now address args = Ok self' /\
    logged_drop self current_time self'.
Proof.
  intros Hp Hm _ Hn. rewrite handle_osc_message_cases. cbv zeta.
  rewrite Hm, Hp.
  destruct (build_message_bad_channel (digits_value 0 (group1 m) - 1)
              address m args Hm) as [e He].
  { unfold in_range. lia. }
  exists e. unfold try_block. rewrite He. cbn [bind].
  split; [reflexivity|]. split; [split; reflexivity|].
  eexists; reflexivity.
Qed.

(** A note for channel 17, and one for channel 0. *)
Lemma channel_out_of_range_is_dropped_witness :
  (exists e,
     handle_osc_message (set_midi_out init (Some [])) 0 0 "/ch17note"
       [ArgInt 60]
     = Ok (log_message (cleanup_sent_messages (set_midi_out init (Some [])) 0)
             (LogError "/ch17note" e))) /\
  (exists e,
     handle_osc_message (set_midi_out init (Some [])) 0 0 "/ch0note"
       [ArgInt 60]
     = Ok (log_message (cleanup_sent_messages (set_midi_out init (Some [])) 0)
             (LogError "/ch0note" e))).
Proof.
  split.
  - destruct (channel_out_of_range_is_dropped (set_midi_out init (Some []))
                0 0 "/ch17note" [ArgInt 60] (mkMatch "17" "note" None))
      as [e [He _]].
    + reflexivity.
    + reflexivity.
    + cbn. unfold int_max_str_digits. lia.
    + replace (digits_value 0 (group1 (mkMatch "17" "note" None))) with 17
        by reflexivity. lia.
    + now exists e.
  - destruct (channel_out_of_range_is_dropped (set_midi_out init (Some []))
                0 0 "/ch0note" [ArgInt 60] (mkMatch "0" "note" None))
      as [e [He _]].
    + reflexivity.
    + reflexivity.
    + cbn. unfold int_max_str_digits. lia.
    + replace (digits_value 0 (group1 (mkMatch "0" "note" None))) with 0
        by reflexivity. lia.
    + now exists e.
Defined.

(** The message written for an event is delivered by the callback. *)
Lemma encoded_message_is_delivered (b : Body) (k : Kind) (address label : string)
    (arg : Z) (self : App) (current_time now : Q) (port : list Message) :
  kind_of b = Some k -> well_formed b ->
  osc_of_midi b = Some (address, arg, label) ->
  paused self = false -> midi_out self = Some port ->
  exists self',
    handle_osc_message self current_time now address [ArgInt arg] = Ok self' /\
    midi_out self' = Some (port ++ [mkMessage 0 (decoded_image b)])%list /\
    paused self' = false.
Proof.
  intros Hk Hwf Henc Hp Hport.
  destruct (build_message_of_encoding b k Hk Hwf)
    as (c & address' & arg' & label' & m & _ & He & _ & _ & Hm & Hi & Hb).
  rewrite Henc in He. injection He as <- <- <-.
  rewrite (handle_osc_message_matched self current_time now address
             [ArgInt arg] m (c + 1) Hm Hi Hp).
  cbv zeta. unfold try_block. rewrite Hb. cbn [bind].
  destruct (cleanup_fields self current_time) as (Hpa & Hmo & _).
  rewrite Hmo, Hport. cbn [send bind].
  eexists. split; [reflexivity|]. split; [reflexivity|]. cbn. exact Hp.
Qed.

Lemma equivalent_sym (b d : Body) : equivalent b d -> equivalent d b.
Proof. unfold equivalent. intuition congruence. Qed.

Lemma equivalent_trans (b c d : Body) :
  equivalent b c -> equivalent c d -> equivalent b d.
Proof. unfold equivalent. intuition congruence. Qed.

(** X3.  The address and the argument identify the event: two well-formed
    events for which the encoder writes the same message have the same
    kind, channel, payload and controller number. *)
Theorem encoding_identifies_the_event (b1 b2 : Body) (k1 k2 : Kind)
    (address label1 label2 : string) (arg : Z) :
  kind_of b1 = Some k1 -> kind_of b2 = Some k2 ->
  well_formed b1 -> well_formed b2 ->
  osc_of_midi b1 = Some (address, arg, label1) ->
  osc_of_midi b2 = Some (address, arg, label2) ->
  equivalent b1 b2 /\ decoded_image b1 = decoded_image b2.
Proof.
  intros Hk1 Hk2 Hw1 Hw2 He1 He2.
  destruct (build_message_of_encoding b1 k1 Hk1 Hw1)
    as (c1 & a1 & v1 & l1 & m1 & _ & E1 & _ & _ & Hm1 & Hi1 & Hb1).
  destruct (build_message_of_encoding b2 k2 Hk2 Hw2)
    as (c2 & a2 & v2 & l2 & m2 & _ & E2 & _ & _ & Hm2 & Hi2 & Hb2).
  rewrite He1 in E1. injection E1 as <- <- <-.
  rewrite He2 in E2. injection E2 as <- <- <-.
  rewrite Hm1 in Hm2. injection Hm2 as <-.
  rewrite Hi1 in Hi2. injection Hi2 as Hc.
  replace c2 with c1 in Hb2 by lia.
  rewrite Hb1 in Hb2. injection Hb2 as Himg _.
  split; [|exact Himg].
  apply (equivalent_trans _ (decoded_image b1)).
  - exact (decoded_image_equivalent b1 k1 Hk1).
  - rewrite Himg. apply equivalent_sym.
    exact (decoded_image_equivalent b2 k2 Hk2).
Qed.

(** Two note-ons that differ in velocity only. *)
Lemma encoding_identifies_the_event_witness :
  equivalent (note_on 3 60 64) (note_on 3 60 127) /\
  decoded_image (note_on 3 60 64) = decoded_image (note_on 3 60 127).
Proof.
  apply (encoding_identifies_the_event (note_on 3 60 64) (note_on 3 60 127)
           NoteOn NoteOn "/ch4note" "note_on" "note_on" 60);
    try reflexivity; unfold well_formed, in_range; lia.
Defined.

End DispatcherBounds.

(* ================================================================== *)
(** * The routes and the codec *)
(* ================================================================== *)

Section RoutesFacts.

Lemma In_range (a b x : Z) : In x (range a b) <-> a <= x < b.
Proof.
  unfold range. rewrite in_map_iff. split.
  - intros (i & <- & Hi). apply in_seq in Hi. lia.
  - intros H. exists (Z.to_nat (x - a)). split; [lia|].
    apply in_seq. lia.
Qed.

Lemma routes_for_matched (ch : Z) (address : string) :
  0 <= ch -> In address (routes_for ch) ->
  exists m,
    re_match address = Some m /\ group1 m = format_int ch /\ route_command m.
Proof.
  intros Hch Hin. pose proof (digits1_format ch Hch) as Dch.
  destruct Hin as [<- | [<- | Hin]].
  - exists (mkMatch (format_int ch) "note" None). split; [|split].
    + apply (re_match_plain _ "note" EmptyString); [exact Dch | now left].
    + reflexivity.
    + left. now split.
  - exists (mkMatch (format_int ch) "noff" None). split; [|split].
    + apply (re_match_plain _ "noff" EmptyString);
        [exact Dch | right; now left].
    + reflexivity.
    + right; left. now split.
  - apply in_map_iff in Hin as (k & <- & Hk). apply In_range in Hk.
    assert (0 <= k) as Hk0 by lia.
    pose proof (digits1_format k Hk0) as Dk.
    exists (mkMatch (format_int ch) ("cc" ++ format_int k)
              (Some (format_int k))).
    split; [|split].
    + rewrite <- (append_empty_r (format_int k)) at 1.
      apply (re_match_cc _ _ EmptyString); [exact Dch | exact Dk | exact I].
    + reflexivity.
    + right; right. exists k. repeat split; lia.
Qed.

(** X4.  Every address registered with the dispatcher is matched by the
    expression of the callback; the channel number read back is the one
    the route was made for, within 1..16 (the selected one in single
    channel mode), and the command is [note], [noff] or [cc] with a
    controller number below 128.  No route carries [pressure] or
    [pitch]. *)
Theorem routes_are_matched (ch16 : bool) (selected_ch : Z) (address : string) :
  1 <= selected_ch <= 16 ->
  In address (dispatcher_routes ch16 selected_ch) ->
  exists m ch,
    re_match address = Some m /\ int_of_str (group1 m) = Ok ch /\
    1 <= ch <= 16 /\ (ch16 = false -> ch = selected_ch) /\
    In address (routes_for ch) /\
    route_command m /\
    group2 m <> "pressure" /\ group2 m <> "pitch".
Proof.
  intros Hsel Hin.
  assert (exists ch, 1 <= ch <= 16 /\ (ch16 = false -> ch = selected_ch) /\
                     In address (routes_for ch)) as (ch & Hch & Hmode & Hr).
  { unfold dispatcher_routes in Hin. destruct ch16.
    - apply in_flat_map in Hin as (ch & Hch & Hr). apply In_range in Hch.
      exists ch. split; [lia|]. split; [discriminate | exact Hr].
    - exists selected_ch. split; [lia|]. split; [reflexivity | exact Hin]. }
  destruct (routes_for_matched ch address) as (m & Hm & Hg & Hc); [lia|exact Hr|].
  exists m, ch. split; [exact Hm|]. split.
  { rewrite Hg. apply int_of_str_format. lia. }
  split; [exact Hch|]. split; [exact Hmode|]. split; [exact Hr|].
  split; [exact Hc|].
  destruct Hc as [[-> _] | [[-> _] | (k & _ & -> & _)]];
    split; discriminate.
Qed.

(** The first route of channel 5 in single-channel mode. *)
Lemma routes_are_matched_witness :
  exists m ch,
    re_match "/ch5note" = Some m /\ int_of_str (group1 m) = Ok ch /\
    1 <= ch <= 16 /\ (false = false -> ch = 5) /\
    In "/ch5note" (routes_for ch) /\
    route_command m /\
    group2 m <> "pressure" /\ group2 m <> "pitch".
Proof.
  apply (routes_are_matched false 5 "/ch5note").
  - lia.
  - left. reflexivity.
Defined.

(** X5.  In 16-channel mode the bridge listens to the messages its own
    encoder writes for note-on, note-off and control-change events, and
    to none of those it writes for aftertouch and pitch-bend events. *)
Theorem routed_back_iff_note_or_control (b : Body) (k : Kind)
    (address label : string) (arg selected_ch : Z) :
  kind_of b = Some k -> well_formed b ->
  osc_of_midi b = Some (address, arg, label) ->
  (In address (dispatcher_routes true selected_ch) <->
   k = NoteOn \/ k = NoteOff \/ k = ControlChange).
Proof.
  intros Hk Hwf He. split.
  - intros Hin.
    assert (exists m, re_match address = Some m /\ route_command m)
      as (m & Hm & Hc).
    { cbn [dispatcher_routes] in Hin.
      apply in_flat_map in Hin as (ch & Hch & Hr). apply In_range in Hch.
      destruct (routes_for_matched ch address) as (m & Hm & _ & Hc);
        [lia | exact Hr |]. now exists m. }
    destruct b as [c n v|c n v|c j v|c v|c p|t|ty]; cbn in Hk;
      try discriminate.
    + destruct (v =? 0); injection Hk as <-; auto.
    + injection Hk as <-; auto.
    + injection Hk as <-; auto.
    + exfalso. cbn [osc_of_midi] in He. injection He as <- _ _.
      cbn [well_formed] in Hwf. destruct Hwf as (Hc0 & _).
      assert (re_match ("/ch" ++ format_int (c + 1) ++ "pressure")
              = Some (mkMatch (format_int (c + 1)) "pressure" None)) as Hx.
      { apply (re_match_plain _ "pressure" EmptyString); [|right; right; now left].
        apply digits1_format. unfold in_range in Hc0. lia. }
      assert (Some m = Some (mkMatch (format_int (c + 1)) "pressure" None)) as Hy
        by (rewrite <- Hm; exact Hx).
      injection Hy as ->.
      destruct Hc as [[H _] | [[H _] | (q & _ & H & _)]]; discriminate H.
    + exfalso. cbn [osc_of_midi] in He. injection He as <- _ _.
      cbn [well_formed] in Hwf. destruct Hwf as (Hc0 & _).
      assert (re_match ("/ch" ++ format_int (c + 1) ++ "pitch")
              = Some (mkMatch (format_int (c + 1)) "pitch" None)) as Hx.
      { apply (re_match_plain _ "pitch" EmptyString); [|right; right; now right].
        apply digits1_format. unfold in_range in Hc0. lia. }
      assert (Some m = Some (mkMatch (format_int (c + 1)) "pitch" None)) as Hy
        by (rewrite <- Hm; exact Hx).
      injection Hy as ->.
      destruct Hc as [[H _] | [[H _] | (q & _ & H & _)]]; discriminate H.
  - intros Hkind. cbn [dispatcher_routes]. apply in_flat_map.
    destruct b as [c n v|c n v|c j v|c v|c p|t|ty]; cbn in Hk;
      try discriminate; cbn [well_formed] in Hwf; unfold in_range in Hwf;
      cbn [osc_of_midi] in He.
    + exists (c + 1). split; [apply In_range; lia|].
      destruct (v >? 0); [injection He as <- _ _; now left|].
      destruct (v =? 0); [|discriminate].
      injection He as <- _ _. right; now left.
    + exists (c + 1). split; [apply In_range; lia|].
      injection He as <- _ _. right; now left.
    + exists (c + 1). split; [apply In_range; lia|].
      injection He as <- _ _. right; right.
      apply in_map_iff. exists j. split; [reflexivity|].
      apply In_range. lia.
    + injection Hk as <-. destruct Hkind as [H | [H | H]]; discriminate H.
    + injection Hk as <-. destruct Hkind as [H | [H | H]]; discriminate H.
Qed.

(** A control change is routed back; an aftertouch would not be. *)
Lemma routed_back_iff_note_or_control_witness :
  In "/ch1cc7" (dispatcher_routes true 1) <->
  ControlChange = NoteOn \/ ControlChange = NoteOff \/
  ControlChange = ControlChange.
Proof.
  apply (routed_back_iff_note_or_control (control_change 0 7 100)
           ControlChange "/ch1cc7" "control_change" 100 1).
  - reflexivity.
  - unfold well_formed, in_range. lia.
  - reflexivity.
Defined.

End RoutesFacts.

(* ================================================================== *)
(** * The on-screen keyboard, the listener and the intake of files *)
(* ================================================================== *)

Section Sources.

Local Open Scope py_scope.

Lemma key_to_note_range (key_label : string) :
  60 <= dict_get key_to_note_on key_label 60 <= 72.
Proof.
  unfold key_to_note_on. cbn [dict_get].
  repeat (destruct (_ =? key_label)%string; [lia|]). lia.
Qed.

(** X6.  A key of the on-screen keyboard, pressed and released on a
    channel of 1..16, sends a note between 60 and 72, the same for both
    messages whatever the label; a bridge that receives the two messages
    plays the note on and off on the 0-based channel. *)
Theorem piano_key_is_played (roll : PianoRoll) (key_label : string)
    (receiver : App) (t1 now1 t2 now2 : Q) (port : list Message)
    (sent : list (string * Z)) :
  piano_client roll = Some sent -> 1 <= piano_channel roll <= 16 ->
  paused receiver = false -> midi_out receiver = Some port ->
  exists note a_on a_off r1 r2,
    note_on_message roll key_label = Some (a_on, note) /\
    note_off_message roll key_label = Some (a_off, note) /\
    60 <= note <= 72 /\
    handle_osc_message receiver t1 now1 a_on [ArgInt note] = Ok r1 /\
    handle_osc_message r1 t2 now2 a_off [ArgInt note] = Ok r2 /\
    midi_out r2 =
      Some (port ++ [mkMessage 0 (note_on (piano_channel roll - 1) note 100);
                     mkMessage 0 (note_off (piano_channel roll - 1) note 0)])%list.
Proof.
  intros Hclient Hch Hp Hport.
  set (note := dict_get key_to_note_on key_label 60).
  pose proof (key_to_note_range key_label) as Hnote. fold note in Hnote.
  set (c := piano_channel roll - 1).
  assert (piano_channel roll = c + 1) as Hc by (unfold c; lia).
  destruct (encoded_message_is_delivered (note_on c note 100) NoteOn
              ("/ch" ++ format_int (c + 1) ++ "note") "note_on" note
              receiver t1 now1 port) as (r1 & H1 & Hout1 & Hp1);
    try reflexivity; try assumption.
  { unfold well_formed, in_range, c. lia. }
  destruct (encoded_message_is_delivered (note_off c note 0) NoteOff
              ("/ch" ++ format_int (c + 1) ++ "noff") "note_off" note
              r1 t2 now2
              (port ++ [mkMessage 0 (decoded_image (note_on c note 100))])%list)
    as (r2 & H2 & Hout2 & _);
    try reflexivity; try assumption.
  { unfold well_formed, in_range, c. lia. }
  exists note, ("/ch" ++ format_int (c + 1) ++ "note"),
    ("/ch" ++ format_int (c + 1) ++ "noff"), r1, r2.
  unfold note_on_message, note_off_message. rewrite Hclient, Hc.
  split; [reflexivity|]. split; [reflexivity|]. split; [exact Hnote|].
  split; [exact H1|]. split; [exact H2|].
  rewrite Hout2. cbn [decoded_image Z.eqb]. now rewrite <- app_assoc.
Qed.

(** The key F sharp on channel 2. *)
Lemma piano_key_is_played_witness :
  exists note a_on a_off r1 r2,
    note_on_message (mkPianoRoll (Some []) 2) "F#" = Some (a_on, note) /\
    note_off_message (mkPianoRoll (Some []) 2) "F#" = Some (a_off, note) /\
    60 <= note <= 72 /\
    handle_osc_message (set_midi_out init (Some [])) 0 0 a_on [ArgInt note]
    = Ok r1 /\
    handle_osc_message r1 0 0 a_off [ArgInt note] = Ok r2 /\
    midi_out r2 =
      Some ([] ++ [mkMessage 0 (note_on (2 - 1) note 100);
                   mkMessage 0 (note_off (2 - 1) note 0)])%list.
Proof.
  apply (piano_key_is_played (mkPianoRoll (Some []) 2) "F#"
           (set_midi_out init (Some [])) 0 0 0 0 [] []).
  - reflexivity.
  - cbn. lia.
  - reflexivity.
  - reflexivity.
Defined.

(** ** The listener *)

Lemma run_midi_input_step_client (self : App) (now : Q) (msg : Message)
    (sent : list (string * Z)) :
  osc_client self = Some sent ->
  exists self',
    run_midi_input_step self now msg = Ok self' /\
    osc_client self' = Some (sent ++ encodings [msg])%list /\
    midi_out self' = midi_out self.
Proof.
  intros Hc. unfold run_midi_input_step, encodings. cbn [flat_map].
  destruct (osc_of_midi (body msg)) as [[[address arg] kind]|].
  - rewrite Hc. cbn [send_message bind]. eexists. split; [reflexivity|].
    split; [|reflexivity]. cbn. rewrite ?app_nil_r. reflexivity.
  - exists self. split; [reflexivity|]. split; [|reflexivity].
    cbn. now rewrite ?app_nil_r.
Qed.

Lemma encodings_cons (msg : Message) (msgs : list Message) :
  encodings (msg :: msgs) = (encodings [msg] ++ encodings msgs)%list.
Proof. unfold encodings. cbn [flat_map]. now rewrite app_nil_r. Qed.

Lemma run_midi_input_loop_client (input : list (Q * Message)) :
  forall self sent,
    osc_client self = Some sent ->
    exists self',
      run_midi_input_loop self "Stop Server" input = Ok self' /\
      osc_client self' = Some (sent ++ encodings (map snd input))%list /\
      midi_out self' = midi_out self.
Proof.
  induction input as [|[now msg] input IH]; intros self sent Hc.
  - exists self. cbn. now rewrite app_nil_r.
  - cbn [run_midi_input_loop map snd String.eqb Ascii.eqb Bool.eqb negb].
    destruct (run_midi_input_step_client self now msg sent Hc)
      as (s1 & -> & Hc1 & Ho1). cbn [bind].
    destruct (IH s1 _ Hc1) as (s2 & -> & Hc2 & Ho2).
    exists s2. split; [reflexivity|].
    rewrite encodings_cons, app_assoc. split; [exact Hc2 | congruence].
Qed.

(** X7.  While the server runs, the listener forwards the translatable
    messages of its input in the order they arrive, each once, skips the
    others, and never fails; with the server stopped it forwards
    nothing. *)
Theorem listener_forwards_in_order (self : App) (input : list (Q * Message))
    (sent : list (string * Z)) :
  osc_client self = Some sent ->
  (exists self',
     run_midi_input self true "Stop Server" input = Ok self' /\
     osc_client self' = Some (sent ++ encodings (map snd input))%list /\
     midi_out self' = midi_out self) /\
  (forall start_button,
     (start_button =? "Stop Server")%string = false ->
     run_midi_input self true start_button input = Ok self).
Proof.
  intros Hc. split.
  - unfold run_midi_input. rewrite Hc.
    now apply run_midi_input_loop_client.
  - intros start_button Hb. unfold run_midi_input. rewrite Hc.
    destruct input as [|[now msg] input]; [reflexivity|].
    cbn [run_midi_input_loop]. now rewrite Hb.
Qed.

(** A note, a program change and a controller arriving in that order. *)
Lemma listener_forwards_in_order_witness :
  exists self',
    run_midi_input (start_server init) true "Stop Server"
      [(0%Q, mkMessage 0 (note_on 0 60 100));
       (1%Q, mkMessage 0 (other "program_change"));
       (2%Q, mkMessage 0 (control_change 1 7 90))] = Ok self' /\
    osc_client self' = Some ([] ++ [("/ch1note", 60); ("/ch2cc7", 90)])%list.
Proof.
  destruct (listener_forwards_in_order (start_server init)
              [(0%Q, mkMessage 0 (note_on 0 60 100));
               (1%Q, mkMessage 0 (other "program_change"));
               (2%Q, mkMessage 0 (control_change 1 7 90))] [])
    as [(self' & H1 & H2 & _) _].
  - reflexivity.
  - exists self'. split; [exact H1 | exact H2].
Defined.

(** ** Dropped files *)

Lemma endswith_iff (s suffix : string) :
  endswith s suffix = true <-> exists pre, s = pre ++ suffix.
Proof.
  split.
  - induction s as [|c s IH]; cbn [endswith]; intros H;
      apply orb_true_iff in H as [H | H].
    + apply String.eqb_eq in H. subst. now exists EmptyString.
    + discriminate.
    + apply String.eqb_eq in H. subst. now exists EmptyString.
    + destruct (IH H) as [pre ->]. now exists (String c pre).
  - intros [pre ->]. induction pre as [|c pre IH].
    + cbn [append]. destruct suffix; cbn [endswith];
        now rewrite String.eqb_refl.
    + cbn [append endswith]. rewrite IH. apply orb_true_r.
Qed.

Lemma lower_split (a b : string) :
  forall s, lower s = a ++ b ->
            exists s1 s2, s = s1 ++ s2 /\ lower s1 = a /\ lower s2 = b.
Proof.
  induction a as [|c a IH]; intros s H.
  - exists EmptyString, s. now repeat split.
  - destruct s as [|d s]; [discriminate|]. cbn in H. injection H as Hc H.
    destruct (IH s H) as (s1 & s2 & -> & H1 & H2).
    exists (String d s1), s2. cbn. now rewrite Hc, H1.
Qed.

Lemma handle_dropped_files_fields (file_list : list string) :
  forall self,
    let self' := handle_dropped_files self file_list in
    midi_playlist self' =
      (midi_playlist self
       ++ filter (fun path => endswith (lower path) ".mid") file_list)%list /\
    current_playlist_index self' = current_playlist_index self /\
    playing self' = playing self /\ paused self' = paused self /\
    request_stop self' = request_stop self /\
    thread_alive self' = thread_alive self.
Proof.
  induction file_list as [|path l IH]; intros self; cbn zeta.
  - cbn. now rewrite app_nil_r.
  - cbn [handle_dropped_files filter].
    destruct (endswith (lower path) ".mid");
      match goal with
      | |- context [handle_dropped_files ?s l] =>
          destruct (IH s) as (-> & -> & -> & -> & -> & ->)
      end; cbn; rewrite <- ?app_assoc; repeat split.
Qed.

(** X8.  Dropping a list of paths appends to the playlist, in their
    order, exactly those whose last four characters are [.mid] in any
    mix of cases; the entries already there keep their places, and the
    current index and the playback flags are left alone. *)
Theorem dropped_files_are_filtered (self : App) (file_list : list string) :
  let self' := handle_dropped_files self file_list in
  let accepted :=
    filter (fun path => endswith (lower path) ".mid") file_list in
  midi_playlist self' = (midi_playlist self ++ accepted)%list /\
  (forall path,
     In path accepted <->
     In path file_list /\
     exists pre ext, path = pre ++ ext /\ lower ext = ".mid") /\
  current_playlist_index self' = current_playlist_index self /\
  playing self' = playing self /\ paused self' = paused self /\
  request_stop self' = request_stop self.
Proof.
  cbv zeta.
  destruct (handle_dropped_files_fields file_list self)
    as (Hl & Hi & Hp & Hpa & Hr & _).
  split; [exact Hl|]. split; [|now repeat split].
  intros path. rewrite filter_In. split.
  - intros [Hin He]. split; [exact Hin|].
    apply endswith_iff in He as [pre He].
    destruct (lower_split pre ".mid" path He) as (s1 & s2 & -> & _ & H2).
    now exists s1, s2.
  - intros [Hin (pre & ext & -> & He)]. split; [exact Hin|].
    apply endswith_iff. exists (lower pre).
    clear Hin. induction pre as [|c pre IH]; cbn; [exact He|].
    now rewrite IH.
Qed.

End Sources.

(* ================================================================== *)
(** * The player: one file *)
(* ================================================================== *)

Section PlayerFile.

Local Open Scope py_scope.

Lemma same_controls_refl (s : App) : same_controls s s.
Proof. unfold same_controls. repeat split. Qed.

Lemma same_controls_trans (s1 s2 s3 : App) :
  same_controls s1 s2 -> same_controls s2 s3 -> same_controls s1 s3.
Proof. unfold same_controls. intuition congruence. Qed.

(** The emission of an event touches the OSC client, the log and the
    history only. *)
Lemma play_event_client (self : App) (now : Q) (msg : Message)
    (sent : list (string * Z)) :
  osc_client self = Some sent ->
  exists self',
    play_event self now msg = Ok self' /\
    osc_client self' = Some (sent ++ encodings [msg])%list /\
    same_controls self self'.
Proof.
  intros Hc. unfold play_event, encodings. cbn [flat_map].
  destruct (osc_of_midi (body msg)) as [[[address arg] kind]|].
  - rewrite Hc. cbn [send_message bind]. eexists. split; [reflexivity|].
    split; [cbn; rewrite ?app_nil_r; reflexivity|].
    unfold same_controls. repeat split.
  - exists self. split; [reflexivity|].
    split; [cbn; now rewrite ?app_nil_r | apply same_controls_refl].
Qed.

(** ** Delays *)







(** ** The merged sequence of a file without negative delta times *)



(** ** A file played without interruption *)

Lemma finally_running (self : App) (file_path : string) :
  playing self = true -> request_stop self = false ->
  finally self file_path = self.
Proof. intros Hp Hr. unfold finally. now rewrite Hp, Hr. Qed.






End PlayerFile.

(* ================================================================== *)
(** * The player: pause and stop *)
(* ================================================================== *)

Section PlayerPause.

Local Open Scope py_scope.

Lemma toggle_pause_fields (s : App) :
  paused (toggle_pause s) = negb (paused s) /\
  same_outputs s (toggle_pause s) /\
  tempo_microseconds_per_beat (toggle_pause s) = tempo_microseconds_per_beat s /\
  playing (toggle_pause s) = playing s /\
  request_stop (toggle_pause s) = request_stop s.
Proof.
  unfold toggle_pause, same_outputs. cbn.
  destruct (negb (paused s)); repeat split.
Qed.

(** The emission of an event looks at the client, the history and the
    tempo only, and keeps the flags. *)
Lemma emit_sim (s1 s2 : App) (now : Q) (p1 p2 : Position) (abs_time : Z)
    (msg : Message) (tail : list (Z * Message)) :
  same_outputs s1 s2 ->
  tempo_microseconds_per_beat s1 = tempo_microseconds_per_beat s2 ->
  ticks_per_beat_of p1 = ticks_per_beat_of p2 ->
  previous_abs_time p1 = previous_abs_time p2 ->
  match emit s1 now p1 abs_time msg tail, emit s2 now p2 abs_time msg tail with
  | Ok (s1', p1', d1), Ok (s2', p2', d2) =>
      d1 = d2 /\ p1' = p2' /\ polling p1' = false /\ rest p1' = tail /\
      same_outputs s1' s2' /\
      tempo_microseconds_per_beat s1' = tempo_microseconds_per_beat s1 /\
      tempo_microseconds_per_beat s2' = tempo_microseconds_per_beat s2 /\
      playing s1' = playing s1 /\ request_stop s1' = request_stop s1 /\
      paused s1' = paused s1 /\
      playing s2' = playing s2 /\ request_stop s2' = request_stop s2 /\
      paused s2' = paused s2
  | Raise _, Raise _ => True
  | _, _ => False
  end.
Proof.
  intros [Hc Hh] Hu Ht Hp. unfold emit. rewrite Hu, Ht, Hp.
  destruct (tick2second _ _ _) as [d|e]; cbn [bind]; [|exact I].
  destruct (sleep d) as [d'|e]; cbn [bind]; [|exact I].
  unfold play_event.
  destruct (osc_of_midi (body msg)) as [[[address arg] kind]|]; cbn [bind].
  - rewrite Hc. destruct (osc_client s2) as [sent|]; cbn [send_message bind];
      [|exact I].
    unfold same_outputs. cbn. rewrite Hh. repeat split; congruence.
  - unfold same_outputs. repeat split; congruence.
Qed.

(** Once the messages are exhausted nothing more is slept or sent. *)
Lemma run_exhausted (file_path : string) (schedule : list Action) :
  forall s p slept s' o' slept',
    running s -> rest p = [] ->
    play_single_midi_run s file_path p schedule slept = (s', o', slept') ->
    slept' = slept /\ same_outputs s s' /\ remaining o' = [].
Proof.
  induction schedule as [|[now|] schedule IH];
    intros s p slept s' o' slept' [Hpl Hrs] Hr Hrun.
  - cbn in Hrun. injection Hrun as <- <- <-. now repeat split.
  - cbn [play_single_midi_run] in Hrun.
    unfold play_single_midi_step in Hrun. rewrite Hr in Hrun.
    rewrite (finally_running s file_path Hpl Hrs) in Hrun.
    injection Hrun as <- <- <-. now repeat split.
  - cbn [play_single_midi_run] in Hrun.
    destruct (toggle_pause_fields s) as (_ & Ho & _ & Hpl' & Hrs').
    destruct (IH (toggle_pause s) p slept s' o' slept') as (H1 & H2 & H3);
      [split; congruence | exact Hr | exact Hrun |].
    split; [exact H1|]. split; [|exact H3].
    destruct Ho, H2. split; congruence.
Qed.

(** The run under a schedule and the run under its effective steps, from
    states with the same outputs. *)
Lemma run_effective (file_path : string) (schedule : list Action) :
  forall s1 s2 p1 p2 slept s1' o1 d1 s2' o2 d2,
    running s1 -> running s2 -> paused s2 = false ->
    same_outputs s1 s2 ->
    tempo_microseconds_per_beat s1 = tempo_microseconds_per_beat s2 ->
    ticks_per_beat_of p1 = ticks_per_beat_of p2 ->
    rest p1 = rest p2 -> previous_abs_time p1 = previous_abs_time p2 ->
    polling p2 = false ->
    play_single_midi_run s1 file_path p1 schedule slept = (s1', o1, d1) ->
    play_single_midi_run s2 file_path p2 (effective (paused s1) schedule) slept
    = (s2', o2, d2) ->
    d1 = d2 /\ same_outputs s1' s2' /\ remaining o1 = remaining o2.
Proof.
  induction schedule as [|[now|] schedule IH];
    intros s1 s2 p1 p2 slept s1' o1 d1 s2' o2 d2
      R1 R2 Hpa2 Ho Hu Ht Hr Hp Hpo2 Hrun1 Hrun2.
  - cbn in Hrun1, Hrun2. injection Hrun1 as <- <- <-.
    injection Hrun2 as <- <- <-.
    split; [reflexivity|]. split; [exact Ho | exact Hr].
  - (* a step of the thread *)
    cbn [play_single_midi_run] in Hrun1.
    unfold play_single_midi_step in Hrun1.
    destruct R1 as [Hpl1 Hrs1].
    destruct (rest p1) as [|[abs_time msg] tail] eqn:Er1.
    + (* nothing left: the method returns *)
      rewrite (finally_running s1 file_path Hpl1 Hrs1) in Hrun1.
      injection Hrun1 as <- <- <-.
      destruct (run_exhausted file_path _ s2 p2 slept s2' o2 d2 R2
                  (eq_sym Hr) Hrun2) as (H1 & H2 & H3).
      split; [now rewrite H1|]. split; [|now rewrite H3].
      destruct Ho, H2. split; congruence.
    + rewrite Hpl1, Hrs1 in Hrun1. cbn [negb orb andb] in Hrun1.
      rewrite andb_false_r, andb_true_r in Hrun1.
      cbn [effective] in Hrun2.
      destruct (paused s1) eqn:Hpa1.
      * (* a poll: the effective schedule has no step here *)
        apply (IH s1 s2
                 (mkPosition (ticks_per_beat_of p1) (rest p1)
                    (previous_abs_time p1) true) p2 slept s1' o1 d1 s2' o2 d2);
          try assumption; try (now split).
        -- cbn. now rewrite Er1.
        -- rewrite Er1. exact Hrun1.
        -- now rewrite Hpa1.
      * (* an emission on both sides *)
        cbn [play_single_midi_run] in Hrun2.
        unfold play_single_midi_step in Hrun2. rewrite <- Hr in Hrun2.
        destruct R2 as [Hpl2 Hrs2].
        rewrite Hpo2, Hpl2, Hrs2, Hpa2 in Hrun2.
        cbn [negb orb andb] in Hrun2.
        pose proof (emit_sim s1 s2 now p1 p2 abs_time msg tail Ho Hu Ht Hp)
          as He.
        destruct (emit s1 now p1 abs_time msg tail) as [[[t1 q1] e1]|e1];
          destruct (emit s2 now p2 abs_time msg tail) as [[[t2 q2] e2]|e2];
          try contradiction.
        -- destruct He as (-> & <- & Hpo' & Hr' & Ho' & Hu1 & Hu2 & Hpl1' &
                           Hrs1' & Hpa1' & Hpl2' & Hrs2' & Hpa2').
           apply (IH t1 t2 q1 q1 (slept ++ [e2])%list s1' o1 d1 s2' o2 d2);
             try reflexivity; try assumption; try congruence;
             try (split; congruence).
        -- injection Hrun1 as <- <- <-. injection Hrun2 as <- <- <-.
           split; [reflexivity|]. split; [|reflexivity].
           unfold finally. destruct Ho as [Hc Hh].
           destruct (negb _ || _); destruct (negb _ || _);
             split; cbn; assumption.
  - (* a press on the pause button *)
    cbn [play_single_midi_run] in Hrun1. cbn [effective] in Hrun2.
    destruct (toggle_pause_fields s1) as (Hpa' & Ho' & Hu' & Hpl' & Hrs').
    destruct R1 as [Hpl1 Hrs1]. destruct Ho as [Hc Hh], Ho' as [Hc' Hh'].
    apply (IH (toggle_pause s1) s2 p1 p2 slept s1' o1 d1 s2' o2 d2);
      try assumption; try congruence; try (split; congruence).
Qed.

(** X11.  Pausing is transparent.  Whatever presses on the pause button
    and polls of the pause loop a schedule has, the delays slept before
    the events, the messages sent, the records written and the messages
    still to be played are those of the schedule reduced to the steps
    that find the player not paused: the time spent paused is not
    counted in any delay, and no message is skipped or played twice.
    (The two runs may differ in whether the thread stands inside the
    pause loop, and in whether it has noticed the end of the file.) *)
Theorem pause_is_transparent (self : App) (file_path : string) (p : Position)
    (schedule : list Action) :
  playing self = true -> request_stop self = false -> polling p = false ->
  let r1 := play_single_midi_run self file_path p schedule [] in
  let r2 :=
    play_single_midi_run (set_paused self false) file_path p
      (effective (paused self) schedule) [] in
  snd r1 = snd r2 /\ same_outputs (fst (fst r1)) (fst (fst r2)) /\
  remaining (snd (fst r1)) = remaining (snd (fst r2)).
Proof.
  intros Hpl Hrs Hpo r1 r2.
  destruct r1 as [[s1' o1] d1] eqn:E1. destruct r2 as [[s2' o2] d2] eqn:E2.
  cbn [fst snd].
  apply (run_effective file_path schedule self (set_paused self false) p p []
           s1' o1 d1 s2' o2 d2); try reflexivity; try assumption;
    now split.
Qed.

(** Two events, the pause button pressed after the first and again two
    polls later. *)
Lemma pause_is_transparent_witness :
  let self := play (set_midi_playlist (start_server init) ["a.mid"]) in
  let p :=
    mkPosition 480
      [(0, mkMessage 0 (note_on 0 60 100));
       (480, mkMessage 480 (note_off 0 60 0))] 0 false in
  let r1 :=
    play_single_midi_run self "a.mid" p
      [Tick 0; PressPause; Tick 1; Tick 2; PressPause; Tick 3] [] in
  let r2 :=
    play_single_midi_run (set_paused self false) "a.mid" p
      [Tick 0; Tick 3] [] in
  snd r1 = snd r2 /\ same_outputs (fst (fst r1)) (fst (fst r2)) /\
  remaining (snd (fst r1)) = remaining (snd (fst r2)).
Proof.
  cbv zeta.
  apply (pause_is_transparent
           (play (set_midi_playlist (start_server init) ["a.mid"])) "a.mid"
           (mkPosition 480
              [(0, mkMessage 0 (note_on 0 60 100));
               (480, mkMessage 480 (note_off 0 60 0))] 0 false)
           [Tick 0; PressPause; Tick 1; Tick 2; PressPause; Tick 3]);
    reflexivity.
Defined.

(** ** A stop request that reaches a paused player *)

Lemma stop_fields (s : App) :
  playing (stop s) = false /\
  midi_playlist (stop s) = [] /\ current_playlist_index (stop s) = 0 /\
  osc_client (stop s) = osc_client s /\
  sent_messages (stop s) = sent_messages s /\
  tempo_microseconds_per_beat (stop s) = tempo_microseconds_per_beat s /\
  (playing s = true -> request_stop (stop s) = true /\ paused (stop s) = false).
Proof.
  unfold stop. destruct (playing s) eqn:E; cbn; repeat split; intros;
    try reflexivity; congruence.
Qed.




End PlayerPause.

(* ================================================================== *)
(** * The player: the playlist *)
(* ================================================================== *)

Section PlayerPlaylist.

Local Open Scope py_scope.

Variable open_file : string -> result MidiFile.

Lemma play_event_controls (s s' : App) (now : Q) (msg : Message) :
  play_event s now msg = Ok s' -> same_controls s s'.
Proof.
  unfold play_event.
  destruct (osc_of_midi (body msg)) as [[[address arg] kind]|].
  - destruct (send_message _ _ _) as [client|]; cbn [bind]; [|discriminate].
    intros H; injection H as <-. unfold same_controls. repeat split.
  - intros H; injection H as <-. apply same_controls_refl.
Qed.

Lemma finally_controls (s : App) (file_path : string) :
  same_controls s (finally s file_path).
Proof.
  unfold finally. destruct (negb _ || _); unfold same_controls; repeat split.
Qed.

Lemma log_message_controls (s : App) (e : LogEntry) :
  same_controls s (log_message s e).
Proof. unfold same_controls. repeat split. Qed.

(** What a step inside a file can do to the controls and the position. *)
Lemma play_single_midi_step_controls (s : App) (file_path : string) (now : Q)
    (p : Position) :
  match play_single_midi_step s file_path now p with
  | Polled s' p' => s' = s /\ rest p' = rest p /\ polling p' = true
  | Emitted s' p' _ =>
      same_controls s s' /\ polling p' = false /\
      exists x, rest p = x :: rest p'
  | Returned s' => same_controls s s'
  end.
Proof.
  unfold play_single_midi_step.
  destruct (rest p) as [|[abs_time msg] tail] eqn:Er;
    [apply finally_controls|].
  destruct (negb (polling p) && _).
  { eapply same_controls_trans;
      [apply log_message_controls | apply finally_controls]. }
  destruct (paused s && playing s && negb (request_stop s)).
  { cbn. repeat split. }
  unfold emit.
  destruct (tick2second _ _ _) as [d|e]; cbn [bind].
  2:{ eapply same_controls_trans;
        [apply log_message_controls | apply finally_controls]. }
  destruct (sleep d) as [d'|e]; cbn [bind].
  2:{ eapply same_controls_trans;
        [apply log_message_controls | apply finally_controls]. }
  destruct (play_event s now msg) as [s'|e] eqn:Ee; cbn [bind].
  - split; [now apply (play_event_controls s s' now msg)|].
    split; [reflexivity|]. now exists (abs_time, msg).
  - eapply same_controls_trans;
      [apply log_message_controls | apply finally_controls].
Qed.

Lemma getitem_in_range {A : Type} (l : list A) (i : Z) :
  0 <= i < Z.of_nat (List.length l) ->
  exists x, getitem l i = Ok x /\ nth_error l (Z.to_nat i) = Some x.
Proof.
  intros H. unfold getitem.
  destruct (i <? 0) eqn:E; [apply Z.ltb_lt in E; lia|].
  assert (((0 <=? i) && (i <? Z.of_nat (List.length l))) = true) as ->.
  { apply andb_true_iff. split; [apply Z.leb_le | apply Z.ltb_lt]; lia. }
  destruct (nth_error l (Z.to_nat i)) as [x|] eqn:En; [now exists x|].
  apply nth_error_None in En. lia.
Qed.

Lemma player_on_controls (loop pause : bool) (files : list string)
    (s s' : App) :
  same_controls s s' -> player_on loop pause files s ->
  player_on loop pause files s'.
Proof.
  unfold same_controls, player_on.
  intros (Hpl & Hlo & _ & _ & Hpa & Hrs & Hmp & Hix & _)
         (H1 & H2 & H3 & H4 & H5 & H6).
  repeat split; congruence.
Qed.

Lemma player_on_next (loop pause : bool) (files : list string) (s : App) :
  player_on loop pause files s ->
  player_on loop pause files (player_next_file s).
Proof.
  unfold player_on, player_next_file. cbn.
  intros (H1 & H2 & H3 & H4 & H5 & H6). repeat split; try assumption. lia.
Qed.

(** A step inside a file keeps playback on; when the method returns the
    index has moved by one. *)
Lemma play_playlist_step_in_file (loop pause : bool) (files : list string)
    (s : App) (now : Q) (file_path : string) (p : Position) :
  player_on loop pause files s ->
  player_on loop pause files
    (fst (play_playlist_step open_file s now (InFile file_path p))) /\
  alive (snd (play_playlist_step open_file s now (InFile file_path p))).
Proof.
  intros Hs. cbn [play_playlist_step].
  pose proof (play_single_midi_step_controls s file_path now p) as Hc.
  destruct (play_single_midi_step s file_path now p) as [s' p'|s' p' d|s'];
    cbn [fst snd].
  - destruct Hc as (-> & _). now split.
  - destruct Hc as (Hc & _). split; [|exact I].
    exact (player_on_controls _ _ _ _ _ Hc Hs).
  - split; [|exact I]. apply player_on_next.
    exact (player_on_controls _ _ _ _ _ Hc Hs).
Qed.

Lemma play_playlist_step_looping (pause : bool) (files : list string)
    (s : App) (now : Q) (t : Thread) :
  files <> [] -> player_on true pause files s -> alive t ->
  player_on true pause files (fst (play_playlist_step open_file s now t)) /\
  alive (snd (play_playlist_step open_file s now t)).
Proof.
  intros Hne Hs Ht. destruct t as [|file_path p| |e]; try contradiction.
  2: now apply play_playlist_step_in_file.
  pose proof Hs as (Hpl & Hrs & Hlo & Hpa & Hmp & Hix).
  unfold play_playlist_step. rewrite Hpl, Hrs, Hlo.
  cbn [negb andb]. rewrite andb_false_r.
  set (s1 := if current_playlist_index s >=? len (midi_playlist s)
             then set_current_playlist_index s 0 else s).
  assert (player_on true pause files s1 /\
          0 <= current_playlist_index s1 < len (midi_playlist s1))
    as [Hs1 Hr1].
  { unfold s1.
    destruct (current_playlist_index s >=? len (midi_playlist s)) eqn:E.
    - split; [unfold player_on; cbn; repeat split; try assumption; lia|].
      cbn. rewrite Hmp. pose proof (len_pos _ Hne). lia.
    - split; [exact Hs|]. rewrite Z.geb_leb in E. apply Z.leb_gt in E. lia. }
  destruct (getitem_in_range (midi_playlist s1) (current_playlist_index s1))
    as (f & -> & _); [exact Hr1|].
  unfold play_single_midi_enter.
  destruct (open_file f) as [midi|e]; cbn [fst snd].
  - split; [|exact I].
    exact (player_on_controls _ _ _ _ _ (log_message_controls _ _) Hs1).
  - split; [|exact I]. apply player_on_next.
    eapply player_on_controls; [apply finally_controls|].
    eapply player_on_controls; [apply log_message_controls|].
    exact (player_on_controls _ _ _ _ _ (log_message_controls _ _) Hs1).
Qed.

Lemma play_single_midi_step_not_polled (s : App) (file_path : string)
    (now : Q) (p : Position) :
  paused s && playing s = false ->
  match play_single_midi_step s file_path now p with
  | Polled _ _ => False
  | _ => True
  end.
Proof.
  intros Hp. unfold play_single_midi_step.
  destruct (rest p) as [|[abs_time msg] tail]; [exact I|].
  destruct (negb (polling p) && _); [exact I|].
  rewrite Hp. cbn [andb].
  now destruct (emit _ _ _ _ _ _) as [[[s' p'] d]|e].
Qed.

(** A thread that is not paused leaves the file it is in after a step
    for each message left and one more, or earlier when an error ends the
    file, and stands at the head of the loop with the index moved by
    one. *)
Lemma play_playlist_run_leaves_file (loop : bool) (files : list string)
    (file_path : string) (msgs : list (Z * Message)) :
  forall (clock : nat -> Q) (s : App) (p : Position),
    player_on loop false files s -> rest p = msgs ->
    exists k s',
      (1 <= k <= S (List.length msgs))%nat /\
      play_playlist_run open_file clock k s (InFile file_path p)
      = (s', AtLoop) /\
      player_on loop false files s' /\
      current_playlist_index s' = current_playlist_index s + 1.
Proof.
  induction msgs as [|x tl IH]; intros clock s p Hs Hr.
  - exists 1%nat, (player_next_file (finally s file_path)).
    split; [cbn; lia|]. split.
    + cbn [play_playlist_run play_playlist_step].
      unfold play_single_midi_step. now rewrite Hr.
    + split.
      * apply player_on_next.
        exact (player_on_controls _ _ _ _ _ (finally_controls _ _) Hs).
      * cbn. unfold finally. now destruct (negb _ || _).
  - pose proof (play_single_midi_step_controls s file_path (clock O) p) as Hc.
    pose proof (play_single_midi_step_not_polled s file_path (clock O) p)
      as Hnp.
    pose proof Hs as (Hpl & Hrs & Hlo & Hpa & Hmp & Hix).
    rewrite Hpa in Hnp. specialize (Hnp eq_refl).
    destruct (play_single_midi_step s file_path (clock O) p)
      as [s' p'|s' p' d|s'] eqn:E; [contradiction| |].
    + destruct Hc as (Hc & Hq' & (x' & Hx)).
      rewrite Hr in Hx. injection Hx as _ Htl.
      destruct (IH (fun k => clock (S k)) s' p') as (k & s2 & Hk & E2 & Hs2 & Hi2).
      * exact (player_on_controls _ _ _ _ _ Hc Hs).
      * now symmetry.
      * exists (S k), s2. split; [cbn [List.length]; lia|].
        split; [cbn [play_playlist_run play_playlist_step]; now rewrite E|].
        split; [exact Hs2|].
        rewrite Hi2. destruct Hc as (_ & _ & _ & _ & _ & _ & _ & <- & _).
        reflexivity.
    + exists 1%nat, (player_next_file s').
      split; [cbn [List.length]; lia|].
      split; [cbn [play_playlist_run play_playlist_step]; now rewrite E|].
      split.
      * apply player_on_next. exact (player_on_controls _ _ _ _ _ Hc Hs).
      * cbn. destruct Hc as (_ & _ & _ & _ & _ & _ & _ & <- & _).
        reflexivity.
Qed.

(** X13.  With looping on and a playlist that is not empty, the player
    thread never ends by itself and never dies, paused or not: playback
    stays on and the playlist is kept.  When it is not paused it goes
    round the playlist: from the head of its loop it takes the file at
    the index, the first one when the index is past the end, and is back
    at the head of the loop with the index one further after at most a
    step for each message of the file and two more, whatever fails
    inside the file; a file that cannot be read costs one step and
    leaves two lines in the log, the file played and the error. *)
Theorem looping_playback_goes_round (clock : nat -> Q) (self : App) :
  looping self = true -> playing self = true -> request_stop self = false ->
  midi_playlist self <> [] -> 0 <= current_playlist_index self ->
  (forall (n : nat) (t : Thread),
     alive t ->
     let r := play_playlist_run open_file clock n self t in
     alive (snd r) /\ playing (fst r) = true /\
     request_stop (fst r) = false /\
     midi_playlist (fst r) = midi_playlist self /\
     0 <= current_playlist_index (fst r)) /\
  (paused self = false ->
   let i :=
     if current_playlist_index self >=? len (midi_playlist self)
     then 0 else current_playlist_index self in
   exists f k self',
     getitem (midi_playlist self) i = Ok f /\
     (1 <= k <= file_steps open_file f)%nat /\
     play_playlist_run open_file clock k self AtLoop = (self', AtLoop) /\
     current_playlist_index self' = i + 1 /\
     looping self' = true /\ playing self' = true /\
     request_stop self' = false /\ paused self' = false /\
     midi_playlist self' = midi_playlist self /\
     (forall e,
        open_file f = Raise e ->
        k = 1%nat /\
        log self' = (log self ++ [LogText ("Playing: " ++ basename f);
                                  LogPlayError e])%list)).
Proof.
  intros Hlo Hpl Hrs Hne Hix. split.
  - intros n.
    assert (forall pause files clock s t,
               files <> [] -> player_on true pause files s -> alive t ->
               player_on true pause files
                 (fst (play_playlist_run open_file clock n s t)) /\
               alive (snd (play_playlist_run open_file clock n s t)))
      as Hinv.
    { induction n as [|n IH]; intros pause files clock' s t Hne' Hs Ht.
      - cbn. now split.
      - cbn [play_playlist_run].
        destruct (play_playlist_step_looping pause files s (clock' O) t
                    Hne' Hs Ht) as [Hs' Ht'].
        destruct (play_playlist_step open_file s (clock' O) t) as [s' t'].
        apply IH; assumption. }
    intros t Ht r.
    destruct (Hinv (paused self) (midi_playlist self) clock self t Hne)
      as [(H1 & H2 & H3 & H4 & H5 & H6) Ha]; [|exact Ht|].
    { unfold player_on. repeat split; assumption. }
    now repeat split.
  - intros Hpa i.
    set (s1 := if current_playlist_index self >=? len (midi_playlist self)
               then set_current_playlist_index self 0 else self).
    assert (player_on true false (midi_playlist self) s1 /\
            current_playlist_index s1 = i /\
            0 <= i < len (midi_playlist self) /\ log s1 = log self)
      as (Hs1 & Hi1 & Hr1 & Hl1).
    { unfold s1, i.
      destruct (current_playlist_index self >=? len (midi_playlist self))
        eqn:E.
      - split; [unfold player_on; cbn; repeat split; try assumption; lia|].
        split; [reflexivity|]. split; [|reflexivity].
        pose proof (len_pos _ Hne). lia.
      - split; [unfold player_on; repeat split; assumption|].
        split; [reflexivity|]. split; [|reflexivity].
        rewrite Z.geb_leb in E. apply Z.leb_gt in E. lia. }
    destruct (getitem_in_range (midi_playlist self) i) as (f & Hg & _);
      [exact Hr1|].
    exists f.
    assert (play_playlist_step open_file self (clock O) AtLoop
            = match play_single_midi_enter open_file s1 f with
              | (s, Some p) => (s, InFile f p)
              | (s, None) => (player_next_file s, AtLoop)
              end) as Hstep.
    { unfold play_playlist_step. rewrite Hpl, Hrs, Hlo.
      cbn [negb andb]. rewrite andb_false_r. fold s1.
      destruct Hs1 as (_ & _ & _ & _ & -> & _). now rewrite Hi1, Hg. }
    unfold play_single_midi_enter in Hstep. unfold file_steps.
    destruct (open_file f) as [midi|e] eqn:Eo.
    + set (s2 := log_message s1 (LogText ("Playing: " ++ basename f))) in *.
      assert (player_on true false (midi_playlist self) s2) as Hs2
        by exact (player_on_controls _ _ _ _ _ (log_message_controls _ _) Hs1).
      destruct (play_playlist_run_leaves_file true (midi_playlist self) f
                  (merged_messages midi) (fun k => clock (S k)) s2
                  (mkPosition (ticks_per_beat midi) (merged_messages midi) 0
                     false) Hs2 eq_refl)
        as (k & s3 & Hk & E3 & Hs3 & Hi3).
      exists (S k), s3. split; [exact Hg|]. split; [lia|].
      split; [cbn [play_playlist_run]; now rewrite Hstep|].
      destruct Hs3 as (H1 & H2 & H3 & H4 & H5 & _).
      split; [rewrite Hi3; cbn; now rewrite Hi1|].
      do 5 (split; [assumption|]). intros e0 He. discriminate He.
    + set (s2 := finally _ f) in *.
      assert (same_controls s1 s2) as Hc.
      { unfold s2. eapply same_controls_trans; [|apply finally_controls].
        eapply same_controls_trans; apply log_message_controls. }
      pose proof (player_on_next _ _ _ _
                    (player_on_controls _ _ _ _ _ Hc Hs1))
        as (H1 & H2 & H3 & H4 & H5 & _).
      exists 1%nat, (player_next_file s2). split; [exact Hg|].
      split; [lia|].
      split; [cbn [play_playlist_run]; now rewrite Hstep|].
      split.
      { cbn. destruct Hc as (_ & _ & _ & _ & _ & _ & _ & <- & _).
        now rewrite Hi1. }
      do 5 (split; [assumption|]).
      intros e' He'. injection He' as <-. split; [reflexivity|].
      unfold s2, finally.
      destruct Hs1 as (Hp1 & Hr1' & _). cbn [playing request_stop log_message].
      rewrite Hp1, Hr1'. cbn [negb orb]. cbn. rewrite Hl1.
      now rewrite <- app_assoc.
Qed.

(** ** Without looping *)

Lemma play_playlist_run_ended (n : nat) :
  forall (clock : nat -> Q) (s : App),
    play_playlist_run open_file clock n s Ended = (s, Ended).
Proof.
  induction n as [|n IH]; intros clock s; [reflexivity|].
  cbn [play_playlist_run play_playlist_step]. apply IH.
Qed.

(** From inside a file the thread is back at the head of the loop, one
    file further, after a step for each message left and one more, or
    earlier. *)
Lemma play_playlist_run_in_file (files : list string) (file_path : string)
    (msgs : list (Z * Message)) :
  forall (clock : nat -> Q) (n : nat) (s : App) (p : Position),
    player_on false false files s ->
    rest p = msgs -> polling p = false ->
    (S (List.length msgs) <= n)%nat ->
    exists s' clock' n',
      play_playlist_run open_file clock n s (InFile file_path p)
      = play_playlist_run open_file clock' n' s' AtLoop /\
      (n - S (List.length msgs) <= n')%nat /\
      player_on false false files s' /\
      current_playlist_index s' = current_playlist_index s + 1.
Proof.
  induction msgs as [|x tl IH]; intros clock n s p Hs Hr Hq Hn;
    (destruct n as [|n]; [cbn in Hn; lia|]);
    cbn [play_playlist_run play_playlist_step].
  - unfold play_single_midi_step. rewrite Hr.
    exists (player_next_file (finally s file_path)), (fun k => clock (S k)), n.
    split; [reflexivity|]. split; [lia|].
    split.
    + apply player_on_next.
      exact (player_on_controls _ _ _ _ _ (finally_controls _ _) Hs).
    + cbn. unfold finally. now destruct (negb _ || _).
  - pose proof (play_single_midi_step_controls s file_path (clock O) p) as Hc.
    pose proof (play_single_midi_step_not_polled s file_path (clock O) p)
      as Hnp.
    destruct Hs as (Hpl & Hrs & Hlo & Hpa & Hmp & Hix).
    rewrite Hpa in Hnp. specialize (Hnp eq_refl).
    assert (player_on false false files s) as Hs
      by (unfold player_on; repeat split; assumption).
    destruct (play_single_midi_step s file_path (clock O) p)
      as [s' p'|s' p' d|s']; [contradiction| |].
    + destruct Hc as (Hc & Hq' & (x' & Hx)).
      rewrite Hr in Hx. injection Hx as _ Htl.
      destruct (IH (fun k => clock (S k)) n s' p') as (s2 & clock2 & n2 & E & Hn2 & Hs2 & Hi2).
      * exact (player_on_controls _ _ _ _ _ Hc Hs).
      * now symmetry.
      * exact Hq'.
      * cbn [List.length] in Hn. lia.
      * exists s2, clock2, n2. split; [exact E|].
        split; [cbn [List.length]; lia|]. split; [exact Hs2|].
        rewrite Hi2. destruct Hc as (_ & _ & _ & _ & _ & _ & _ & <- & _).
        reflexivity.
    + exists (player_next_file s'), (fun k => clock (S k)), n.
      split; [reflexivity|]. split; [cbn [List.length]; lia|].
      split.
      * apply player_on_next. exact (player_on_controls _ _ _ _ _ Hc Hs).
      * cbn. destruct Hc as (_ & _ & _ & _ & _ & _ & _ & <- & _).
        reflexivity.
Qed.

Lemma skipn_cons_nth {A : Type} (k : nat) :
  forall (l : list A) (x : A) (r : list A),
    skipn k l = x :: r ->
    nth_error l k = Some x /\ skipn (S k) l = r /\ (k < List.length l)%nat.
Proof.
  induction k as [|k IH]; intros l x r H.
  - cbn in H. subst l. cbn. repeat split. lia.
  - destruct l as [|y l]; [discriminate|]. cbn [skipn] in H.
    destruct (IH l x r H) as (H1 & H2 & H3).
    cbn [nth_error List.length]. repeat split; [exact H1 | exact H2 | lia].
Qed.

(** The files from the index on are played one after the other, then
    the thread ends. *)
Lemma play_playlist_run_at_loop (files : list string) (remaining : list string) :
  forall (clock : nat -> Q) (n : nat) (s : App),
    player_on false false files s ->
    skipn (Z.to_nat (current_playlist_index s)) files = remaining ->
    (playlist_steps open_file remaining <= n)%nat ->
    exists s',
      play_playlist_run open_file clock n s AtLoop = (s', Ended) /\
      current_playlist_index s' = 0 /\ playing s' = false /\
      paused s' = false /\ request_stop s' = false /\
      thread_alive s' = false /\ midi_playlist s' = files.
Proof.
  induction remaining as [|f remaining IH]; intros clock n s Hs Hk Hn.
  - (* the index is past the last file *)
    destruct n as [|n]; [unfold playlist_steps in Hn; cbn in Hn; lia|].
    destruct Hs as (Hpl & Hrs & Hlo & Hpa & Hmp & Hix).
    assert ((current_playlist_index s >=? len (midi_playlist s)) = true) as E.
    { rewrite Z.geb_leb. apply Z.leb_le. rewrite Hmp. unfold len.
      pose proof (length_skipn (Z.to_nat (current_playlist_index s)) files) as L.
      rewrite Hk in L. cbn in L. lia. }
    cbn [play_playlist_run play_playlist_step].
    rewrite Hpl, Hrs, Hlo, E. cbn [negb andb].
    rewrite play_playlist_run_ended.
    eexists. split; [reflexivity|]. cbn. now repeat split.
  - destruct (skipn_cons_nth _ _ _ _ Hk) as (Hnth & Hk' & Hlt).
    pose proof Hs as (Hpl & Hrs & Hlo & Hpa & Hmp & Hix).
    assert ((current_playlist_index s >=? len (midi_playlist s)) = false) as E.
    { rewrite Z.geb_leb. apply Z.leb_gt. rewrite Hmp. unfold len. lia. }
    destruct (getitem_in_range (midi_playlist s) (current_playlist_index s))
      as (f' & Hg & Hnth').
    { rewrite Hmp. lia. }
    rewrite Hmp, Hnth in Hnth'. injection Hnth' as <-.
    unfold playlist_steps in Hn. cbn [fold_right] in Hn.
    set (later := fold_right _ _ remaining) in Hn.
    assert (forall s1,
               player_on false false files s1 ->
               current_playlist_index s1 = current_playlist_index s + 1 ->
               skipn (Z.to_nat (current_playlist_index s1)) files = remaining)
      as Hnext.
    { intros s1 _ ->.
      replace (Z.to_nat (current_playlist_index s + 1))
        with (S (Z.to_nat (current_playlist_index s))) by lia.
      exact Hk'. }
    destruct n as [|n];
      [unfold file_steps in Hn; destruct (open_file f); cbn in Hn; lia|].
    cbn [play_playlist_run play_playlist_step].
    rewrite Hpl, Hrs, Hlo, E. cbn [negb andb]. rewrite Hg.
    unfold play_single_midi_enter. unfold file_steps in Hn.
    destruct (open_file f) as [midi|e]; cbv beta iota in Hn.
    + set (s0 := log_message s (LogText ("Playing: " ++ basename f))).
      assert (player_on false false files s0) as Hs0
        by exact (player_on_controls _ _ _ _ _ (log_message_controls _ _) Hs).
      destruct (play_playlist_run_in_file files f (merged_messages midi)
                  (fun k => clock (S k)) n s0
                  (mkPosition (ticks_per_beat midi) (merged_messages midi) 0
                     false) Hs0 eq_refl eq_refl)
        as (s1 & clock1 & n1 & -> & Hn1 & Hs1 & Hi1); [lia|].
      apply IH; [exact Hs1 | now apply Hnext |].
      unfold playlist_steps. fold later. lia.
    + set (s0 := finally _ f).
      assert (same_controls s s0) as Hc.
      { unfold s0. eapply same_controls_trans; [|apply finally_controls].
        eapply same_controls_trans; apply log_message_controls. }
      assert (player_on false false files (player_next_file s0)) as Hs1.
      { apply player_on_next. exact (player_on_controls _ _ _ _ _ Hc Hs). }
      apply IH; [exact Hs1 | | unfold playlist_steps; fold later; lia].
      apply Hnext; [exact Hs1|]. cbn.
      destruct Hc as (_ & _ & _ & _ & _ & _ & _ & <- & _). reflexivity.
Qed.

(** X14.  Without looping and without pause the player thread ends by
    itself: whatever the files hold, those that cannot be read and those
    with events that fail included, it has ended after at most one step
    for each message of the files from the current index on, two more
    for each such file and one for the end of the playlist, and it leaves
    the index at 0, [playing] and [paused] cleared, [request_stop] clear
    and the playlist as it was, so that playback can be started again. *)
Theorem playlist_without_looping_ends (clock : nat -> Q) (n : nat)
    (self : App) :
  playing self = true -> request_stop self = false ->
  paused self = false -> looping self = false ->
  0 <= current_playlist_index self ->
  (playlist_steps open_file
     (skipn (Z.to_nat (current_playlist_index self)) (midi_playlist self))
   <= n)%nat ->
  exists self',
    play_playlist_run open_file clock n self AtLoop = (self', Ended) /\
    current_playlist_index self' = 0 /\ playing self' = false /\
    paused self' = false /\ request_stop self' = false /\
    thread_alive self' = false /\
    midi_playlist self' = midi_playlist self.
Proof.
  intros Hpl Hrs Hpa Hlo Hix Hn.
  apply (play_playlist_run_at_loop (midi_playlist self)
           (skipn (Z.to_nat (current_playlist_index self))
              (midi_playlist self)));
    [|reflexivity|exact Hn].
  unfold player_on. now repeat split.
Qed.

(** ** After a stop *)

Lemma stopped_at_loop (s : App) (now : Q) :
  playing s = false ->
  play_playlist_step open_file s now AtLoop
  = (play_playlist_epilogue s, Ended).
Proof. intros H. unfold play_playlist_step. now rewrite H. Qed.

Lemma stopped_in_file (s : App) (now : Q) (file_path : string)
    (p : Position) :
  playing s = false -> polling p = false ->
  exists s',
    play_playlist_step open_file s now (InFile file_path p) = (s', AtLoop) /\
    playing s' = false /\ midi_playlist s' = midi_playlist s /\
    same_outputs s s'.
Proof.
  intros Hpl Hq. cbn [play_playlist_step]. unfold play_single_midi_step.
  destruct (rest p) as [|[abs_time msg] tail].
  - eexists. split; [reflexivity|].
    unfold finally, same_outputs. rewrite Hpl. cbn. now repeat split.
  - rewrite Hq, Hpl. cbn [negb andb orb].
    eexists. split; [reflexivity|].
    unfold finally, same_outputs. cbn. rewrite Hpl. cbn. now repeat split.
Qed.

Lemma stopped_in_pause_loop (s : App) (now : Q) (file_path : string)
    (p : Position) :
  playing s = false ->
  exists s' t',
    play_playlist_step open_file s now (InFile file_path p) = (s', t') /\
    playing s' = false /\ midi_playlist s' = midi_playlist s /\
    (t' = AtLoop \/ exists p', t' = InFile file_path p' /\ polling p' = false).
Proof.
  intros Hpl. cbn [play_playlist_step].
  pose proof (play_single_midi_step_controls s file_path now p) as Hc.
  pose proof (play_single_midi_step_not_polled s file_path now p) as Hnp.
  rewrite Hpl, andb_false_r in Hnp. specialize (Hnp eq_refl).
  destruct (play_single_midi_step s file_path now p) as [s' p'|s' p' d|s'];
    [contradiction| |].
  - destruct Hc as ((Hc1 & _ & _ & _ & _ & _ & Hc2 & _) & Hq & _).
    exists s', (InFile file_path p'). split; [reflexivity|].
    split; [congruence|]. split; [now symmetry|]. right. now exists p'.
  - destruct Hc as (Hc1 & _ & _ & _ & _ & _ & Hc2 & _).
    exists (player_next_file s'), AtLoop. split; [reflexivity|].
    cbn. split; [congruence|]. split; [now symmetry|]. now left.
Qed.

(** The fields of the state in which the thread has ended. *)
Local Ltac ended :=
  unfold same_outputs in *; cbn;
  repeat split; intros; try discriminate; intuition congruence.

(** X15.  After [stop] the player thread ends, wherever it stands.  From
    the head of the playlist loop, the start of an iteration of a file or
    the pause loop it has ended within three of its steps, having run
    the end of [_play_playlist]: index 0, [playing], [paused] and the
    playlist cleared; from the first two places nothing more goes to the
    OSC client and the history.  A thread that was asleep before an event
    (line 967) sends the event when it wakes; from the state that leaves
    it has ended within two steps in the same way, with nothing more
    sent. *)
Theorem stop_ends_the_thread (clock : nat -> Q) (self : App) :
  (forall t : Thread,
     alive t ->
     exists self',
       play_playlist_run open_file clock 3 (stop self) t = (self', Ended) /\
       current_playlist_index self' = 0 /\ playing self' = false /\
       paused self' = false /\ thread_alive self' = false /\
       midi_playlist self' = [] /\
       (match t with InFile _ p => polling p = false | _ => True end ->
        same_outputs self self')) /\
  (forall (file_path : string) (p : Position) (now : Q) (msg : Message)
          (woken : App),
     polling p = false ->
     play_event (stop self) now msg = Ok woken ->
     exists self',
       play_playlist_run open_file clock 2 woken (InFile file_path p)
       = (self', Ended) /\
       current_playlist_index self' = 0 /\ playing self' = false /\
       paused self' = false /\ thread_alive self' = false /\
       midi_playlist self' = [] /\ same_outputs woken self').
Proof.
  destruct (stop_fields self) as (Hpl & Hmp & _ & Hoc & Hsm & _).
  assert (same_outputs self (stop self)) as Hout
    by (unfold same_outputs; now rewrite Hoc, Hsm).
  split.
  - intros t Ht.
    revert Hpl Hmp Hout. generalize (stop self) as s. intros s Hpl Hmp Hout.
    destruct t as [|file_path p| |e]; try contradiction.
    + cbn [play_playlist_run]. rewrite (stopped_at_loop s _ Hpl).
      cbn [play_playlist_step].
      eexists. split; [reflexivity|]. ended.
    + destruct (polling p) eqn:Hq.
      * destruct (stopped_in_pause_loop s (clock O) file_path p Hpl)
          as (s1 & t1 & E1 & Hpl1 & Hmp1 & [-> | (p1 & -> & Hq1)]).
        -- cbn [play_playlist_run]. rewrite E1. cbv beta iota.
           rewrite (stopped_at_loop s1 _ Hpl1). cbn [play_playlist_step].
           eexists. split; [reflexivity|]. ended.
        -- destruct (stopped_in_file s1 (clock 1%nat) file_path p1 Hpl1 Hq1)
             as (s2 & E2 & Hpl2 & Hmp2 & _).
           cbn [play_playlist_run]. rewrite E1. cbv beta iota.
           rewrite E2. cbv beta iota.
           rewrite (stopped_at_loop s2 _ Hpl2).
           eexists. split; [reflexivity|]. ended.
      * destruct (stopped_in_file s (clock O) file_path p Hpl Hq)
          as (s1 & E1 & Hpl1 & Hmp1 & Ho1 & Ho2).
        cbn [play_playlist_run]. rewrite E1. cbv beta iota.
        rewrite (stopped_at_loop s1 _ Hpl1). cbn [play_playlist_step].
        eexists. split; [reflexivity|]. ended.
  - intros file_path p now msg woken Hq He.
    destruct (play_event_controls _ _ _ _ He)
      as (Hpl' & _ & _ & _ & _ & _ & Hmp' & _).
    assert (playing woken = false) as Hplw by congruence.
    assert (midi_playlist woken = []) as Hmpw by congruence.
    destruct (stopped_in_file woken (clock O) file_path p Hplw Hq)
      as (s1 & E1 & Hpl1 & Hmp1 & Ho1 & Ho2).
    cbn [play_playlist_run]. rewrite E1. cbv beta iota.
    rewrite (stopped_at_loop s1 _ Hpl1).
    eexists. split; [reflexivity|]. ended.
Qed.

End PlayerPlaylist.

(** One file of two events, looped: after nine steps the thread is
    alive, and four steps take it through the file and back to the head
    of the loop, the index at 1, from where it wraps. *)
Lemma looping_playback_goes_round_witness :
  let open_file := fun _ : string =>
    Ok (mkMidiFile 480
          [[mkMessage 0 (note_on 0 60 100); mkMessage 480 (note_off 0 60 0)]]) in
  let self :=
    mkApp true true 120 (500000 # 1) false false ["a.mid"] 0 [] (Some [])
      (Some []) 120 true [] in
  alive (snd (play_playlist_run open_file (fun _ => 0%Q) 9 self AtLoop)) /\
  exists f k self',
    getitem ["a.mid"] 0 = Ok f /\ (1 <= k <= file_steps open_file f)%nat /\
    play_playlist_run open_file (fun _ => 0%Q) k self AtLoop
    = (self', AtLoop) /\
    current_playlist_index self' = 1.
Proof.
  cbv zeta.
  destruct (looping_playback_goes_round
              (fun _ : string =>
                 Ok (mkMidiFile 480
                       [[mkMessage 0 (note_on 0 60 100);
                         mkMessage 480 (note_off 0 60 0)]]))
              (fun _ => 0%Q)
              (mkApp true true 120 (500000 # 1) false false ["a.mid"] 0 []
                 (Some []) (Some []) 120 true []))
    as (H1 & H2).
  - reflexivity.
  - reflexivity.
  - reflexivity.
  - discriminate.
  - cbn. lia.
  - split; [exact (proj1 (H1 9%nat AtLoop I))|].
    destruct (H2 eq_refl) as (f & k & self' & Hf & Hk & Hrun & Hi & _).
    exists f, k, self'. repeat split; try assumption; apply Hk.
Defined.

(** Two files, the first of which cannot be read. *)
Lemma playlist_without_looping_ends_witness :
  let open_file := fun path : string =>
    if String.eqb path "a.mid" then Raise ValueError
    else
      Ok (mkMidiFile 480
            [[mkMessage 0 (note_on 0 60 100);
              mkMessage 480 (note_off 0 60 0)]]) in
  let self :=
    play (set_midi_playlist (start_server init) ["a.mid"; "b.mid"]) in
  exists self',
    play_playlist_run open_file (fun _ => 0%Q) 6 self AtLoop = (self', Ended) /\
    current_playlist_index self' = 0 /\ playing self' = false /\
    paused self' = false /\ request_stop self' = false /\
    thread_alive self' = false /\
    midi_playlist self' = ["a.mid"; "b.mid"].
Proof.
  cbv zeta.
  apply (playlist_without_looping_ends
           (fun path : string =>
              if String.eqb path "a.mid" then Raise ValueError
              else
                Ok (mkMidiFile 480
                      [[mkMessage 0 (note_on 0 60 100);
                        mkMessage 480 (note_off 0 60 0)]]))
           (fun _ => 0%Q) 6
           (play (set_midi_playlist (start_server init) ["a.mid"; "b.mid"]))).
  - reflexivity.
  - reflexivity.
  - reflexivity.
  - reflexivity.
  - cbn. lia.
  - vm_compute. lia.
Defined.

(** Stop pressed before the check of the iteration of a note-off, and
    while the thread sleeps before that note-off. *)
Lemma stop_ends_the_thread_witness :
  let open_file := fun _ : string => Raise ValueError in
  let self := play (set_midi_playlist (start_server init) ["a.mid"]) in
  let p := mkPosition 480 [(480, mkMessage 480 (note_off 0 60 0))] 0 false in
  (exists self',
     play_playlist_run open_file (fun _ => 0%Q) 3 (stop self)
       (InFile "a.mid" p)
     = (self', Ended) /\
     playing self' = false /\ midi_playlist self' = [] /\
     osc_client self' = Some []) /\
  (exists woken self',
     play_event (stop self) 1 (mkMessage 480 (note_off 0 60 0)) = Ok woken /\
     play_playlist_run open_file (fun _ => 0%Q) 2 woken
       (InFile "a.mid" (mkPosition 480 [] 480 false))
     = (self', Ended) /\
     playing self' = false /\ osc_client self' = Some [("/ch1noff", 60)]).
Proof.
  cbv zeta.
  destruct (stop_ends_the_thread (fun _ : string => Raise ValueError)
              (fun _ => 0%Q)
              (play (set_midi_playlist (start_server init) ["a.mid"])))
    as (H1 & H2).
  split.
  - destruct (H1 (InFile "a.mid"
                    (mkPosition 480 [(480, mkMessage 480 (note_off 0 60 0))]
                       0 false)) I)
      as (self' & Hrun & _ & Hpl & _ & _ & Hmp & Hout).
    exists self'. split; [exact Hrun|]. split; [exact Hpl|].
    split; [exact Hmp|].
    destruct (Hout eq_refl) as [<- _]. reflexivity.
  - destruct (play_event_client
                (stop (play (set_midi_playlist (start_server init) ["a.mid"])))
                1 (mkMessage 480 (note_off 0 60 0)) [] eq_refl)
      as (woken & E & Hc & _).
    destruct (H2 "a.mid" (mkPosition 480 [] 480 false) 1%Q
                (mkMessage 480 (note_off 0 60 0)) woken eq_refl E)
      as (self' & Hrun & _ & Hpl & _ & _ & _ & Hout).
    exists woken, self'. split; [exact E|].
    split; [exact Hrun|]. split; [exact Hpl|].
    destruct Hout as [<- _]. rewrite Hc. reflexivity.
Defined.

(* ================================================================== *)
(** * Edges of the controls *)
(* ================================================================== *)

Section ControlEdges.

Local Open Scope py_scope.

(** X16.  The pause button pressed while nothing plays sets the pause
    flag all the same, and [stop] does not clear it then: from there on
    the callback drops every message that matches the grammar, without
    a line in the log. *)
Theorem idle_pause_outlives_stop (self : App) (current_time now : Q)
    (address : string) (args : list OscArg) :
  playing self = false -> paused self = false -> matches_grammar address ->
  let s := stop (toggle_pause self) in
  paused s = true /\
  handle_osc_message s current_time now address args
  = Ok (cleanup_sent_messages s current_time) /\
  midi_out (cleanup_sent_messages s current_time) = midi_out self /\
  log (cleanup_sent_messages s current_time) = log s.
Proof.
  intros Hpl Hpa Hg s.
  assert (paused s = true) as Hs.
  { unfold s, stop, toggle_pause. rewrite Hpa. cbn. rewrite Hpl. reflexivity. }
  split; [exact Hs|]. split.
  - rewrite handle_osc_message_cases. cbv zeta.
    apply re_match_iff_grammar in Hg.
    destruct (re_match address) as [m|]; [|congruence].
    now rewrite Hs.
  - split; [|reflexivity].
    unfold s, stop, toggle_pause. rewrite Hpa. cbn. rewrite Hpl. reflexivity.
Qed.

(** Pause, then Stop, before anything was played; then a note arrives. *)
Lemma idle_pause_outlives_stop_witness :
  let s := stop (toggle_pause (start_server init)) in
  paused s = true /\
  handle_osc_message s 0 0 "/ch1note" [ArgInt 60]
  = Ok (cleanup_sent_messages s 0) /\
  midi_out (cleanup_sent_messages s 0) = midi_out (start_server init) /\
  log (cleanup_sent_messages s 0) = log s.
Proof.
  apply (idle_pause_outlives_stop (start_server init) 0 0 "/ch1note"
           [ArgInt 60]).
  - reflexivity.
  - reflexivity.
  - apply re_match_iff_grammar. discriminate.
Defined.







End ControlEdges.
